(** * SAT encodings of Sudoku (Question1/q1.py) and Sokoban (Question2/q2.py)

    A shallow embedding of the two encoders and decoders, and the proofs of
    the properties their specification states about them.

    Python integers are [Z]; Python lists are [list]; a Python exception is
    the [Raise] branch of [result].  The SAT solver is an external
    collaborator: it enters the model as an oracle from clause lists to
    optional models, and a model has the shape PySAT gives it (entry [i] is
    the literal [i+1] or its negation). *)

From Stdlib Require Import String Ascii.
From stdpp Require Import base option list gmap.
From Stdlib Require Import ZArith Lia List Bool Permutation.
Import ListNotations.
Local Open Scope Z_scope.

(** ** Python exceptions and the error monad *)

Inductive exn : Type := IndexError | AssertionError | TypeError | ValueError.

Inductive result (A : Type) : Type :=
| Ok (a : A)
| Raise (e : exn).
Arguments Ok {A} a.
Arguments Raise {A} e.

Definition rbind {A B} (c : result A) (k : A -> result B) : result B :=
  match c with
  | Ok a => k a
  | Raise e => Raise e
  end.

Notation "'let*' x ':=' c 'in' k" := (rbind c (fun x => k))
  (at level 10, x pattern, c at level 100, k at level 200).

(** [py_assert b] is Python's [assert b]. *)
Definition py_assert (b : bool) : result unit :=
  if b then Ok tt else Raise AssertionError.

(** A [for] loop whose body appends clauses to the accumulator: the clauses
    appended by the whole loop, in order, or the first exception. *)
Fixpoint for_ {A B} (xs : list A) (body : A -> result (list B)) : result (list B) :=
  match xs with
  | [] => Ok []
  | x :: xs' =>
      let* l := body x in
      let* r := for_ xs' body in
      Ok (l ++ r)
  end.

(** ** Python ranges and list indexing *)

(** [range a b] is Python's [range(a, b)]. *)
Definition range (a b : Z) : list Z :=
  map (fun i => a + Z.of_nat i) (seq 0 (Z.to_nat (b - a))).

(** [range_step a b s] is Python's [range(a, b, s)]; a zero step raises
    [ValueError]. *)
Definition range_step (a b s : Z) : result (list Z) :=
  if s =? 0 then Raise ValueError
  else if 0 <? s then
    Ok (map (fun i => a + s * Z.of_nat i) (seq 0 (Z.to_nat ((b - a + s - 1) / s))))
  else
    Ok (map (fun i => a + s * Z.of_nat i) (seq 0 (Z.to_nat ((a - b - s - 1) / (- s))))).

(** The position that Python's [l[i]] reads in a list of length [len]:
    negative indices count from the end, anything else out of range raises
    [IndexError]. *)
Definition py_index (len : nat) (i : Z) : option nat :=
  if (0 <=? i) && (i <? Z.of_nat len) then Some (Z.to_nat i)
  else if (i <? 0) && (- Z.of_nat len <=? i) then Some (Z.to_nat (Z.of_nat len + i))
  else None.

Definition py_get {A} (l : list A) (i : Z) : result A :=
  match py_index (length l) i with
  | Some k => match l !! k with Some x => Ok x | None => Raise IndexError end
  | None => Raise IndexError
  end.

Definition len {A} (l : list A) : Z := Z.of_nat (length l).

(** ** Clauses and models *)

Definition clause : Type := list Z.
Definition cnf : Type := list clause.

(** The truth value the decoders read: [model[v - 1] > 0], false when the
    model is too short (the decoders index it themselves and raise there). *)
Definition var_true (m : list Z) (v : Z) : bool :=
  match m !! Z.to_nat (v - 1) with
  | Some x => 0 <? x
  | None => false
  end.

(** A literal holds in a model when the model lists it at its variable. *)
Definition lit_holds (m : list Z) (l : Z) : bool :=
  negb (l =? 0) &&
  match m !! Z.to_nat (Z.abs l - 1) with
  | Some x => x =? l
  | None => false
  end.

(** The shape of a PySAT model: entry [i] is [i+1] or [-(i+1)]. *)
Definition model_shape (m : list Z) : bool :=
  forallb (fun p => Z.abs (snd p) =? Z.of_nat (S (fst p)))
          (combine (seq 0 (length m)) m).

Definition lit_in_range (m : list Z) (l : Z) : bool :=
  negb (l =? 0) && (Z.abs l <=? len m).

Definition clause_ok (m : list Z) (c : clause) : bool :=
  forallb (lit_in_range m) c && existsb (lit_holds m) c.

(** [is_model m f]: [m] is a model of [f] as the solver returns one. *)
Definition is_model (m : list Z) (f : cnf) : bool :=
  model_shape m && forallb (clause_ok m) f.

(** Satisfaction by a valuation of the variables. *)
Definition lit_true (v : Z -> bool) (l : Z) : bool :=
  if 0 <? l then v l else negb (v (- l)).

Definition clause_sat (v : Z -> bool) (c : clause) : Prop :=
  exists l, In l c /\ lit_true v l = true.

Definition cnf_sat (v : Z -> bool) (f : cnf) : Prop :=
  forall c, In c f -> clause_sat v c.

(** The model that lists the valuation [v] on the variables [1..n]. *)
Definition model_of (v : Z -> bool) (n : Z) : list Z :=
  map (fun i => if v i then i else - i) (range 1 (n + 1)).

Definition satisfiable (f : cnf) : Prop := exists m, is_model m f = true.

(** The pairwise exclusions both encoders emit over a clause [cl]:
    [[-cl[i], -cl[j]]] for [i] in [range(k)] and [j] in [range(i+1, k)].
    At every use [k] is the length of [cl], so no index is out of range. *)
Definition pairwise_neg (k : Z) (cl : clause) : cnf :=
  flat_map (fun i =>
    map (fun j => [- nth (Z.to_nat i) cl 0; - nth (Z.to_nat j) cl 0])
        (range (i + 1) k))
    (range 0 k).

(** ** A reference solver

    The solver is outside the programs; [brute_force] is a solver to run
    them with: it tries every assignment of the variables [1..max_var f] and
    returns the first model. *)

Definition max_var (f : cnf) : Z := fold_right Z.max 0 (map Z.abs (concat f)).

Fixpoint assignments (n : nat) : list (list Z) :=
  match n with
  | O => [[]]
  | S n' =>
      flat_map (fun m => [m ++ [Z.of_nat n]; m ++ [- Z.of_nat n]]) (assignments n')
  end.

Definition brute_force (f : cnf) : option (list Z) :=
  find (fun m => is_model m f) (assignments (Z.to_nat (max_var f))).

(** A solver that answers SAT only with a model and UNSAT only when there is
    none. *)
Definition sat_oracle (oracle : cnf -> option (list Z)) : Prop :=
  forall f, match oracle f with
            | Some m => is_model m f = true
            | None => ~ satisfiable f
            end.

(** ** The solver boundary

    Both programs build a PySAT solver from their clause list and then ask
    it.  Building comes first and can fail: a clause of the solver is a list
    of non-zero integers, and adding a clause that holds the literal 0
    raises [ValueError].  Only then is the solver asked, and [oracle f] is
    its answer. *)

Definition has_zero (f : cnf) : bool := existsb (existsb (Z.eqb 0)) f.

Definition solver_answer (oracle : cnf -> option (list Z)) (f : cnf)
  : result (option (list Z)) :=
  if has_zero f then Raise ValueError else Ok (oracle f).

(** ** Question1/q1.py: the Sudoku solver *)

Module Sudoku.

(** The input grid is a Python list of row objects.  The rows live in a heap
    of list objects and the grid holds their references, so that the write
    [solution[r][c] = num] through the alias [solution = grid] is a write to
    the caller's rows. *)
Definition loc : Type := nat.
Abbreviation heap := (gmap nat (list Z)).

(** A computation that reads and writes the heap and may raise. *)
Definition M (A : Type) : Type := heap -> heap * result A.

(** A [for] loop over a body that writes the heap. *)
Fixpoint for_M {A} (xs : list A) (body : A -> M unit) : M unit :=
  fun h =>
    match xs with
    | [] => (h, Ok tt)
    | x :: xs' =>
        match body x h with
        | (h1, Ok _) => for_M xs' body h1
        | (h1, Raise e) => (h1, Raise e)
        end
    end.

(** [grid[r][c]]; a reference that is not allocated cannot occur in Python
    and is reported as [TypeError] to keep the function total. *)
Definition get_cell (h : heap) (grid : list loc) (r c : Z) : result Z :=
  let* l := py_get grid r in
  match h !! l with
  | Some row => py_get row c
  | None => Raise TypeError
  end.

(** [solution[r][c] = v] where [solution] is the list [grid]. *)
Definition set_cell (grid : list loc) (r c v : Z) : M unit :=
  fun h =>
    match py_get grid r with
    | Ok l =>
        match h !! l with
        | Some row =>
            match py_index (length row) c with
            | Some k => (<[l := <[k := v]> row]> h, Ok tt)
            | None => (h, Raise IndexError)
            end
        | None => (h, Raise TypeError)
        end
    | Raise e => (h, Raise e)
    end.

Section Encoding.

Variable n : Z.

Definition prop (row col num : Z) : Z := (row * n + col) * n + num.

(** Lines 33-40: at least one and at most one number in each cell. *)
Definition cell_clause (r c : Z) : clause :=
  map (fun num => prop r c num) (range 1 (n + 1)).

Definition cell_clauses : cnf :=
  flat_map (fun r =>
    flat_map (fun c => cell_clause r c :: pairwise_neg n (cell_clause r c))
             (range 0 n))
    (range 0 n).

(** Lines 43-46. *)
Definition row_clauses : cnf :=
  flat_map (fun r =>
    map (fun num => map (fun c => prop r c num) (range 0 n)) (range 1 (n + 1)))
    (range 0 n).

(** Lines 49-52. *)
Definition col_clauses : cnf :=
  flat_map (fun c =>
    map (fun num => map (fun r => prop r c num) (range 0 n)) (range 1 (n + 1)))
    (range 0 n).

(** Lines 55-61; [range(0, n, sub_n)] raises when [sub_n] is zero. *)
Definition subgrid_clause (sub_n br bc num : Z) : clause :=
  flat_map (fun r => map (fun c => prop r c num) (range bc (bc + sub_n)))
           (range br (br + sub_n)).

Definition subgrid_clauses (sub_n : Z) : result cnf :=
  let* brs := range_step 0 n sub_n in
  for_ brs (fun br =>
    let* bcs := range_step 0 n sub_n in
    for_ bcs (fun bc =>
      Ok (map (fun num => subgrid_clause sub_n br bc num) (range 1 (n + 1))))).

(** Lines 64-67. *)
Definition given_clauses (h : heap) (grid : list loc) : result cnf :=
  for_ (range 0 n) (fun r =>
    for_ (range 0 n) (fun c =>
      let* v := get_cell h grid r c in
      if v =? 0 then Ok [] else Ok [[prop r c v]])).

(** Lines 75-80: the first [num] whose variable is true in the model. *)
Fixpoint scan_values (model : list Z) (r c : Z) (nums : list Z) : result (option Z) :=
  match nums with
  | [] => Ok None
  | num :: rest =>
      let* x := py_get model (prop r c num - 1) in
      if 0 <? x then Ok (Some num) else scan_values model r c rest
  end.

Definition decode_cell (model : list Z) (grid : list loc) (r c : Z) : M unit :=
  fun h =>
    match scan_values model r c (range 1 (n + 1)) with
    | Ok (Some num) => set_cell grid r c num h
    | Ok None => (h, Ok tt)
    | Raise e => (h, Raise e)
    end.

Definition decode_grid (model : list Z) (grid : list loc) : M unit :=
  for_M (range 0 n) (fun r =>
    for_M (range 0 n) (fun c => decode_cell model grid r c)).

End Encoding.

(** [int(n ** 0.5)]: the float square root truncated, which is the integer
    square root for every grid size a list can have. *)
Definition int_sqrt (n : Z) : Z := Z.sqrt n.

(** The clauses handed to the solver (lines 14-67). *)
Definition sudoku_cnf (h : heap) (grid : list loc) : result cnf :=
  let n := len grid in
  let sub_n := int_sqrt n in
  let* subs := subgrid_clauses n sub_n in
  let* given := given_clauses n h grid in
  Ok (cell_clauses n ++ row_clauses n ++ col_clauses n ++ subs ++ given).

Section Solver.

(** [oracle f] is [None] when [solver.solve()] is false and the model
    [solver.get_model()] otherwise. *)
Variable oracle : cnf -> option (list Z).

(** Line 69 builds the solver from the clauses, [ValueError] on a literal 0;
    lines 70-82 ask it and decode. *)
Definition solve_sudoku (grid : list loc) : M (list loc) :=
  fun h =>
    match sudoku_cnf h grid with
    | Raise e => (h, Raise e)
    | Ok f =>
        match solver_answer oracle f with
        | Raise e => (h, Raise e)
        | Ok (Some model) =>
            match decode_grid (len grid) model grid h with
            | (h', Ok _) => (h', Ok grid)
            | (h', Raise e) => (h', Raise e)
            end
        | Ok None => (h, Ok grid)
        end
    end.

End Solver.

(** The contents of a grid in a heap, row by row. *)
Definition snapshot (h : heap) (grid : list loc) : list (list Z) :=
  map (fun l => default [] (h !! l)) grid.

Definition cell_of (m : list (list Z)) (r c : Z) : Z :=
  nth (Z.to_nat c) (nth (Z.to_nat r) m []) 0.

Definition row_cells (m : list (list Z)) (n r : Z) : list Z :=
  map (fun c => cell_of m r c) (range 0 n).

Definition col_cells (m : list (list Z)) (n c : Z) : list Z :=
  map (fun r => cell_of m r c) (range 0 n).

Definition subgrid_cells (m : list (list Z)) (sub_n br bc : Z) : list Z :=
  flat_map (fun r => map (fun c => cell_of m r c) (range bc (bc + sub_n)))
           (range br (br + sub_n)).

(** Every value of [1..n] occurs exactly once in [l]. *)
Definition each_once (n : Z) (l : list Z) : Prop :=
  forall v, 1 <= v <= n -> count_occ Z.eq_dec l v = 1%nat.

(** An n-by-n grid: [n] distinct row objects, each of length [n]. *)
Definition square_grid (h : heap) (grid : list loc) (n : Z) : Prop :=
  len grid = n /\ NoDup grid /\
  forall l, In l grid -> exists row, h !! l = Some row /\ len row = n.

(** Allocate the rows of a matrix at the locations [0, 1, ...]. *)
Definition alloc (rows : list (list Z)) : heap * list loc :=
  (list_to_map (combine (seq 0 (length rows)) rows), seq 0 (length rows)).

(** The value the decoding loop finds for a cell: the first [num] whose
    variable is true in the model, if there is one. *)
Definition cell_value (n : Z) (m : list Z) (r c : Z) : option Z :=
  find (fun num => var_true m (prop n r c num)) (range 1 (n + 1)).

(** What the decoding loop leaves in a cell: the value found, or what was
    there. *)
Definition decoded (n : Z) (m : list Z) (before : list (list Z)) (r c : Z) : Z :=
  match cell_value n m r c with
  | Some num => num
  | None => cell_of before r c
  end.

(** A grid in which every row, every column and every [s]-by-[s] subgrid
    holds each value of [1..s*s] exactly once. *)
Definition valid_solution (sol : list (list Z)) (s : Z) : Prop :=
  let n := s * s in
  (forall r, 0 <= r < n -> each_once n (row_cells sol n r)) /\
  (forall c, 0 <= c < n -> each_once n (col_cells sol n c)) /\
  (forall br bc, 0 <= br < s -> 0 <= bc < s ->
     each_once n (subgrid_cells sol s (s * br) (s * bc))).

End Sudoku.

(** ** Question2/q2.py: the Sokoban encoder and decoder *)

Module Sokoban.

(** The fields of a [SokobanEncoder] object.  [T] is [self.T], the horizon
    argument plus one; [self.cnf] is never read and is left out. *)
Record SokobanEncoder : Type := {
  grid : list (list string);
  T : Z;
  N : Z;
  M : Z;
  goals : list (Z * Z);
  boxes : list (Z * Z);
  walls : list (Z * Z);
  player_start : option (Z * Z);
  num_boxes : Z
}.

(** What [_parse_grid] accumulates in the object. *)
Record parse_state : Type := {
  ps_goals : list (Z * Z);
  ps_boxes : list (Z * Z);
  ps_walls : list (Z * Z);
  ps_player : option (Z * Z)
}.

(** A [for] loop over a body that updates a state and may raise. *)
Fixpoint for_S {A S} (xs : list A) (body : A -> S -> result S) (s : S) : result S :=
  match xs with
  | [] => Ok s
  | x :: xs' => let* s1 := body x s in for_S xs' body s1
  end.

Definition parse_cell (g : list (list string)) (x y : Z) (s : parse_state)
  : result parse_state :=
  let* row := py_get g x in
  let* ch := py_get row y in
  if (ch =? "P")%string then
    Ok {| ps_goals := ps_goals s; ps_boxes := ps_boxes s; ps_walls := ps_walls s;
          ps_player := Some (x, y) |}
  else if (ch =? "B")%string then
    Ok {| ps_goals := ps_goals s; ps_boxes := ps_boxes s ++ [(x, y)];
          ps_walls := ps_walls s; ps_player := ps_player s |}
  else if (ch =? "G")%string then
    Ok {| ps_goals := ps_goals s ++ [(x, y)]; ps_boxes := ps_boxes s;
          ps_walls := ps_walls s; ps_player := ps_player s |}
  else if (ch =? "#")%string then
    Ok {| ps_goals := ps_goals s; ps_boxes := ps_boxes s;
          ps_walls := ps_walls s ++ [(x, y)]; ps_player := ps_player s |}
  else Ok s.

Definition _parse_grid (g : list (list string)) (n m : Z) (s : parse_state)
  : result parse_state :=
  for_S (range 0 n) (fun x => for_S (range 0 m) (fun y => parse_cell g x y)) s.

(** [SokobanEncoder(grid, T)]. *)
Definition __init__ (g : list (list string)) (T0 : Z) : result SokobanEncoder :=
  let n := len g in
  let* row0 := py_get g 0 in
  let m := len row0 in
  let* s := _parse_grid g n m
              {| ps_goals := []; ps_boxes := []; ps_walls := []; ps_player := None |} in
  Ok {| grid := g; T := T0 + 1; N := n; M := m;
        goals := ps_goals s; boxes := ps_boxes s; walls := ps_walls s;
        player_start := ps_player s; num_boxes := len (ps_boxes s) |}.

Section Encoder.

Variable e : SokobanEncoder.

(** *** Variable numbering (lines 62-92) *)

Definition id_goal (x y : Z) : Z := x * M e + y + 1.

Definition id_player (x y t : Z) : Z := (t + 1) * M e * N e + x * M e + y + 1.

Definition id_move (num t : Z) : Z := (T e + 1) * M e * N e + 9 * t + num.

Definition id_box (b x y t : Z) : Z :=
  (1 + T e) * N e * M e + 9 * T e + num_boxes e * t * N e * M e
  + (b - 1) * N e * M e + x * M e + y + 1.

Definition var_goal (x y : Z) : result Z :=
  let* _ := py_assert ((x <? N e) && (y <? M e)) in
  let* _ := py_assert ((0 <=? x) && (0 <=? y)) in
  Ok (id_goal x y).

Definition var_player (x y t : Z) : result Z :=
  let* _ := py_assert ((x <? N e) && (y <? M e)) in
  let* _ := py_assert ((0 <=? x) && (0 <=? y)) in
  let* _ := py_assert (0 <=? t) in
  let* _ := py_assert (t <? T e) in
  Ok (id_player x y t).

Definition var_move (num t : Z) : result Z :=
  let* _ := py_assert ((1 <=? num) && (num <=? 9)) in
  let* _ := py_assert ((0 <=? t) && (t <? T e)) in
  Ok (id_move num t).

Definition var_box (b x y t : Z) : result Z :=
  let* _ := py_assert ((1 <=? b) && (b <=? num_boxes e)) in
  let* _ := py_assert ((x <? N e) && (y <? M e)) in
  let* _ := py_assert ((0 <=? x) && (0 <=? y)) in
  let* _ := py_assert ((0 <=? t) && (t <? T e)) in
  Ok (id_box b x y t).

(** *** The encoder (lines 95-230), section by section *)

(** The cell one step from [(x, y)] in direction [move]: 0 up, 1 right,
    2 down, anything else left. *)
Definition step (move x y : Z) : Z * Z :=
  if move =? 0 then (x - 1, y)
  else if move =? 1 then (x, y + 1)
  else if move =? 2 then (x + 1, y)
  else (x, y - 1).

Definition off_grid (x y : Z) : bool :=
  (x <? 0) || (y <? 0) || (N e <=? x) || (M e <=? y).

Definition pair_eqb (p q : Z * Z) : bool :=
  (fst p =? fst q) && (snd p =? snd q).

(** Lines 107-126: initial state, goal facts, walls, stay at [t = 0]. *)
Definition encode_initial : result cnf :=
  let* ps := match player_start e with
             | Some p => Ok p
             | None => Raise TypeError
             end in
  let* p0 := var_player (fst ps) (snd ps) 0 in
  let* bs := for_ (range 0 (num_boxes e)) (fun box =>
               let* b := py_get (boxes e) box in
               let* v := var_box (box + 1) (fst b) (snd b) 0 in
               Ok [[v]]) in
  let* gs := for_ (range 0 (N e)) (fun x =>
               for_ (range 0 (M e)) (fun y =>
                 if existsb (pair_eqb (x, y)) (goals e)
                 then let* v := var_goal x y in Ok [[v]]
                 else let* v := var_goal x y in Ok [[- v]])) in
  let* ws := for_ (range 0 (len (walls e))) (fun wall =>
               for_ (range 0 (T e)) (fun t =>
                 let* w := py_get (walls e) wall in
                 let* p := var_player (fst w) (snd w) t in
                 let* bw := for_ (range 0 (num_boxes e)) (fun box =>
                              let* w' := py_get (walls e) wall in
                              let* v := var_box (box + 1) (fst w') (snd w') t in
                              Ok [[- v]]) in
                 Ok ([- p] :: bw))) in
  let* s0 := var_move 9 0 in
  Ok ([p0] :: bs ++ gs ++ ws ++ [[s0]]).

(** Lines 129-145: plain moves. *)
Definition encode_moves : result cnf :=
  for_ (range 0 (N e)) (fun x =>
    for_ (range 0 (M e)) (fun y =>
      for_ (range 0 4) (fun move =>
        for_ (range 1 (T e)) (fun t =>
          let* fr := for_ (range 0 (num_boxes e)) (fun box =>
                       let* a := var_move (move + 1) t in
                       let* b := var_box (box + 1) x y (t - 1) in
                       let* c := var_box (box + 1) x y t in
                       Ok [[- a; - b; c]]) in
          let new := step move x y in
          let* mv :=
            if off_grid (fst new) (snd new) then
              let* a := var_move (move + 1) t in
              let* p := var_player x y (t - 1) in
              Ok [[- a; - p]]
            else
              let* a := var_move (move + 1) t in
              let* p := var_player x y (t - 1) in
              let* q := var_player (fst new) (snd new) t in
              Ok [[- a; - p; q]] in
          Ok (fr ++ mv))))).

(** Lines 148-177: pushes. *)
Definition encode_pushes : result cnf :=
  for_ (range 0 (N e)) (fun x =>
    for_ (range 0 (M e)) (fun y =>
      for_ (range 1 (T e)) (fun t =>
        for_ (range 0 4) (fun move =>
          let new := step move x y in
          let box_ := step move (fst new) (snd new) in
          if off_grid (fst new) (snd new) || off_grid (fst box_) (snd box_) then
            let* a := var_move (move + 5) t in
            let* p := var_player x y (t - 1) in
            Ok [[- a; - p]]
          else
            let* a := var_move (move + 5) t in
            let* p := var_player x y (t - 1) in
            let* per_box := for_ (range 0 (num_boxes e)) (fun box =>
              let* ahead := var_box (box + 1) (fst new) (snd new) (t - 1) in
              let* a1 := var_move (move + 5) t in
              let* p1 := var_player x y (t - 1) in
              let* b1 := var_box (box + 1) (fst new) (snd new) (t - 1) in
              let* q1 := var_player (fst new) (snd new) t in
              let* a2 := var_move (move + 5) t in
              let* p2 := var_player x y (t - 1) in
              let* b2 := var_box (box + 1) (fst new) (snd new) (t - 1) in
              let* c2 := var_box (box + 1) (fst box_) (snd box_) t in
              let* fr := for_ (range 0 (N e)) (fun prime_x =>
                for_ (range 0 (M e)) (fun prime_y =>
                  if negb (pair_eqb (prime_x, prime_y) new) then
                    let* a3 := var_move (move + 5) t in
                    let* p3 := var_player x y (t - 1) in
                    let* b3 := var_box (box + 1) prime_x prime_y (t - 1) in
                    let* c3 := var_box (box + 1) prime_x prime_y t in
                    Ok [[- a3; - p3; - b3; c3]]
                  else Ok [])) in
              Ok [(ahead, [[- a1; - p1; - b1; q1]; [- a2; - p2; - b2; c2]] ++ fr)]) in
            Ok (flat_map snd per_box ++ [[- a; - p] ++ map fst per_box]))))).

(** Lines 180-186: no two things on one cell. *)
Definition encode_overlap : result cnf :=
  for_ (range 0 (N e)) (fun x =>
    for_ (range 0 (M e)) (fun y =>
      for_ (range 0 (num_boxes e)) (fun box =>
        for_ (range 0 (T e)) (fun t =>
          let* p := var_player x y t in
          let* b := var_box (box + 1) x y t in
          let* others := for_ (range (box + 1) (num_boxes e)) (fun boxd =>
                           let* b1 := var_box (box + 1) x y t in
                           let* b2 := var_box (boxd + 1) x y t in
                           Ok [[- b1; - b2]]) in
          Ok ([- p; - b] :: others))))).

(** Lines 189-192: at the last step every box is on a goal. *)
Definition encode_goal : result cnf :=
  for_ (range 0 (N e)) (fun x =>
    for_ (range 0 (M e)) (fun y =>
      for_ (range 0 (num_boxes e)) (fun box =>
        let* b := var_box (box + 1) x y (T e - 1) in
        let* g := var_goal x y in
        Ok [[- b; g]]))).

(** Lines 198-204: exactly one action at each step. *)
Definition encode_actions : result cnf :=
  for_ (range 0 (T e)) (fun t =>
    let* per_i := for_ (range 1 10) (fun i =>
      let* v := var_move i t in
      let* ex := for_ (range (i + 1) 10) (fun j =>
                   let* a := var_move i t in
                   let* b := var_move j t in
                   Ok [[- a; - b]]) in
      Ok [(v, ex)]) in
    Ok (flat_map snd per_i ++ [map fst per_i])).

(** Lines 207-221: the player and each box are on exactly one cell. *)
Definition encode_unique : result cnf :=
  for_ (range 0 (T e)) (fun t =>
    let* cl := for_ (range 0 (N e)) (fun x =>
                 for_ (range 0 (M e)) (fun y =>
                   let* v := var_player x y t in Ok [v])) in
    let* bx := for_ (range 0 (num_boxes e)) (fun box =>
                 let* bcl := for_ (range 0 (N e)) (fun x =>
                               for_ (range 0 (M e)) (fun y =>
                                 let* v := var_box (box + 1) x y t in Ok [v])) in
                 Ok (bcl :: pairwise_neg (len bcl) bcl)) in
    Ok (cl :: pairwise_neg (len cl) cl ++ bx)).

(** Lines 223-228: the stay action changes nothing. *)
Definition encode_stay : result cnf :=
  for_ (range 1 (T e)) (fun t =>
    for_ (range 0 (N e)) (fun x =>
      for_ (range 0 (M e)) (fun y =>
        let* bs := for_ (range 0 (num_boxes e)) (fun box =>
                     let* a := var_move 9 t in
                     let* b := var_box (box + 1) x y (t - 1) in
                     let* c := var_box (box + 1) x y t in
                     Ok [[- a; - b; c]]) in
        let* a := var_move 9 t in
        let* p := var_player x y (t - 1) in
        let* q := var_player x y t in
        Ok (bs ++ [[- a; - p; q]])))).

Definition encode : result cnf :=
  let* s1 := encode_initial in
  let* s2 := encode_moves in
  let* s3 := encode_pushes in
  let* s4 := encode_overlap in
  let* s5 := encode_goal in
  let* s6 := encode_actions in
  let* s7 := encode_unique in
  let* s8 := encode_stay in
  Ok (s1 ++ s2 ++ s3 ++ s4 ++ s5 ++ s6 ++ s7 ++ s8).

(** *** The decoder (lines 234-262) *)

Definition decode (model : list Z) : result (list string) :=
  let base := (T e + 1) * N e * M e in
  for_ (range base (base + 9 * T e)) (fun index =>
    let* x := py_get model index in
    if 0 <? x then
      Ok (match (index - base) mod 9 with
          | 0 => ["U"%string]
          | 1 => ["R"%string]
          | 2 => ["D"%string]
          | 3 => ["L"%string]
          | 4 => ["U"%string]
          | 5 => ["R"%string]
          | 6 => ["D"%string]
          | 7 => ["L"%string]
          | _ => []
          end)
    else Ok []).

End Encoder.

(** *** [solve_sokoban] (lines 265-290) *)

(** What [solve_sokoban] returns: a move sequence, or the marker [-1]. *)
Inductive answer : Type :=
| Moves (l : list string)
| Unsat.

Section Solver.

Variable oracle : cnf -> option (list Z).

(** Line 283, [solver.append_formula(cnf)], is where a literal 0 would raise
    [ValueError]. *)
Definition solve_sokoban (g : list (list string)) (T0 : Z) : result answer :=
  let* encoder := __init__ g T0 in
  let* f := encode encoder in
  let* ans := solver_answer oracle f in
  match ans with
  | None => Ok Unsat
  | Some model =>
      match model with
      | [] => Ok Unsat
      | _ => let* ms := decode encoder model in Ok (Moves ms)
      end
  end.

End Solver.


(** *** The clause list [encode] returns, without the assertions

    [encode] only calls the variable functions inside their bounds, so on a
    parsed grid with a player it returns the list below ([encode_clauses] in
    the proofs); the properties of the encoding are stated on these named
    sections. *)

Section Clauses.

Variable e : SokobanEncoder.

Definition initial_clauses (ps : Z * Z) : cnf :=
  [id_player e (fst ps) (snd ps) 0]
  :: flat_map (fun box =>
       let b := nth (Z.to_nat box) (boxes e) (0, 0) in
       [[id_box e (box + 1) (fst b) (snd b) 0]])
       (range 0 (num_boxes e))
  ++ flat_map (fun x => flat_map (fun y =>
       if existsb (pair_eqb (x, y)) (goals e)
       then [[id_goal e x y]] else [[- id_goal e x y]])
       (range 0 (M e))) (range 0 (N e))
  ++ flat_map (fun wall => flat_map (fun t =>
       let w := nth (Z.to_nat wall) (walls e) (0, 0) in
       [- id_player e (fst w) (snd w) t]
       :: flat_map (fun box => [[- id_box e (box + 1) (fst w) (snd w) t]])
            (range 0 (num_boxes e)))
       (range 0 (T e))) (range 0 (len (walls e)))
  ++ [[id_move e 9 0]].

Definition move_clauses : cnf :=
  flat_map (fun x => flat_map (fun y => flat_map (fun move => flat_map (fun t =>
    flat_map (fun box =>
      [[- id_move e (move + 1) t; - id_box e (box + 1) x y (t - 1);
        id_box e (box + 1) x y t]])
      (range 0 (num_boxes e))
    ++ (let new := step move x y in
        if off_grid e (fst new) (snd new)
        then [[- id_move e (move + 1) t; - id_player e x y (t - 1)]]
        else [[- id_move e (move + 1) t; - id_player e x y (t - 1);
               id_player e (fst new) (snd new) t]]))
    (range 1 (T e))) (range 0 4)) (range 0 (M e))) (range 0 (N e)).

(** The clauses of one box for a push from [(x, y)] at [t] in direction
    [move], whose cell ahead [new] and cell beyond [box_] are on the grid:
    the player follows (line 171), the box moves (line 172), and the box
    stays wherever else it is (lines 173-176). *)
Definition push_follow (x y t move box : Z) : clause :=
  let new := step move x y in
  [- id_move e (move + 5) t; - id_player e x y (t - 1);
   - id_box e (box + 1) (fst new) (snd new) (t - 1);
   id_player e (fst new) (snd new) t].

Definition push_moved (x y t move box : Z) : clause :=
  let new := step move x y in
  let box_ := step move (fst new) (snd new) in
  [- id_move e (move + 5) t; - id_player e x y (t - 1);
   - id_box e (box + 1) (fst new) (snd new) (t - 1);
   id_box e (box + 1) (fst box_) (snd box_) t].

Definition push_frame (x y t move box : Z) : cnf :=
  let new := step move x y in
  flat_map (fun prime_x => flat_map (fun prime_y =>
    if negb (pair_eqb (prime_x, prime_y) new) then
      [[- id_move e (move + 5) t; - id_player e x y (t - 1);
        - id_box e (box + 1) prime_x prime_y (t - 1);
        id_box e (box + 1) prime_x prime_y t]]
    else [])
    (range 0 (M e))) (range 0 (N e)).

Definition push_ahead (x y t move : Z) : clause :=
  let new := step move x y in
  [- id_move e (move + 5) t; - id_player e x y (t - 1)]
  ++ map (fun box => id_box e (box + 1) (fst new) (snd new) (t - 1))
         (range 0 (num_boxes e)).

Definition push_clauses : cnf :=
  flat_map (fun x => flat_map (fun y => flat_map (fun t => flat_map (fun move =>
    let new := step move x y in
    let box_ := step move (fst new) (snd new) in
    if off_grid e (fst new) (snd new) || off_grid e (fst box_) (snd box_)
    then [[- id_move e (move + 5) t; - id_player e x y (t - 1)]]
    else
      flat_map (fun box =>
        [push_follow x y t move box; push_moved x y t move box]
        ++ push_frame x y t move box)
        (range 0 (num_boxes e))
      ++ [push_ahead x y t move])
    (range 0 4)) (range 1 (T e))) (range 0 (M e))) (range 0 (N e)).

Definition overlap_clauses : cnf :=
  flat_map (fun x => flat_map (fun y => flat_map (fun box => flat_map (fun t =>
    [- id_player e x y t; - id_box e (box + 1) x y t]
    :: flat_map (fun boxd =>
         [[- id_box e (box + 1) x y t; - id_box e (boxd + 1) x y t]])
         (range (box + 1) (num_boxes e)))
    (range 0 (T e))) (range 0 (num_boxes e))) (range 0 (M e))) (range 0 (N e)).

Definition goal_clauses : cnf :=
  flat_map (fun x => flat_map (fun y => flat_map (fun box =>
    [[- id_box e (box + 1) x y (T e - 1); id_goal e x y]])
    (range 0 (num_boxes e))) (range 0 (M e))) (range 0 (N e)).

Definition action_clauses : cnf :=
  flat_map (fun t =>
    flat_map (fun i =>
      flat_map (fun j => [[- id_move e i t; - id_move e j t]]) (range (i + 1) 10))
      (range 1 10)
    ++ [map (fun i => id_move e i t) (range 1 10)])
    (range 0 (T e)).

Definition player_cells (t : Z) : clause :=
  flat_map (fun x => flat_map (fun y => [id_player e x y t]) (range 0 (M e)))
           (range 0 (N e)).

Definition box_cells (box t : Z) : clause :=
  flat_map (fun x => flat_map (fun y => [id_box e (box + 1) x y t]) (range 0 (M e)))
           (range 0 (N e)).

Definition unique_clauses : cnf :=
  flat_map (fun t =>
    player_cells t
    :: pairwise_neg (len (player_cells t)) (player_cells t)
    ++ flat_map (fun box =>
         box_cells box t :: pairwise_neg (len (box_cells box t)) (box_cells box t))
         (range 0 (num_boxes e)))
    (range 0 (T e)).

Definition stay_clauses : cnf :=
  flat_map (fun t => flat_map (fun x => flat_map (fun y =>
    flat_map (fun box =>
      [[- id_move e 9 t; - id_box e (box + 1) x y (t - 1); id_box e (box + 1) x y t]])
      (range 0 (num_boxes e))
    ++ [[- id_move e 9 t; - id_player e x y (t - 1); id_player e x y t]])
    (range 0 (M e))) (range 0 (N e))) (range 1 (T e)).

Definition encode_clauses (ps : Z * Z) : cnf :=
  initial_clauses ps ++ move_clauses ++ push_clauses ++ overlap_clauses
  ++ goal_clauses ++ action_clauses ++ unique_clauses ++ stay_clauses.

(** *** Facts and their numbers *)

Inductive fact : Type :=
| Goal (x y : Z)
| Player (x y t : Z)
| Move (num t : Z)
| Box (b x y t : Z).

Definition var_of (f : fact) : result Z :=
  match f with
  | Goal x y => var_goal e x y
  | Player x y t => var_player e x y t
  | Move num t => var_move e num t
  | Box b x y t => var_box e b x y t
  end.

Definition id_of (f : fact) : Z :=
  match f with
  | Goal x y => id_goal e x y
  | Player x y t => id_player e x y t
  | Move num t => id_move e num t
  | Box b x y t => id_box e b x y t
  end.

Definition on_grid (x y : Z) : Prop := 0 <= x < N e /\ 0 <= y < M e.

Definition in_bounds (f : fact) : Prop :=
  match f with
  | Goal x y => on_grid x y
  | Player x y t => on_grid x y /\ 0 <= t < T e
  | Move num t => 1 <= num <= 9 /\ 0 <= t < T e
  | Box b x y t => 1 <= b <= num_boxes e /\ on_grid x y /\ 0 <= t < T e
  end.

(** The number of variables, as the comment that closes q2.py counts them. *)
Definition total_var_count : Z :=
  (1 + T e) * N e * M e + 9 * T e + num_boxes e * T e * N e * M e.

(** The fact a variable number stands for. *)
Definition fact_of (v : Z) : option fact :=
  let nm := N e * M e in
  if v <? 1 then None
  else if v <=? nm then
    Some (Goal ((v - 1) / M e) ((v - 1) mod M e))
  else if v <=? (T e + 1) * nm then
    let w := v - 1 - nm in
    let u := w mod nm in
    Some (Player (u / M e) (u mod M e) (w / nm))
  else if v <=? (T e + 1) * nm + 9 * T e then
    let w := v - 1 - (T e + 1) * nm in
    Some (Move (w mod 9 + 1) (w / 9))
  else if v <=? total_var_count then
    let w := v - 1 - (T e + 1) * nm - 9 * T e in
    let u := w mod (num_boxes e * nm) in
    let u2 := u mod nm in
    Some (Box (u / nm + 1) (u2 / M e) (u2 mod M e) (w / (num_boxes e * nm)))
  else None.

(** The dimensions of an encoder are lengths and its horizon is not
    negative. *)
Definition dims_ok : Prop :=
  0 <= N e /\ 0 <= M e /\ 0 <= T e /\ 0 <= num_boxes e.

End Clauses.

(** The cells [_parse_grid] has recorded so far are cells of an n-by-m
    grid. *)
Definition parsed_on (n m : Z) (s : parse_state) : Prop :=
  (forall p, In p (ps_boxes s) -> 0 <= fst p < n /\ 0 <= snd p < m) /\
  (forall p, In p (ps_walls s) -> 0 <= fst p < n /\ 0 <= snd p < m) /\
  (forall p, ps_player s = Some p -> 0 <= fst p < n /\ 0 <= snd p < m).

(** An encoder as [__init__] leaves it: the dimensions are lengths, and the
    boxes, walls and player cell are cells of the grid. *)
Definition wf_encoder (e : SokobanEncoder) : Prop :=
  0 <= N e /\ 0 <= M e /\ num_boxes e = len (boxes e) /\
  (forall p, In p (boxes e) -> on_grid e (fst p) (snd p)) /\
  (forall p, In p (walls e) -> on_grid e (fst p) (snd p)) /\
  (forall p, player_start e = Some p -> on_grid e (fst p) (snd p)).

(** *** Padding a model to a longer horizon *)

(** The encoder of the same grid with [self.T = t]. *)
Definition with_horizon (e : SokobanEncoder) (t : Z) : SokobanEncoder :=
  {| grid := grid e; T := t; N := N e; M := M e; goals := goals e;
     boxes := boxes e; walls := walls e; player_start := player_start e;
     num_boxes := num_boxes e |}.

(** A signed fact and the literal it is for an encoder. *)
Definition lit (e : SokobanEncoder) (sf : bool * fact) : Z :=
  if fst sf then id_of e (snd sf) else - id_of e (snd sf).

(** The fact at the last step [k] when its own step is later. *)
Definition clamp (k : Z) (f : fact) : fact :=
  match f with
  | Player x y t => Player x y (Z.min t k)
  | Box b x y t => Box b x y (Z.min t k)
  | _ => f
  end.

Definition clamp_signed (k : Z) (sf : bool * fact) : bool * fact :=
  (fst sf, clamp k (snd sf)).

(** A fact that is not an action after step [k]. *)
Definition early (k : Z) (f : fact) : Prop :=
  match f with
  | Move _ t => t <= k
  | _ => True
  end.

(** The truth of a fact of the longer horizon, from a valuation [v] of the
    variables of the encoder [ek]: the state after the last step of [ek] is
    the last state of [ek], and the action after it is the stay. *)
Definition pad_truth (ek : SokobanEncoder) (v : Z -> bool) (f : fact) : bool :=
  match f with
  | Move num t => if t <? T ek then v (id_move ek num t) else num =? 9
  | _ => v (id_of ek (clamp (T ek - 1) f))
  end.

Definition pad_val (ek eT : SokobanEncoder) (v : Z -> bool) (i : Z) : bool :=
  match fact_of eT i with
  | Some f => pad_truth ek v f
  | None => false
  end.

Definition pad_model (ek eT : SokobanEncoder) (m : list Z) : list Z :=
  model_of (pad_val ek eT (var_true m)) (total_var_count eT).

Definition signed (s b : bool) : bool := if s then b else negb b.

(** The cells of the grid in the order of the loops [for x ... for y]. *)
Definition cells (e : SokobanEncoder) : list (Z * Z) :=
  flat_map (fun x => map (pair x) (range 0 (M e))) (range 0 (N e)).

(** *** Reading the plan off a model *)

(** The direction symbol of an action code: moves 1-4 and pushes 5-8 are
    U, R, D, L; the stay code 9 has none. *)
Definition symbol (num : Z) : list string :=
  match num with
  | 1 | 5 => ["U"%string]
  | 2 | 6 => ["R"%string]
  | 3 | 7 => ["D"%string]
  | 4 | 8 => ["L"%string]
  | _ => []
  end.

(** The action codes whose variable is true at step [t], in code order. *)
Definition actions_at (e : SokobanEncoder) (m : list Z) (t : Z) : list Z :=
  filter (fun num => var_true m (id_move e num t)) (range 1 10).

(** The action code of step [t] in a model with one true action variable
    per step. *)
Definition action_at (e : SokobanEncoder) (m : list Z) (t : Z) : Z :=
  hd 0 (actions_at e m t).

End Sokoban.

(** ** The numbering properties, as stated of both programs *)

(** [prop] numbers the cell values of an n-by-n grid one-to-one onto
    [1..n*n*n]. *)
Definition prop_bijective (n : Z) : Prop :=
  (forall r c num r' c' num',
     0 <= r < n -> 0 <= c < n -> 1 <= num <= n ->
     0 <= r' < n -> 0 <= c' < n -> 1 <= num' <= n ->
     Sudoku.prop n r c num = Sudoku.prop n r' c' num' ->
     r = r' /\ c = c' /\ num = num') /\
  (forall r c num, 0 <= r < n -> 0 <= c < n -> 1 <= num <= n ->
     1 <= Sudoku.prop n r c num <= n * n * n) /\
  (forall i, 1 <= i <= n * n * n ->
     exists r c num, 0 <= r < n /\ 0 <= c < n /\ 1 <= num <= n /\
                     Sudoku.prop n r c num = i).

(** The variable functions of an encoder number the facts one-to-one onto
    [1..total_var_count], family after family: goals, player positions,
    actions, box positions. *)
Definition numbering_bijective (e : Sokoban.SokobanEncoder) : Prop :=
  let nm := Sokoban.N e * Sokoban.M e in
  let t1 := Sokoban.T e + 1 in
  (forall f g v, Sokoban.var_of e f = Ok v -> Sokoban.var_of e g = Ok v -> f = g) /\
  (forall f v, Sokoban.var_of e f = Ok v ->
     match f with
     | Sokoban.Goal _ _ => 1 <= v <= nm
     | Sokoban.Player _ _ _ => nm + 1 <= v <= t1 * nm
     | Sokoban.Move _ _ => t1 * nm + 1 <= v <= t1 * nm + 9 * Sokoban.T e
     | Sokoban.Box _ _ _ _ =>
         t1 * nm + 9 * Sokoban.T e + 1 <= v <= Sokoban.total_var_count e
     end) /\
  (forall v, 1 <= v <= Sokoban.total_var_count e ->
     exists f, Sokoban.var_of e f = Ok v).

(** ** Solutions of a Sudoku puzzle, and the model that lists one *)

(** The grid [sol] fills the blanks of [puzzle]: it has the givens of
    [puzzle] where [puzzle] has a non-zero cell. *)
Definition extends (n : Z) (puzzle sol : list (list Z)) : Prop :=
  forall r c, 0 <= r < n -> 0 <= c < n ->
    Sudoku.cell_of puzzle r c <> 0 ->
    Sudoku.cell_of sol r c = Sudoku.cell_of puzzle r c.

(** The model over the variables [1..n*n*n] in which the variable
    [prop(r, c, num)] is true exactly when [sol] has [num] at [(r, c)]. *)
Definition grid_model (n : Z) (sol : list (list Z)) : list Z :=
  model_of (fun v => Sudoku.cell_of sol ((v - 1) / n / n) (((v - 1) / n) mod n)
                     =? (v - 1) mod n + 1) (n * n * n).

(** ** What [_parse_grid] reads *)

(** The character of a grid at a cell, and the cells of an encoder's grid
    that hold the character [ch], in the order of the loops of
    [_parse_grid]. *)
Definition char_at (g : list (list string)) (p : Z * Z) : string :=
  nth (Z.to_nat (snd p)) (nth (Z.to_nat (fst p)) g []) ""%string.

Definition marked (e : Sokoban.SokobanEncoder) (ch : string) : list (Z * Z) :=
  filter (fun p => (char_at (Sokoban.grid e) p =? ch)%string) (Sokoban.cells e).

(** ** The direction table of q2.py *)

(** [DIRS] (line 21): the displacement of each direction symbol. *)
Definition DIRS : list (string * (Z * Z)) :=
  [("U", (-1, 0)); ("D", (1, 0)); ("L", (0, -1)); ("R", (0, 1))]%string.

(** [d[k]] of a dict kept as an association list; [None] is [KeyError]. *)
Definition dict_get {A} (d : list (string * A)) (k : string) : option A :=
  option_map snd (find (fun p => (fst p =? k)%string) d).

(** ** Example instances *)

Module Examples.

(** A 4-by-4 puzzle with one given, a solution of it, and the model that
    lists the solution. *)
Definition puzzle4 : list (list Z) :=
  [[1; 0; 0; 0]; [0; 0; 0; 0]; [0; 0; 0; 0]; [0; 0; 0; 0]].

Definition solved4 : list (list Z) :=
  [[1; 2; 3; 4]; [3; 4; 1; 2]; [2; 1; 4; 3]; [4; 3; 2; 1]].

Definition model4 : list Z :=
  model_of (fun v => Sudoku.cell_of solved4 ((v - 1) / 16) (((v - 1) / 4) mod 4)
                     =? (v - 1) mod 4 + 1) 64.

Definition cnf4 : cnf :=
  match Sudoku.sudoku_cnf (fst (Sudoku.alloc puzzle4)) (snd (Sudoku.alloc puzzle4)) with
  | Ok f => f
  | Raise _ => []
  end.

(** A 4-by-4 puzzle whose first row holds the value 1 twice. *)
Definition clash4 : list (list Z) :=
  [[1; 1; 0; 0]; [0; 0; 0; 0]; [0; 0; 0; 0]; [0; 0; 0; 0]].

(** A 4-by-4 puzzle with a given outside [1..4]. *)
Definition stray4 : list (list Z) :=
  [[29; 0; 0; 0]; [0; 0; 0; 0]; [0; 0; 0; 0]; [0; 0; 0; 0]].

(** A one-row level: the player, a box to its right, and the goal beyond. *)
Definition level1 : list (list string) := [["P"; "B"; "G"]]%string.

(** The encoder of [level1] at horizon 1, as [__init__] builds it. *)
Definition encoder1 : Sokoban.SokobanEncoder :=
  {| Sokoban.grid := level1; Sokoban.T := 2; Sokoban.N := 1; Sokoban.M := 3;
     Sokoban.goals := [(0, 2)]; Sokoban.boxes := [(0, 1)]; Sokoban.walls := [];
     Sokoban.player_start := Some (0, 0); Sokoban.num_boxes := 1 |}.

(** The model of the horizon-1 clauses of [level1] in which the player
    pushes the box right at step 1: goal at (0,2); player at (0,0) then
    (0,1); stay (code 9) at step 0 and push right (code 6) at step 1; box at
    (0,1) then (0,2). *)
Definition plan1 : list Z :=
  model_of (fun v => existsb (Z.eqb v) [3; 4; 8; 18; 24; 29; 33]) 33.

(** A level without a player. *)
Definition level0 : list (list string) := [["."]]%string.



(** A level with only the player, small enough for [brute_force]. *)
Definition level_alone : list (list string) := [["P"]]%string.

(** A 4-by-4 grid whose second row is one cell short. *)
Definition ragged4 : list (list Z) :=
  [[1; 0; 0; 0]; [0; 0; 0]; [0; 0; 0; 0]; [0; 0; 0; 0]].

(** A level whose second row is one cell short. *)
Definition level_ragged : list (list string) := [["P"; "B"; "G"]; ["."; "."]]%string.

(** A two-row level with every kind of cell, and two players. *)
Definition level_mixed : list (list string) :=
  [["P"; "B"; "G"; "#"]; ["G"; "P"; "."; "B"]]%string.

(** A one-row level with a free cell between the player and the box, and a
    wall after the goal. *)
Definition level_tour : list (list string) := [["P"; "."; "B"; "G"; "#"]]%string.

(** The encoder of [level_tour] at horizon 3, as [__init__] builds it. *)
Definition encoder_tour : Sokoban.SokobanEncoder :=
  {| Sokoban.grid := level_tour; Sokoban.T := 4; Sokoban.N := 1; Sokoban.M := 5;
     Sokoban.goals := [(0, 3)]; Sokoban.boxes := [(0, 2)]; Sokoban.walls := [(0, 4)];
     Sokoban.player_start := Some (0, 0); Sokoban.num_boxes := 1 |}.

(** The model of the horizon-3 clauses of [level_tour] in which the player
    walks right at step 1, pushes the box right at step 2 and stays at
    step 3: goal at (0,3); player at (0,0), (0,1), (0,2), (0,2); stay
    (code 9), move right (code 2), push right (code 6), stay; box at (0,2),
    (0,2), (0,3), (0,3). *)
Definition plan_tour : list Z :=
  model_of (fun v => existsb (Z.eqb v)
                       [4; 6; 12; 18; 23; 34; 36; 49; 61; 64; 69; 75; 80]) 81.

(** A blank 2-by-2 grid: its side is not a perfect square. *)
Definition blank2 : list (list Z) := [[0; 0]; [0; 0]].

(** The 2-by-2 grid with a given whose literal is 0: [prop(0, 1, -2) = 0]. *)
Definition zero2 : list (list Z) := [[0; -2]; [0; 0]].




(** A blank 4-by-4 grid whose four rows are one list object. *)
Definition aliased4 : Sudoku.heap * list Sudoku.loc :=
  (list_to_map [(0%nat, [0; 0; 0; 0])], [0%nat; 0%nat; 0%nat; 0%nat]).

End Examples.

(** * Proofs *)

(** ** Ranges, loops and indexing *)

Lemma in_range (a b x : Z) : In x (range a b) <-> a <= x < b.
Proof.
  unfold range. rewrite in_map_iff. split.
  - intros (i & <- & Hi). apply in_seq in Hi. lia.
  - intros H. exists (Z.to_nat (x - a)). split; [lia|].
    apply in_seq. lia.
Qed.

Lemma length_range (a b : Z) : length (range a b) = Z.to_nat (b - a).
Proof. unfold range. now rewrite length_map, length_seq. Qed.

Lemma range_nil (a b : Z) : b <= a -> range a b = [].
Proof.
  intros H. unfold range. replace (Z.to_nat (b - a)) with 0%nat by lia.
  reflexivity.
Qed.

Lemma range_cons (a b : Z) : a < b -> range a b = a :: range (a + 1) b.
Proof.
  intros H. unfold range.
  replace (Z.to_nat (b - a)) with (S (Z.to_nat (b - (a + 1)))) by lia.
  cbn [seq map]. f_equal; [lia|].
  rewrite <- seq_shift, map_map. apply map_ext. intros i. lia.
Qed.

Lemma NoDup_range (a b : Z) : NoDup (range a b).
Proof.
  unfold range. apply Finite.Injective_map_NoDup; [|apply seq_NoDup].
  intros i j Hij. lia.
Qed.

Lemma nth_range (a b : Z) (k : nat) (d : Z) :
  (k < Z.to_nat (b - a))%nat -> nth k (range a b) d = a + Z.of_nat k.
Proof.
  intros H. unfold range.
  rewrite (nth_indep _ d (a + Z.of_nat 0)) by (now rewrite length_map, length_seq).
  rewrite (map_nth (fun i => a + Z.of_nat i)), seq_nth by assumption.
  reflexivity.
Qed.

Lemma lookup_range (a b : Z) (k : nat) :
  (k < Z.to_nat (b - a))%nat -> range a b !! k = Some (a + Z.of_nat k).
Proof.
  intros H.
  destruct (lookup_lt_is_Some_2 (range a b) k) as [x E].
  { now rewrite length_range. }
  rewrite E. f_equal. apply (nth_lookup_Some _ _ 0) in E.
  now rewrite nth_range in E.
Qed.

Lemma for_ok {A B} (xs : list A) (body : A -> result (list B)) (g : A -> list B) :
  (forall x, In x xs -> body x = Ok (g x)) ->
  for_ xs body = Ok (flat_map g xs).
Proof.
  induction xs as [|x xs IH]; intros H; cbn; [reflexivity|].
  rewrite (H x) by now left. cbn.
  rewrite IH by (intros y Hy; apply H; now right). reflexivity.
Qed.

Lemma flat_map_single {A B} (f : A -> B) (l : list A) :
  flat_map (fun x => [f x]) l = map f l.
Proof. induction l; cbn; congruence. Qed.

Lemma py_index_in (n : nat) (i : Z) :
  0 <= i < Z.of_nat n -> py_index n i = Some (Z.to_nat i).
Proof.
  intros H. unfold py_index.
  destruct (Z.leb_spec 0 i), (Z.ltb_spec i (Z.of_nat n)); cbn; try lia.
  reflexivity.
Qed.

Lemma py_get_in {A} (l : list A) (i : Z) (d : A) :
  0 <= i < len l -> py_get l i = Ok (nth (Z.to_nat i) l d).
Proof.
  intros H. unfold py_get, len in *. rewrite py_index_in by assumption.
  destruct (l !! Z.to_nat i) as [x|] eqn:E.
  - f_equal. symmetry. apply nth_lookup_Some with (d := d) in E. exact E.
  - apply lookup_ge_None in E. lia.
Qed.

Lemma py_get_lookup {A} (l : list A) (i : Z) (x : A) :
  0 <= i -> l !! Z.to_nat i = Some x -> py_get l i = Ok x.
Proof.
  intros Hi E. unfold py_get.
  assert (Z.to_nat i < length l)%nat by (eapply lookup_lt_Some; eauto).
  rewrite py_index_in by lia. now rewrite E.
Qed.

(** ** Models and valuations *)

Lemma model_shape_lookup (m : list Z) (k : nat) (x : Z) :
  model_shape m = true -> m !! k = Some x -> Z.abs x = Z.of_nat (S k).
Proof.
  unfold model_shape. rewrite forallb_forall. intros H E.
  specialize (H (k, x)). cbn in H. apply Z.eqb_eq, H.
  assert (Hk : (k < length m)%nat) by (eapply lookup_lt_Some; eauto).
  apply (nth_lookup_Some _ _ 0) in E.
  replace (k, x) with (nth k (combine (seq 0 (length m)) m) (0%nat, 0)).
  - apply nth_In. rewrite length_combine, length_seq. lia.
  - rewrite combine_nth by now rewrite length_seq.
    now rewrite seq_nth, E by assumption.
Qed.

Lemma lit_holds_true (m : list Z) (l : Z) :
  model_shape m = true -> lit_holds m l = true -> lit_true (var_true m) l = true.
Proof.
  intros Hs. unfold lit_holds, lit_true, var_true.
  destruct (Z.eqb_spec l 0) as [|Hl]; cbn; [discriminate|].
  destruct (m !! Z.to_nat (Z.abs l - 1)) as [x|] eqn:E; [|discriminate].
  intros Hx. apply Z.eqb_eq in Hx. subst x.
  destruct (Z.ltb_spec 0 l) as [Hpos|Hneg].
  - replace (Z.to_nat (l - 1)) with (Z.to_nat (Z.abs l - 1)) by lia.
    rewrite E. now apply Z.ltb_lt.
  - replace (Z.to_nat (- l - 1)) with (Z.to_nat (Z.abs l - 1)) by lia.
    rewrite E. destruct (Z.ltb_spec 0 l); [lia|reflexivity].
Qed.

Lemma is_model_sat (m : list Z) (f : cnf) :
  is_model m f = true -> cnf_sat (var_true m) f.
Proof.
  unfold is_model. rewrite andb_true_iff, forallb_forall.
  intros [Hs Hf] c Hc. specialize (Hf c Hc).
  unfold clause_ok in Hf. rewrite andb_true_iff, existsb_exists in Hf.
  destruct Hf as [_ (l & Hl & Hh)]. exists l. split; [assumption|].
  now apply lit_holds_true.
Qed.

Lemma is_model_range (m : list Z) (f : cnf) (c : clause) (l : Z) :
  is_model m f = true -> In c f -> In l c -> 1 <= Z.abs l <= len m.
Proof.
  unfold is_model. rewrite andb_true_iff, forallb_forall.
  intros [_ Hf] Hc Hl. specialize (Hf c Hc).
  unfold clause_ok in Hf. rewrite andb_true_iff, forallb_forall in Hf.
  destruct Hf as [Hr _]. specialize (Hr l Hl).
  unfold lit_in_range in Hr. rewrite andb_true_iff, negb_true_iff in Hr.
  destruct Hr as [H0 Hle]. apply Z.eqb_neq in H0. apply Z.leb_le in Hle. lia.
Qed.

Lemma is_model_incl (m : list Z) (f g : cnf) :
  incl g f -> is_model m f = true -> is_model m g = true.
Proof.
  unfold is_model. rewrite !andb_true_iff, !forallb_forall.
  intros Hi [Hs Hf]. split; [assumption|]. intros c Hc. apply Hf, Hi, Hc.
Qed.

Lemma model_of_lookup (v : Z -> bool) (n : Z) (k : nat) :
  (k < Z.to_nat n)%nat ->
  model_of v n !! k =
  Some (if v (Z.of_nat (S k)) then Z.of_nat (S k) else - Z.of_nat (S k)).
Proof.
  intros Hk. unfold model_of. rewrite list_lookup_fmap.
  assert (E : range 1 (n + 1) !! k = Some (Z.of_nat (S k))).
  { rewrite lookup_range by lia. f_equal. lia. }
  fold (fmap (M := list) (fun i => if v i then i else - i)).
  now rewrite E.
Qed.

Lemma length_model_of (v : Z -> bool) (n : Z) : len (model_of v n) = Z.max 0 n.
Proof. unfold len, model_of. rewrite length_map, length_range. lia. Qed.

Lemma model_of_shape (v : Z -> bool) (n : Z) : model_shape (model_of v n) = true.
Proof.
  unfold model_shape. apply forallb_forall. intros [k x] Hin. cbn.
  apply Z.eqb_eq.
  destruct (In_nth _ _ (0%nat, 0) Hin) as (i & Hi & E).
  rewrite length_combine, length_seq, Nat.min_id in Hi.
  rewrite combine_nth, seq_nth in E by (now rewrite ?length_seq).
  injection E as <- <-. cbn [Nat.add].
  pose proof (length_model_of v n) as HL. unfold len in HL.
  assert (Hk : (i < Z.to_nat n)%nat) by lia.
  pose proof (model_of_lookup v n i Hk) as E.
  apply (nth_lookup_Some _ _ 0) in E. rewrite E.
  destruct (v (Z.of_nat (S i))); lia.
Qed.

Lemma lit_holds_model_of (v : Z -> bool) (n l : Z) :
  1 <= Z.abs l <= n -> lit_true v l = true -> lit_holds (model_of v n) l = true.
Proof.
  intros H Ht. unfold lit_holds.
  destruct (Z.eqb_spec l 0); [lia|]. cbn.
  rewrite model_of_lookup by lia.
  replace (Z.of_nat (S (Z.to_nat (Z.abs l - 1)))) with (Z.abs l) by lia.
  unfold lit_true in Ht. destruct (Z.ltb_spec 0 l).
  - replace (Z.abs l) with l by lia. rewrite Ht. apply Z.eqb_refl.
  - replace (Z.abs l) with (- l) by lia. apply negb_true_iff in Ht.
    rewrite Ht. apply Z.eqb_eq. lia.
Qed.

Lemma model_of_is_model (v : Z -> bool) (n : Z) (f : cnf) :
  cnf_sat v f ->
  (forall c l, In c f -> In l c -> 1 <= Z.abs l <= n) ->
  is_model (model_of v n) f = true.
Proof.
  intros Hsat Hr. unfold is_model. rewrite model_of_shape. cbn.
  apply forallb_forall. intros c Hc. unfold clause_ok.
  apply andb_true_iff. split.
  - apply forallb_forall. intros l Hl. specialize (Hr c l Hc Hl).
    unfold lit_in_range. rewrite length_model_of.
    apply andb_true_iff. split.
    + apply negb_true_iff, Z.eqb_neq. lia.
    + apply Z.leb_le. lia.
  - apply existsb_exists. destruct (Hsat c Hc) as (l & Hl & Ht).
    exists l. split; [assumption|].
    apply lit_holds_model_of; [now apply (Hr c)|assumption].
Qed.

Lemma lit_true_pos (v : Z -> bool) (l : Z) : 0 < l -> lit_true v l = v l.
Proof. intros H. unfold lit_true. now destruct (Z.ltb_spec 0 l); [|lia]. Qed.

Lemma lit_true_neg (v : Z -> bool) (l : Z) : 0 < l -> lit_true v (- l) = negb (v l).
Proof.
  intros H. unfold lit_true. destruct (Z.ltb_spec 0 (- l)); [lia|].
  now rewrite Z.opp_involutive.
Qed.

Lemma cnf_sat_app (v : Z -> bool) (f g : cnf) :
  cnf_sat v (f ++ g) <-> cnf_sat v f /\ cnf_sat v g.
Proof.
  unfold cnf_sat. split.
  - intros H. split; intros c Hc; apply H, in_app_iff; auto.
  - intros [Hf Hg] c Hc. apply in_app_iff in Hc. destruct Hc; auto.
Qed.

Lemma cnf_sat_incl (v : Z -> bool) (f g : cnf) :
  incl g f -> cnf_sat v f -> cnf_sat v g.
Proof. intros Hi Hf c Hc. apply Hf, Hi, Hc. Qed.

Lemma nth_map_range (f : Z -> Z) (a b : Z) (k : nat) :
  (k < Z.to_nat (b - a))%nat -> nth k (map f (range a b)) 0 = f (a + Z.of_nat k).
Proof.
  intros H. rewrite (nth_indep _ 0 (f 0)) by (now rewrite length_map, length_range).
  now rewrite map_nth, nth_range.
Qed.

Lemma in_pairwise_neg (k : Z) (cl : clause) (i j : Z) :
  0 <= i < j -> j < k ->
  In [- nth (Z.to_nat i) cl 0; - nth (Z.to_nat j) cl 0] (pairwise_neg k cl).
Proof.
  intros Hi Hj. unfold pairwise_neg. apply in_flat_map.
  exists i. split; [apply in_range; lia|].
  apply in_map_iff. exists j. split; [reflexivity|apply in_range; lia].
Qed.

(** Under the pairwise exclusions over positive literals, two true entries
    of the clause are the same entry. *)
Lemma pairwise_neg_unique (v : Z -> bool) (k : Z) (cl : clause) (i j : Z) :
  cnf_sat v (pairwise_neg k cl) ->
  (forall a, 0 <= a < k -> 0 < nth (Z.to_nat a) cl 0) ->
  0 <= i < k -> 0 <= j < k ->
  v (nth (Z.to_nat i) cl 0) = true -> v (nth (Z.to_nat j) cl 0) = true ->
  i = j.
Proof.
  intros Hsat Hpos Hi Hj Vi Vj.
  assert (Hlt : forall a b, 0 <= a < b -> b < k ->
            v (nth (Z.to_nat a) cl 0) = true ->
            v (nth (Z.to_nat b) cl 0) = true -> False).
  { intros a b Ha Hb Va Vb.
    destruct (Hsat _ (in_pairwise_neg k cl a b Ha Hb)) as (l & Hl & Ht).
    destruct Hl as [<-|[<-|[]]]; rewrite lit_true_neg in Ht by (apply Hpos; lia);
      [rewrite Va in Ht|rewrite Vb in Ht]; discriminate. }
  destruct (Z.lt_trichotomy i j) as [H|[H|H]]; [|assumption|].
  - exfalso. apply (Hlt i j); auto; lia.
  - exfalso. apply (Hlt j i); auto; lia.
Qed.

(** A list of [n] entries in which every value of [1..n] occurs is a
    permutation of [1..n]. *)
Lemma covering_perm (n : Z) (l : list Z) :
  len l = n -> (forall v, 1 <= v <= n -> In v l) ->
  Permutation (range 1 (n + 1)) l.
Proof.
  intros Hlen Hcov. apply NoDup_Permutation_bis.
  - apply NoDup_range.
  - rewrite length_range. unfold len in Hlen. lia.
  - intros v Hv. apply in_range in Hv. apply Hcov. lia.
Qed.

Lemma covering_once (n : Z) (l : list Z) :
  len l = n -> (forall v, 1 <= v <= n -> In v l) ->
  forall v, 1 <= v <= n -> count_occ Z.eq_dec l v = 1%nat.
Proof.
  intros Hlen Hcov v Hv.
  rewrite <- (proj1 (Permutation_count_occ Z.eq_dec _ _)
                    (covering_perm n l Hlen Hcov) v).
  apply NoDup_count_occ'; [apply NoDup_range|apply in_range; lia].
Qed.

(** ** Question1: the clauses of the Sudoku encoding *)

Section SudokuClauses.

Import Sudoku.

Variable n : Z.
Hypothesis n_pos : 0 <= n.

Lemma prop_pos (r c num : Z) : 0 <= r -> 0 <= c -> 1 <= num -> 1 <= prop n r c num.
Proof. intros. unfold prop. nia. Qed.

Lemma prop_le (r c num : Z) :
  0 <= r < n -> 0 <= c < n -> 1 <= num <= n -> prop n r c num <= n * n * n.
Proof. intros. unfold prop. nia. Qed.

Lemma prop_inj (r c num r' c' num' : Z) :
  0 <= r < n -> 0 <= c < n -> 1 <= num <= n ->
  0 <= r' < n -> 0 <= c' < n -> 1 <= num' <= n ->
  prop n r c num = prop n r' c' num' -> r = r' /\ c = c' /\ num = num'.
Proof.
  unfold prop. intros Hr Hc Hv Hr' Hc' Hv' E.
  assert (Ea : r * n + c = r' * n + c') by nia.
  assert (r = r') by nia. subst r'. lia.
Qed.

Lemma prop_onto (i : Z) :
  1 <= i <= n * n * n ->
  exists r c num, 0 <= r < n /\ 0 <= c < n /\ 1 <= num <= n /\ prop n r c num = i.
Proof.
  intros Hi. assert (Hn : 0 < n) by nia.
  exists ((i - 1) / n / n), (((i - 1) / n) mod n), ((i - 1) mod n + 1).
  pose proof (Z.mod_pos_bound (i - 1) n Hn).
  pose proof (Z.mod_pos_bound ((i - 1) / n) n Hn).
  pose proof (Z.div_mod (i - 1) n ltac:(lia)) as E1.
  pose proof (Z.div_mod ((i - 1) / n) n ltac:(lia)) as E2.
  assert (0 <= (i - 1) / n) by (apply Z.div_pos; lia).
  assert (0 <= (i - 1) / n / n) by (apply Z.div_pos; lia).
  assert ((i - 1) / n < n * n) by (apply Z.div_lt_upper_bound; nia).
  assert ((i - 1) / n / n < n) by (apply Z.div_lt_upper_bound; nia).
  unfold prop. repeat split; try lia.
Qed.

Lemma nth_cell_clause (r c k : Z) :
  0 <= k < n -> nth (Z.to_nat k) (cell_clause n r c) 0 = prop n r c (k + 1).
Proof.
  intros H. unfold cell_clause. rewrite nth_map_range by lia. f_equal. lia.
Qed.

Lemma in_cell_clauses (r c : Z) :
  0 <= r < n -> 0 <= c < n ->
  incl (cell_clause n r c :: pairwise_neg n (cell_clause n r c)) (cell_clauses n).
Proof.
  intros Hr Hc cl Hcl. unfold cell_clauses. apply in_flat_map.
  exists r. split; [now apply in_range|]. apply in_flat_map.
  exists c. split; [now apply in_range|assumption].
Qed.

Variable v : Z -> bool.

(** Lines 35-36: some value is true at every cell. *)
Lemma cell_some (r c : Z) :
  cnf_sat v (cell_clauses n) -> 0 <= r < n -> 0 <= c < n ->
  exists num, 1 <= num <= n /\ v (prop n r c num) = true.
Proof.
  intros Hsat Hr Hc.
  destruct (Hsat (cell_clause n r c)) as (l & Hl & Ht).
  { apply (in_cell_clauses r c Hr Hc). now left. }
  unfold cell_clause in Hl. apply in_map_iff in Hl.
  destruct Hl as (num & <- & Hnum). apply in_range in Hnum.
  exists num. split; [lia|].
  rewrite lit_true_pos in Ht; [assumption|].
  pose proof (prop_pos r c num). lia.
Qed.

(** Lines 38-40: no two values are true at one cell. *)
Lemma cell_unique (r c a b : Z) :
  cnf_sat v (cell_clauses n) -> 0 <= r < n -> 0 <= c < n ->
  1 <= a <= n -> 1 <= b <= n ->
  v (prop n r c a) = true -> v (prop n r c b) = true -> a = b.
Proof.
  intros Hsat Hr Hc Ha Hb Va Vb.
  assert (Hp : cnf_sat v (pairwise_neg n (cell_clause n r c))).
  { eapply cnf_sat_incl; [|exact Hsat].
    intros cl Hcl. apply (in_cell_clauses r c Hr Hc). now right. }
  assert (E : a - 1 = b - 1); [|lia].
  apply (pairwise_neg_unique v n (cell_clause n r c)); try lia; try assumption.
  - intros k Hk. rewrite nth_cell_clause by lia.
    pose proof (prop_pos r c (k + 1)). lia.
  - rewrite nth_cell_clause by lia. now replace (a - 1 + 1) with a by lia.
  - rewrite nth_cell_clause by lia. now replace (b - 1 + 1) with b by lia.
Qed.

(** Lines 43-46: every value is true somewhere in every row. *)
Lemma row_some (r num : Z) :
  cnf_sat v (row_clauses n) -> 0 <= r < n -> 1 <= num <= n ->
  exists c, 0 <= c < n /\ v (prop n r c num) = true.
Proof.
  intros Hsat Hr Hnum.
  destruct (Hsat (map (fun c => prop n r c num) (range 0 n))) as (l & Hl & Ht).
  { unfold row_clauses. apply in_flat_map. exists r.
    split; [now apply in_range|]. apply in_map_iff.
    exists num. split; [reflexivity|apply in_range; lia]. }
  apply in_map_iff in Hl. destruct Hl as (c & <- & Hc). apply in_range in Hc.
  exists c. split; [lia|].
  rewrite lit_true_pos in Ht; [assumption|].
  pose proof (prop_pos r c num). lia.
Qed.

(** Lines 49-52: every value is true somewhere in every column. *)
Lemma col_some (c num : Z) :
  cnf_sat v (col_clauses n) -> 0 <= c < n -> 1 <= num <= n ->
  exists r, 0 <= r < n /\ v (prop n r c num) = true.
Proof.
  intros Hsat Hc Hnum.
  destruct (Hsat (map (fun r => prop n r c num) (range 0 n))) as (l & Hl & Ht).
  { unfold col_clauses. apply in_flat_map. exists c.
    split; [now apply in_range|]. apply in_map_iff.
    exists num. split; [reflexivity|apply in_range; lia]. }
  apply in_map_iff in Hl. destruct Hl as (r & <- & Hr). apply in_range in Hr.
  exists r. split; [lia|].
  rewrite lit_true_pos in Ht; [assumption|].
  pose proof (prop_pos r c num). lia.
Qed.

(** Lines 58-61: a true literal of a subgrid clause is a cell of the
    subgrid. *)
Lemma subgrid_some (s br bc num : Z) :
  clause_sat v (subgrid_clause n s br bc num) ->
  0 <= br -> 0 <= bc -> 1 <= num ->
  exists r c, br <= r < br + s /\ bc <= c < bc + s /\ v (prop n r c num) = true.
Proof.
  intros (l & Hl & Ht) Hbr Hbc Hnum.
  unfold subgrid_clause in Hl. apply in_flat_map in Hl.
  destruct Hl as (r & Hr & Hl). apply in_map_iff in Hl.
  destruct Hl as (c & <- & Hc). apply in_range in Hr, Hc.
  exists r, c. repeat split; try lia.
  rewrite lit_true_pos in Ht; [assumption|].
  pose proof (prop_pos r c num). lia.
Qed.

End SudokuClauses.

(** ** Question1: the grid in the heap *)

Section SudokuHeap.

Import Sudoku.

Lemma snapshot_row (h : heap) (grid : list loc) (r : Z) :
  0 <= r < len grid ->
  nth (Z.to_nat r) (snapshot h grid) [] = default [] (h !! nth (Z.to_nat r) grid 0%nat).
Proof.
  intros Hr. unfold snapshot, len in *.
  rewrite (nth_indep _ [] (default [] (h !! 0%nat))) by (rewrite length_map; lia).
  now rewrite (map_nth (fun l => default [] (h !! l))).
Qed.

Lemma square_grid_row (h : heap) (grid : list loc) (n r : Z) :
  square_grid h grid n -> 0 <= r < n ->
  exists row, h !! nth (Z.to_nat r) grid 0%nat = Some row /\ len row = n.
Proof.
  intros (Hlen & _ & Hrows) Hr. apply Hrows, nth_In. unfold len in Hlen. lia.
Qed.

Lemma get_cell_square (h : heap) (grid : list loc) (n r c : Z) :
  square_grid h grid n -> 0 <= r < n -> 0 <= c < n ->
  get_cell h grid r c = Ok (cell_of (snapshot h grid) r c).
Proof.
  intros Hsq Hr Hc. pose proof Hsq as (Hlen & _ & _).
  destruct (square_grid_row h grid n r Hsq Hr) as (row & Hrow & Hlr).
  unfold get_cell, cell_of. rewrite (py_get_in grid r 0%nat) by lia. cbn.
  rewrite snapshot_row by lia. rewrite Hrow. cbn.
  apply py_get_in. lia.
Qed.

Lemma set_cell_square (h : heap) (grid : list loc) (n r c x : Z) :
  square_grid h grid n -> 0 <= r < n -> 0 <= c < n ->
  exists h', set_cell grid r c x h = (h', Ok tt) /\ square_grid h' grid n /\
    forall r' c', 0 <= r' < n -> 0 <= c' < n ->
      cell_of (snapshot h' grid) r' c' =
      if (r' =? r) && (c' =? c) then x else cell_of (snapshot h grid) r' c'.
Proof.
  intros Hsq Hr Hc. pose proof Hsq as (Hlen & Hnd & Hrows).
  destruct (square_grid_row h grid n r Hsq Hr) as (row & Hrow & Hlr).
  unfold set_cell. rewrite (py_get_in grid r 0%nat) by lia. rewrite Hrow.
  unfold len in Hlr, Hlen. rewrite py_index_in by lia.
  eexists. split; [reflexivity|]. split.
  - split; [assumption|]. split; [assumption|]. intros l Hl.
    destruct (decide (nth (Z.to_nat r) grid 0%nat = l)) as [<-|Hne].
    + rewrite lookup_insert_eq. eexists. split; [reflexivity|].
      unfold len. rewrite length_insert. lia.
    + rewrite lookup_insert_ne by assumption. now apply Hrows.
  - intros r' c' Hr' Hc'. unfold cell_of. rewrite !snapshot_row by (unfold len; lia).
    destruct (Z.eqb_spec r' r) as [->|Hne]; cbn.
    + rewrite lookup_insert_eq, Hrow. cbn.
      destruct (Z.eqb_spec c' c) as [->|Hnc].
      * apply nth_lookup_Some. apply list_lookup_insert_eq. lia.
      * rewrite !nth_lookup. rewrite list_lookup_insert_ne by lia. reflexivity.
    + rewrite lookup_insert_ne; [reflexivity|].
      intros E. apply Hne.
      apply (proj1 (NoDup_nth grid 0%nat) Hnd) in E; lia.
Qed.

Lemma scan_values_find (n : Z) (m : list Z) (r c : Z) (nums : list Z) :
  (forall num, In num nums -> 1 <= prop n r c num <= len m) ->
  scan_values n m r c nums
  = Ok (find (fun num => var_true m (prop n r c num)) nums).
Proof.
  induction nums as [|num nums IH]; intros H; cbn; [reflexivity|].
  assert (Hn : 1 <= prop n r c num <= len m) by (apply H; now left).
  destruct (lookup_lt_is_Some_2 m (Z.to_nat (prop n r c num - 1))) as [x E].
  { unfold len in Hn. lia. }
  rewrite (py_get_lookup m (prop n r c num - 1) x) by (lia || assumption). cbn.
  unfold var_true at 1. rewrite E.
  destruct (0 <? x); [reflexivity|].
  apply IH. intros k Hk. apply H. now right.
Qed.

Lemma for_M_app {A} (xs ys : list A) (body : A -> M unit) (h : heap) :
  for_M (xs ++ ys) body h =
  match for_M xs body h with
  | (h1, Ok _) => for_M ys body h1
  | (h1, Raise e) => (h1, Raise e)
  end.
Proof.
  revert h. induction xs as [|x xs IH]; intros h; cbn; [reflexivity|].
  destruct (body x h) as [h1 [[]|e]]; [apply IH|reflexivity].
Qed.

Lemma for_M_map {A B} (g : B -> A) (ys : list B) (body : A -> M unit) (h : heap) :
  for_M (map g ys) body h = for_M ys (fun y => body (g y)) h.
Proof.
  revert h. induction ys as [|y ys IH]; intros h; cbn; [reflexivity|].
  destruct (body (g y) h) as [h1 [[]|e]]; [apply IH|reflexivity].
Qed.

(** A nested loop is one loop over the pairs of indices, in order. *)
Lemma for_M_nested {A B} (xs : list A) (ys : list B) (body : A -> B -> M unit)
      (h : heap) :
  for_M xs (fun x => for_M ys (body x)) h
  = for_M (flat_map (fun x => map (pair x) ys) xs)
          (fun p => body (fst p) (snd p)) h.
Proof.
  revert h. induction xs as [|x xs IH]; intros h; cbn [for_M flat_map];
    [reflexivity|].
  rewrite for_M_app, for_M_map. cbn [fst snd].
  destruct (for_M ys (fun y => body x y) h) as [h1 [[]|e]] eqn:E.
  - replace (for_M ys (body x) h) with (h1, Ok tt : result unit). apply IH.
  - replace (for_M ys (body x) h) with (h1, Raise e : result unit). reflexivity.
Qed.

(** A loop whose body keeps an invariant indexed by the items done. *)
Lemma for_M_invariant {A} (I : list A -> heap -> Prop) (body : A -> M unit)
      (xs : list A) :
  (forall done x h, In x xs -> I done h ->
     exists h', body x h = (h', Ok tt) /\ I (done ++ [x]) h') ->
  forall done h, I done h ->
  exists h', for_M xs body h = (h', Ok tt) /\ I (done ++ xs) h'.
Proof.
  induction xs as [|x xs IH]; intros Hbody done h HI; cbn.
  - exists h. now rewrite app_nil_r.
  - destruct (Hbody done x h) as (h1 & E & HI1); [now left|assumption|].
    rewrite E.
    destruct (IH (fun d y h0 Hy => Hbody d y h0 (or_intror Hy)) (done ++ [x]) h1 HI1)
      as (h' & E' & HI').
    exists h'. split; [assumption|]. now rewrite <- app_assoc in HI'.
Qed.

End SudokuHeap.

Section SudokuDecode.

Import Sudoku.

Variable n : Z.
Variable m : list Z.
Variable grid : list loc.

Let mem (p : Z * Z) (done : list (Z * Z)) : bool :=
  existsb (fun q => (fst q =? fst p) && (snd q =? snd p)) done.

Lemma decode_cell_spec (h0 h : heap) (done : list (Z * Z)) (r0 c0 : Z) :
  n * n * n <= len m -> 0 <= r0 < n -> 0 <= c0 < n ->
  square_grid h grid n /\
  (forall r c, 0 <= r < n -> 0 <= c < n ->
     cell_of (snapshot h grid) r c =
     if mem (r, c) done then decoded n m (snapshot h0 grid) r c
     else cell_of (snapshot h0 grid) r c) ->
  exists h', decode_cell n m grid r0 c0 h = (h', Ok tt) /\
    square_grid h' grid n /\
    (forall r c, 0 <= r < n -> 0 <= c < n ->
       cell_of (snapshot h' grid) r c =
       if mem (r, c) (done ++ [(r0, c0)]) then decoded n m (snapshot h0 grid) r c
       else cell_of (snapshot h0 grid) r c).
Proof.
  intros Hlen Hr0 Hc0 [Hsq Hinv]. unfold decode_cell.
  rewrite scan_values_find.
  2:{ intros num Hnum. apply in_range in Hnum.
      pose proof (prop_pos n ltac:(lia) r0 c0 num).
      pose proof (prop_le n ltac:(lia) r0 c0 num). lia. }
  fold (cell_value n m r0 c0).
  assert (Hmem : forall r c, mem (r, c) (done ++ [(r0, c0)])
                 = mem (r, c) done || ((r0 =? r) && (c0 =? c))).
  { intros r c. unfold mem. rewrite existsb_app. cbn. now rewrite orb_false_r. }
  destruct (cell_value n m r0 c0) as [num|] eqn:E.
  - destruct (set_cell_square h grid n r0 c0 num Hsq Hr0 Hc0) as (h' & Es & Hsq' & Hrd).
    exists h'. split; [assumption|]. split; [assumption|].
    intros r c Hr Hc. rewrite Hrd, Hmem, Hinv by assumption.
    destruct (Z.eqb_spec r r0) as [->|Hne], (Z.eqb_spec c c0) as [->|Hnc]; cbn;
      rewrite ?Z.eqb_refl; cbn.
    + rewrite orb_true_r. unfold decoded. now rewrite E.
    + destruct (Z.eqb_spec c0 c); [lia|]. now rewrite orb_false_r.
    + destruct (Z.eqb_spec r0 r); [lia|]. now rewrite orb_false_r.
    + destruct (Z.eqb_spec r0 r); [lia|]. now rewrite orb_false_r.
  - exists h. split; [reflexivity|]. split; [assumption|].
    intros r c Hr Hc. rewrite Hmem, Hinv by assumption.
    destruct (mem (r, c) done); cbn; [reflexivity|].
    destruct (Z.eqb_spec r0 r) as [->|Hne], (Z.eqb_spec c0 c) as [->|Hnc]; cbn;
      try reflexivity.
    unfold decoded. now rewrite E.
Qed.

(** Lines 75-80 on a square grid and a model that covers the variables:
    the loop ends normally and leaves [decoded] in every cell. *)
Lemma decode_grid_spec (h : heap) :
  square_grid h grid n -> n * n * n <= len m ->
  exists h', decode_grid n m grid h = (h', Ok tt) /\
    square_grid h' grid n /\
    forall r c, 0 <= r < n -> 0 <= c < n ->
      cell_of (snapshot h' grid) r c = decoded n m (snapshot h grid) r c.
Proof.
  intros Hsq Hlen. unfold decode_grid. rewrite for_M_nested.
  pose (I := fun (done : list (Z * Z)) (h1 : heap) =>
    square_grid h1 grid n /\
    (forall r c, 0 <= r < n -> 0 <= c < n ->
       cell_of (snapshot h1 grid) r c =
       if mem (r, c) done then decoded n m (snapshot h grid) r c
       else cell_of (snapshot h grid) r c)).
  destruct (for_M_invariant I
              (fun p => decode_cell n m grid (fst p) (snd p))
              (flat_map (fun x => map (pair x) (range 0 n)) (range 0 n)))
    with (done := @nil (Z * Z)) (h := h) as (h' & E & Hsq' & Hfin).
  - intros done [r0 c0] h1 Hin HI. cbn [fst snd].
    apply in_flat_map in Hin. destruct Hin as (x & Hx & Hin).
    apply in_map_iff in Hin. destruct Hin as (y & Exy & Hy).
    injection Exy as -> ->. apply in_range in Hx, Hy.
    apply (decode_cell_spec h h1 done r0 c0 Hlen Hx Hy HI).
  - split; [assumption|]. intros r c _ _. reflexivity.
  - exists h'. split; [assumption|]. split; [assumption|].
    intros r c Hr Hc. rewrite Hfin by assumption. cbn [app].
    replace (mem (r, c) _) with true; [reflexivity|].
    symmetry. unfold mem. apply existsb_exists. exists (r, c). split.
    + apply in_flat_map. exists r. split; [now apply in_range|].
      apply in_map_iff. exists c. split; [reflexivity|now apply in_range].
    + cbn. now rewrite !Z.eqb_refl.
Qed.

End SudokuDecode.

(** ** Question1: the clause list of a square grid *)

Section SudokuCnf.

Import Sudoku.

Lemma range_step_square (s : Z) :
  0 < s -> range_step 0 (s * s) s = Ok (map (fun i => s * i) (range 0 s)).
Proof.
  intros Hs. unfold range_step.
  destruct (Z.eqb_spec s 0); [lia|]. destruct (Z.ltb_spec 0 s); [|lia].
  replace ((s * s - 0 + s - 1) / s) with s.
  - f_equal. unfold range. rewrite map_map. rewrite Z.sub_0_r.
    apply map_ext. intros i. lia.
  - apply Z.div_unique with (s - 1); lia.
Qed.

(** The blocks of an [s*s] grid, in the pure form of lines 55-61. *)
Lemma subgrid_clauses_square (s : Z) :
  0 < s ->
  subgrid_clauses (s * s) s =
  Ok (flat_map (fun br => flat_map (fun bc =>
        map (fun num => subgrid_clause (s * s) s br bc num) (range 1 (s * s + 1)))
        (map (fun i => s * i) (range 0 s))) (map (fun i => s * i) (range 0 s))).
Proof.
  intros Hs. unfold subgrid_clauses. rewrite range_step_square by assumption.
  cbn [rbind]. apply for_ok. intros br _. cbn [rbind].
  apply for_ok. intros bc _. reflexivity.
Qed.

Lemma given_clauses_square (h : heap) (grid : list loc) (n : Z) :
  square_grid h grid n ->
  given_clauses n h grid =
  Ok (flat_map (fun r => flat_map (fun c =>
        let x := cell_of (snapshot h grid) r c in
        if x =? 0 then [] else [[prop n r c x]])
        (range 0 n)) (range 0 n)).
Proof.
  intros Hsq. unfold given_clauses. apply for_ok. intros r Hr.
  apply for_ok. intros c Hc. apply in_range in Hr, Hc.
  rewrite (get_cell_square h grid n) by assumption. cbn.
  now destruct (_ =? 0).
Qed.

(** On an n-by-n grid with [n = s*s] the encoder raises nothing, and its
    clause list has the five parts of lines 33-67. *)
Lemma sudoku_cnf_square (h : heap) (grid : list loc) (s : Z) :
  0 < s -> square_grid h grid (s * s) ->
  exists subs given,
    sudoku_cnf h grid =
      Ok (cell_clauses (s * s) ++ row_clauses (s * s) ++ col_clauses (s * s)
          ++ subs ++ given) /\
    (forall br bc num, 0 <= br < s -> 0 <= bc < s -> 1 <= num <= s * s ->
       In (subgrid_clause (s * s) s (s * br) (s * bc) num) subs) /\
    (forall r c, 0 <= r < s * s -> 0 <= c < s * s ->
       cell_of (snapshot h grid) r c <> 0 ->
       In [prop (s * s) r c (cell_of (snapshot h grid) r c)] given).
Proof.
  intros Hs Hsq. pose proof Hsq as (Hlen & _ & _).
  unfold sudoku_cnf. rewrite Hlen. unfold int_sqrt.
  rewrite Z.sqrt_square by lia.
  rewrite subgrid_clauses_square by assumption.
  rewrite (given_clauses_square h grid (s * s) Hsq). cbn [rbind].
  eexists _, _. split; [reflexivity|]. split.
  - intros br bc num Hbr Hbc Hnum.
    apply in_flat_map. exists (s * br). split.
    { apply in_map_iff. exists br. split; [reflexivity|now apply in_range]. }
    apply in_flat_map. exists (s * bc). split.
    { apply in_map_iff. exists bc. split; [reflexivity|now apply in_range]. }
    apply in_map_iff. exists num. split; [reflexivity|apply in_range; lia].
  - intros r c Hr Hc Hx.
    apply in_flat_map. exists r. split; [now apply in_range|].
    apply in_flat_map. exists c. split; [now apply in_range|].
    cbn. destruct (Z.eqb_spec (cell_of (snapshot h grid) r c) 0); [contradiction|].
    now left.
Qed.

End SudokuCnf.

(** ** Question1: what a model says about the decoded grid *)

Section SudokuModel.

Import Sudoku.

Variable n : Z.
Variable m : list Z.
Hypothesis n_pos : 0 <= n.
Hypothesis cells_sat : cnf_sat (var_true m) (cell_clauses n).

(** The decoding loop reads the one value the model gives the cell. *)
Lemma decoded_value (before : list (list Z)) (r c x : Z) :
  0 <= r < n -> 0 <= c < n -> 1 <= x <= n ->
  var_true m (prop n r c x) = true -> decoded n m before r c = x.
Proof.
  intros Hr Hc Hx Hv. unfold decoded, cell_value.
  destruct (find _ _) as [num|] eqn:E.
  - apply find_some in E. destruct E as [Hnum Hnv]. apply in_range in Hnum.
    apply (cell_unique n n_pos (var_true m) r c num x); auto; lia.
  - apply find_none with (x := x) in E; [congruence|apply in_range; lia].
Qed.

End SudokuModel.

Lemma length_flat_map_const {A B} (f : A -> list B) (l : list A) (k : nat) :
  (forall x, In x l -> length (f x) = k) -> length (flat_map f l) = (length l * k)%nat.
Proof.
  induction l as [|a l IH]; intros H; cbn; [reflexivity|].
  rewrite length_app, (H a) by now left.
  rewrite IH by (intros x Hx; apply H; now right). reflexivity.
Qed.


(** ** The solver boundary: when building the solver raises *)

Lemma has_zero_false (f : cnf) :
  has_zero f = false <-> forall c l, In c f -> In l c -> l <> 0.
Proof.
  unfold has_zero. split.
  - intros H c l Hc Hl ->.
    enough (existsb (existsb (Z.eqb 0)) f = true) by congruence.
    apply existsb_exists. exists c. split; [assumption|].
    apply existsb_exists. exists 0. now split.
  - intros H. destruct (existsb (existsb (Z.eqb 0)) f) eqn:E; [exfalso|reflexivity].
    apply existsb_exists in E. destruct E as (c & Hc & E).
    apply existsb_exists in E. destruct E as (l & Hl & E).
    apply Z.eqb_eq in E. now apply (H c l).
Qed.

Lemma has_zero_true (f : cnf) :
  has_zero f = true <-> exists c, In c f /\ In 0 c.
Proof.
  unfold has_zero. split.
  - intros E. apply existsb_exists in E. destruct E as (c & Hc & E).
    apply existsb_exists in E. destruct E as (l & Hl & E).
    apply Z.eqb_eq in E. subst l. now exists c.
  - intros (c & Hc & Hl). apply existsb_exists. exists c. split; [assumption|].
    apply existsb_exists. exists 0. now split.
Qed.

(** A clause list that has a model has no literal 0. *)
Lemma is_model_no_zero (m : list Z) (f : cnf) :
  is_model m f = true -> has_zero f = false.
Proof.
  intros Hm. apply has_zero_false. intros c l Hc Hl ->.
  pose proof (is_model_range m f c 0 Hm Hc Hl). lia.
Qed.

Lemma solver_answer_ok (oracle : cnf -> option (list Z)) (f : cnf) :
  has_zero f = false -> solver_answer oracle f = Ok (oracle f).
Proof. intros H. unfold solver_answer. now rewrite H. Qed.

Lemma solver_answer_zero (oracle : cnf -> option (list Z)) (f : cnf) :
  has_zero f = true -> solver_answer oracle f = Raise ValueError.
Proof. intros H. unfold solver_answer. now rewrite H. Qed.

Lemma solver_answer_inv (oracle : cnf -> option (list Z)) (f : cnf)
      (a : option (list Z)) :
  solver_answer oracle f = Ok a -> has_zero f = false /\ oracle f = a.
Proof. unfold solver_answer. destruct (has_zero f); [discriminate|]. now intros [= <-]. Qed.

Lemma solver_answer_model (oracle : cnf -> option (list Z)) (f : cnf) (m : list Z) :
  oracle f = Some m -> is_model m f = true -> solver_answer oracle f = Ok (Some m).
Proof.
  intros Ho Hm. rewrite solver_answer_ok, Ho; [reflexivity|].
  now apply (is_model_no_zero m).
Qed.

Section SudokuResults.

Import Sudoku.

Variable oracle : cnf -> option (list Z).

(** A model of the clause list covers every variable of the grid. *)
Lemma model_covers_grid (n : Z) (m : list Z) :
  0 < n -> is_model m (cell_clauses n) = true -> n * n * n <= len m.
Proof.
  intros Hn Hm.
  pose proof (is_model_range m (cell_clauses n) (cell_clause n (n - 1) (n - 1))
                (prop n (n - 1) (n - 1) n) Hm) as H.
  assert (E : prop n (n - 1) (n - 1) n = n * n * n) by (unfold prop; ring).
  rewrite E in H. assert (0 < n * n * n) by nia.
  enough (1 <= Z.abs (n * n * n) <= len m) by lia. apply H.
  - apply (in_cell_clauses n (n - 1) (n - 1)); [lia|lia|now left].
  - unfold cell_clause. apply in_map_iff. exists n.
    split; [exact E|apply in_range; lia].
Qed.

(** What [solve_sudoku] does on a square grid when the solver answers with
    a model that covers the variables: it returns the argument, with
    [decoded] written into every cell. *)
Lemma solve_sudoku_sat (h : heap) (grid : list loc) (n : Z) (f : cnf) (m : list Z) :
  square_grid h grid n -> sudoku_cnf h grid = Ok f ->
  solver_answer oracle f = Ok (Some m) ->
  n * n * n <= len m ->
  exists h', solve_sudoku oracle grid h = (h', Ok grid) /\
    square_grid h' grid n /\
    forall r c, 0 <= r < n -> 0 <= c < n ->
      cell_of (snapshot h' grid) r c = decoded n m (snapshot h grid) r c.
Proof.
  intros Hsq Hf Ho Hlen. pose proof Hsq as (Hl & _ & _).
  destruct (decode_grid_spec n m grid h Hsq Hlen) as (h' & E & Hsq' & Hcells).
  exists h'. split; [|now split].
  unfold solve_sudoku. rewrite Hf, Ho, Hl, E. reflexivity.
Qed.

Lemma solve_sudoku_unsat (h : heap) (grid : list loc) (f : cnf) :
  sudoku_cnf h grid = Ok f -> solver_answer oracle f = Ok None ->
  solve_sudoku oracle grid h = (h, Ok grid).
Proof. intros Hf Ho. unfold solve_sudoku. now rewrite Hf, Ho. Qed.

End SudokuResults.

(** ** Question1: the stated properties of [solve_sudoku] *)

Section SudokuSolution.

Import Sudoku.

Lemma covered_each_once (n : Z) (l : list Z) :
  len l = n -> (forall x, 1 <= x <= n -> In x l) -> each_once n l.
Proof. intros Hl Hc x Hx. now apply (covering_once n). Qed.

(** C1, as stated, fails: a grid is a list of row objects, and nothing makes
    them distinct.  On the blank 4-by-4 grid whose four rows are one list
    object, with the model that lists a valid solution, every row is written
    into the same list and the returned grid has four equal rows. *)
Lemma solve_sudoku_aliased_rows :
  ~ (forall (oracle : cnf -> option (list Z)) (h : heap) (grid : list loc) (s : Z)
            (f : cnf) (m : list Z),
       0 <= s -> len grid = s * s ->
       (forall l, In l grid -> exists row, h !! l = Some row /\ len row = s * s) ->
       sudoku_cnf h grid = Ok f -> oracle f = Some m -> is_model m f = true ->
       exists h', solve_sudoku oracle grid h = (h', Ok grid) /\
                  valid_solution (snapshot h' grid) s).
Proof.
  intros H.
  destruct (H (fun _ => Some Examples.model4) (fst Examples.aliased4)
              (snd Examples.aliased4) 2
              (match sudoku_cnf (fst Examples.aliased4) (snd Examples.aliased4) with
               | Ok f => f
               | Raise _ => []
               end) Examples.model4) as (h' & E & (_ & Hcols & _)).
  - lia.
  - reflexivity.
  - intros l Hl. cbn in Hl.
    repeat (destruct Hl as [<-|Hl]; [eexists; split; vm_compute; reflexivity|]).
    contradiction.
  - vm_compute. reflexivity.
  - reflexivity.
  - vm_compute. reflexivity.
  - assert (Eh : h' = fst (solve_sudoku (fun _ => Some Examples.model4)
                             (snd Examples.aliased4) (fst Examples.aliased4)))
      by now rewrite E.
    subst h'. specialize (Hcols 0 ltac:(lia) 4 ltac:(lia)).
    vm_compute in Hcols. discriminate Hcols.
Qed.

(** C1, amended.  On an n-by-n grid with [n = s*s] whose rows are n distinct
    list objects, whenever the solver answers the clause list of
    [solve_sudoku] with a model of it, [solve_sudoku] returns the grid with
    every value of [1..n] exactly once in every row, every column and every
    s-by-s subgrid, although only at-least-one clauses are emitted for rows,
    columns and subgrids.  (On the empty grid the encoder raises, so there is
    no clause list.) *)
Theorem solve_sudoku_each_value_once
    (oracle : cnf -> option (list Z)) (h : heap) (grid : list loc) (s : Z)
    (f : cnf) (m : list Z) :
  0 <= s -> square_grid h grid (s * s) ->
  sudoku_cnf h grid = Ok f -> oracle f = Some m -> is_model m f = true ->
  exists h', solve_sudoku oracle grid h = (h', Ok grid) /\
             valid_solution (snapshot h' grid) s.
Proof.
  intros Hs0 Hsq Hf Ho Hm.
  assert (Hs : 0 < s).
  { destruct (Z.eq_dec s 0) as [->|]; [|lia]. exfalso.
    destruct Hsq as (Hlen & _ & _). unfold sudoku_cnf in Hf.
    rewrite Hlen in Hf. discriminate Hf. }
  destruct (sudoku_cnf_square h grid s Hs Hsq) as (subs & given & Ef & Hsubs & _).
  rewrite Ef in Hf. injection Hf as <-.
  assert (Hn : 0 < s * s) by nia.
  pose proof (is_model_sat _ _ Hm) as Hsat.
  apply cnf_sat_app in Hsat. destruct Hsat as [Hcells Hsat].
  apply cnf_sat_app in Hsat. destruct Hsat as [Hrows Hsat].
  apply cnf_sat_app in Hsat. destruct Hsat as [Hcols Hsat].
  apply cnf_sat_app in Hsat. destruct Hsat as [Hsub _].
  assert (Hlen : s * s * (s * s) * (s * s) <= len m).
  { apply model_covers_grid; [assumption|].
    eapply is_model_incl; [|exact Hm]. intros c Hc. apply in_app_iff. now left. }
  destruct (solve_sudoku_sat oracle h grid (s * s) _ m Hsq Ef
              (solver_answer_model oracle _ m Ho Hm) Hlen)
    as (h' & E & _ & Hcell).
  exists h'. split; [assumption|].
  assert (Hdec : forall r c x, 0 <= r < s * s -> 0 <= c < s * s -> 1 <= x <= s * s ->
            var_true m (prop (s * s) r c x) = true ->
            cell_of (snapshot h' grid) r c = x).
  { intros r c x Hr Hc Hx Hv. rewrite Hcell by assumption.
    apply (decoded_value (s * s) m ltac:(lia) Hcells); auto; lia. }
  repeat split.
  - intros r Hr. apply covered_each_once.
    + unfold row_cells, len. rewrite length_map, length_range. lia.
    + intros x Hx.
      destruct (row_some (s * s) ltac:(lia) (var_true m) r x Hrows Hr Hx)
        as (c & Hc & Hv).
      unfold row_cells. apply in_map_iff. exists c.
      split; [now apply Hdec|now apply in_range].
  - intros c Hc. apply covered_each_once.
    + unfold col_cells, len. rewrite length_map, length_range. lia.
    + intros x Hx.
      destruct (col_some (s * s) ltac:(lia) (var_true m) c x Hcols Hc Hx)
        as (r & Hr & Hv).
      unfold col_cells. apply in_map_iff. exists r.
      split; [now apply Hdec|now apply in_range].
  - intros br bc Hbr Hbc. apply covered_each_once.
    + unfold subgrid_cells, len.
      rewrite (length_flat_map_const _ _ (Z.to_nat s)).
      * rewrite length_range. nia.
      * intros r _. rewrite length_map, length_range. lia.
    + intros x Hx.
      destruct (subgrid_some (s * s) ltac:(lia) (var_true m) s (s * br) (s * bc) x)
        as (r & c & Hr & Hc & Hv); try lia; try nia.
      { apply Hsub, Hsubs; assumption. }
      unfold subgrid_cells. apply in_flat_map. exists r.
      split; [now apply in_range|]. apply in_map_iff. exists c.
      split; [apply Hdec; (assumption || nia)|now apply in_range].
Qed.

End SudokuSolution.

Section SudokuExamples.

Import Sudoku Examples.

Ltac square_alloc :=
  split; [reflexivity|]; split;
  [ repeat constructor; cbn; intuition discriminate
  | intros l Hl; cbn in Hl;
    repeat (destruct Hl as [<-|Hl]; [eexists; split; vm_compute; reflexivity|]);
    contradiction ].

Lemma square_puzzle4 :
  square_grid (fst (alloc puzzle4)) (snd (alloc puzzle4)) (2 * 2).
Proof. square_alloc. Qed.

Lemma square_clash4 :
  square_grid (fst (alloc clash4)) (snd (alloc clash4)) (2 * 2).
Proof. square_alloc. Qed.

(** C1 on the 4-by-4 puzzle and the model of its solution. *)
Lemma solve_sudoku_each_value_once_witness :
  exists h',
    solve_sudoku (fun _ => Some model4) (snd (alloc puzzle4)) (fst (alloc puzzle4))
    = (h', Ok (snd (alloc puzzle4))) /\
    valid_solution (snapshot h' (snd (alloc puzzle4))) 2.
Proof.
  apply (solve_sudoku_each_value_once (fun _ => Some model4)
           (fst (alloc puzzle4)) (snd (alloc puzzle4)) 2 cnf4 model4).
  - lia.
  - exact square_puzzle4.
  - vm_compute. reflexivity.
  - reflexivity.
  - vm_compute. reflexivity.
Defined.

End SudokuExamples.

Section SudokuUnsat.

Import Sudoku Examples.







End SudokuUnsat.

(** ** Question2: the variable numbering *)

Lemma div_add_small (q b r : Z) : 0 <= r < b -> (q * b + r) / b = q.
Proof.
  intros H. rewrite Z.div_add_l by lia. rewrite Z.div_small by lia. lia.
Qed.

Lemma mod_add_small (q b r : Z) : 0 <= r < b -> (q * b + r) mod b = r.
Proof.
  intros H. rewrite Z.add_comm, Z.mod_add by lia. apply Z.mod_small. lia.
Qed.

Section Numbering.

Import Sokoban.

Variable e : SokobanEncoder.
Hypothesis dims : dims_ok e.

Lemma cell_offset (x y : Z) :
  on_grid e x y -> 0 <= x * M e + y < N e * M e.
Proof. unfold on_grid. intros. nia. Qed.

(** The range of each family, in the order goal, player, move, box. *)
Lemma id_range (f : fact) :
  in_bounds e f ->
  match f with
  | Goal _ _ => 1 <= id_of e f <= N e * M e
  | Player _ _ _ => N e * M e + 1 <= id_of e f <= (T e + 1) * (N e * M e)
  | Move _ _ =>
      (T e + 1) * (N e * M e) + 1 <= id_of e f <= (T e + 1) * (N e * M e) + 9 * T e
  | Box _ _ _ _ =>
      (T e + 1) * (N e * M e) + 9 * T e + 1 <= id_of e f <= total_var_count e
  end.
Proof.
  destruct dims as (HN & HM & HT & HB).
  destruct f as [x y|x y t|num t|b x y t]; cbn [in_bounds id_of];
    unfold id_goal, id_player, id_move, id_box, total_var_count.
  - intros H. pose proof (cell_offset x y H). lia.
  - intros [H Ht]. pose proof (cell_offset x y H).
    assert (0 <= t * (N e * M e)) by nia.
    assert ((t + 1) * (N e * M e) <= T e * (N e * M e)) by nia.
    lia.
  - intros [Hn Ht]. lia.
  - intros (Hb & H & Ht). pose proof (cell_offset x y H).
    assert (0 <= (b - 1) * (N e * M e)) by nia.
    assert (0 <= t * (num_boxes e * (N e * M e))) by nia.
    assert (b * (N e * M e) <= num_boxes e * (N e * M e)) by nia.
    assert ((t + 1) * (num_boxes e * (N e * M e))
            <= T e * (num_boxes e * (N e * M e))) by nia.
    lia.
Qed.

Lemma id_pos (f : fact) : in_bounds e f -> 1 <= id_of e f <= total_var_count e.
Proof.
  destruct dims as (HN & HM & HT & HB).
  intros H. pose proof (id_range f H) as R.
  assert (0 <= N e * M e) by nia.
  assert (0 <= T e * (N e * M e)) by nia.
  assert (0 <= num_boxes e * T e * (N e * M e)) by nia.
  unfold total_var_count in *.
  destruct f; lia.
Qed.

(** [fact_of] inverts the numbering on the facts in bounds. *)
Lemma fact_of_id (f : fact) : in_bounds e f -> fact_of e (id_of e f) = Some f.
Proof.
  destruct dims as (HN & HM & HT & HB).
  intros H. pose proof (id_range f H) as R. unfold fact_of.
  destruct f as [x y|x y t|num t|b x y t]; cbn [in_bounds id_of] in *.
  - pose proof (cell_offset x y H) as Hc. destruct H as [Hx Hy].
    destruct (Z.ltb_spec (id_goal e x y) 1); [lia|].
    destruct (Z.leb_spec (id_goal e x y) (N e * M e)); [|lia].
    unfold id_goal. replace (x * M e + y + 1 - 1) with (x * M e + y) by lia.
    now rewrite div_add_small, mod_add_small by lia.
  - destruct H as [Hg Ht]. pose proof (cell_offset x y Hg) as Hc.
    destruct Hg as [Hx Hy].
    destruct (Z.ltb_spec (id_player e x y t) 1); [lia|].
    destruct (Z.leb_spec (id_player e x y t) (N e * M e)); [lia|].
    destruct (Z.leb_spec (id_player e x y t) ((T e + 1) * (N e * M e))); [|lia].
    unfold id_player.
    replace ((t + 1) * M e * N e + x * M e + y + 1 - 1 - N e * M e)
      with (t * (N e * M e) + (x * M e + y)) by ring.
    rewrite div_add_small, mod_add_small by lia.
    now rewrite div_add_small, mod_add_small by lia.
  - destruct H as [Hn Ht].
    assert (0 <= N e * M e) by nia.
    assert (0 <= T e * (N e * M e)) by nia.
    destruct (Z.ltb_spec (id_move e num t) 1); [lia|].
    destruct (Z.leb_spec (id_move e num t) (N e * M e)); [lia|].
    destruct (Z.leb_spec (id_move e num t) ((T e + 1) * (N e * M e))); [lia|].
    destruct (Z.leb_spec (id_move e num t) ((T e + 1) * (N e * M e) + 9 * T e)); [|lia].
    unfold id_move.
    replace ((T e + 1) * M e * N e + 9 * t + num - 1 - (T e + 1) * (N e * M e))
      with (t * 9 + (num - 1)) by ring.
    rewrite div_add_small, mod_add_small by lia. f_equal. f_equal. lia.
  - destruct H as (Hb & Hg & Ht). pose proof (cell_offset x y Hg) as Hc.
    destruct Hg as [Hx Hy].
    assert (0 <= N e * M e) by nia.
    assert (0 <= T e * (N e * M e)) by nia.
    destruct (Z.ltb_spec (id_box e b x y t) 1); [lia|].
    destruct (Z.leb_spec (id_box e b x y t) (N e * M e)); [lia|].
    destruct (Z.leb_spec (id_box e b x y t) ((T e + 1) * (N e * M e))); [lia|].
    destruct (Z.leb_spec (id_box e b x y t) ((T e + 1) * (N e * M e) + 9 * T e)); [lia|].
    destruct (Z.leb_spec (id_box e b x y t) (total_var_count e)); [|lia].
    unfold id_box.
    replace ((1 + T e) * N e * M e + 9 * T e + num_boxes e * t * N e * M e
             + (b - 1) * N e * M e + x * M e + y + 1 - 1
             - (T e + 1) * (N e * M e) - 9 * T e)
      with (t * (num_boxes e * (N e * M e))
            + ((b - 1) * (N e * M e) + (x * M e + y))) by ring.
    assert ((b - 1) * (N e * M e) + (x * M e + y) < num_boxes e * (N e * M e)) by nia.
    assert (0 <= (b - 1) * (N e * M e)) by nia.
    rewrite div_add_small, mod_add_small by lia.
    rewrite div_add_small, mod_add_small by lia.
    rewrite div_add_small, mod_add_small by lia.
    f_equal. f_equal. lia.
Qed.

(** Every number of [1..total_var_count] is the number of a fact in
    bounds. *)
Lemma fact_of_some (v : Z) :
  1 <= v <= total_var_count e ->
  exists f, fact_of e v = Some f /\ in_bounds e f /\ id_of e f = v.
Proof.
  destruct dims as (HN & HM & HT & HB).
  intros Hv. unfold fact_of.
  assert (Hnm : 0 <= N e * M e) by nia.
  destruct (Z.ltb_spec v 1); [lia|].
  destruct (Z.leb_spec v (N e * M e)) as [H1|H1].
  { assert (HM' : 0 < M e) by nia.
    eexists. split; [reflexivity|]. cbn [in_bounds id_of]. unfold on_grid, id_goal.
    pose proof (Z.mod_pos_bound (v - 1) (M e) HM').
    pose proof (Z.div_mod (v - 1) (M e) ltac:(lia)).
    assert (0 <= (v - 1) / M e) by (apply Z.div_pos; lia).
    assert ((v - 1) / M e < N e) by (apply Z.div_lt_upper_bound; nia).
    repeat split; try lia. }
  destruct (Z.leb_spec v ((T e + 1) * (N e * M e))) as [H2|H2].
  { assert (Hnm' : 0 < N e * M e) by nia.
    assert (HM' : 0 < M e) by nia.
    eexists. split; [reflexivity|]. cbn [in_bounds id_of]. unfold on_grid, id_player.
    set (w := v - 1 - N e * M e).
    pose proof (Z.mod_pos_bound w (N e * M e) Hnm').
    pose proof (Z.div_mod w (N e * M e) ltac:(lia)).
    pose proof (Z.mod_pos_bound (w mod (N e * M e)) (M e) HM').
    pose proof (Z.div_mod (w mod (N e * M e)) (M e) ltac:(lia)).
    assert (0 <= w / (N e * M e)) by (apply Z.div_pos; lia).
    assert (w / (N e * M e) < T e) by (apply Z.div_lt_upper_bound; lia).
    assert (0 <= w mod (N e * M e) / M e) by (apply Z.div_pos; lia).
    assert (w mod (N e * M e) / M e < N e) by (apply Z.div_lt_upper_bound; nia).
    repeat split; lia. }
  destruct (Z.leb_spec v ((T e + 1) * (N e * M e) + 9 * T e)) as [H3|H3].
  { eexists. split; [reflexivity|]. cbn [in_bounds id_of]. unfold id_move.
    set (w := v - 1 - (T e + 1) * (N e * M e)).
    pose proof (Z.mod_pos_bound w 9 ltac:(lia)).
    pose proof (Z.div_mod w 9 ltac:(lia)).
    assert (0 <= w / 9) by (apply Z.div_pos; lia).
    assert (w / 9 < T e) by (apply Z.div_lt_upper_bound; lia).
    repeat split; lia. }
  destruct (Z.leb_spec v (total_var_count e)) as [H4|H4]; [|lia].
  unfold total_var_count in H4.
  assert (Hbnm : 0 < num_boxes e * (N e * M e)) by nia.
  assert (Hnm' : 0 < N e * M e) by nia.
  assert (HM' : 0 < M e) by nia.
  eexists. split; [reflexivity|]. cbn [in_bounds id_of]. unfold on_grid, id_box.
  set (w := v - 1 - (T e + 1) * (N e * M e) - 9 * T e).
  set (u := w mod (num_boxes e * (N e * M e))).
  pose proof (Z.mod_pos_bound w (num_boxes e * (N e * M e)) Hbnm). fold u in H0.
  pose proof (Z.div_mod w (num_boxes e * (N e * M e)) ltac:(lia)) as Ew. fold u in Ew.
  pose proof (Z.mod_pos_bound u (N e * M e) Hnm').
  pose proof (Z.div_mod u (N e * M e) ltac:(lia)) as Eu.
  pose proof (Z.mod_pos_bound (u mod (N e * M e)) (M e) HM').
  pose proof (Z.div_mod (u mod (N e * M e)) (M e) ltac:(lia)) as Eu2.
  assert (0 <= w / (num_boxes e * (N e * M e))) by (apply Z.div_pos; lia).
  assert (w / (num_boxes e * (N e * M e)) < T e)
    by (apply Z.div_lt_upper_bound; [lia|]; nia).
  assert (0 <= u / (N e * M e)) by (apply Z.div_pos; lia).
  assert (u / (N e * M e) < num_boxes e) by (apply Z.div_lt_upper_bound; lia).
  assert (0 <= u mod (N e * M e) / M e) by (apply Z.div_pos; lia).
  assert (u mod (N e * M e) / M e < N e) by (apply Z.div_lt_upper_bound; nia).
  repeat split; lia.
Qed.

Lemma fact_of_inv (v : Z) (f : fact) :
  fact_of e v = Some f -> in_bounds e f /\ id_of e f = v.
Proof.
  intros E.
  assert (Hv : 1 <= v <= total_var_count e).
  { unfold fact_of in E.
    destruct (Z.ltb_spec v 1); [discriminate|]. split; [lia|].
    destruct dims as (HN & HM & HT & HB).
    assert (0 <= N e * M e) by nia.
    assert (0 <= T e * (N e * M e)) by nia.
    assert (0 <= num_boxes e * T e * (N e * M e)) by nia.
    unfold total_var_count.
    destruct (Z.leb_spec v (N e * M e)); [lia|].
    destruct (Z.leb_spec v ((T e + 1) * (N e * M e))); [lia|].
    destruct (Z.leb_spec v ((T e + 1) * (N e * M e) + 9 * T e)); [lia|].
    destruct (Z.leb_spec v (total_var_count e)) as [Hle|]; [|discriminate].
    unfold total_var_count in Hle. lia. }
  destruct (fact_of_some v Hv) as (g & Eg & Hg & Hid).
  rewrite E in Eg. injection Eg as ->. now split.
Qed.

(** Two facts in bounds with one number are one fact: each family is
    numbered injectively and no two families share a number. *)
Lemma id_of_inj (f g : fact) :
  in_bounds e f -> in_bounds e g -> id_of e f = id_of e g -> f = g.
Proof.
  intros Hf Hg E. apply fact_of_id in Hf, Hg. rewrite E in Hf. congruence.
Qed.

End Numbering.

(** ** Question2: the assertions of the variable functions *)

Section Assertions.

Import Sokoban.

Variable e : SokobanEncoder.

Lemma var_goal_ok (x y : Z) :
  on_grid e x y -> var_goal e x y = Ok (id_goal e x y).
Proof.
  unfold on_grid, var_goal. intros [Hx Hy].
  destruct (Z.ltb_spec x (N e)), (Z.ltb_spec y (M e)),
    (Z.leb_spec 0 x), (Z.leb_spec 0 y); try lia. reflexivity.
Qed.

Lemma var_player_ok (x y t : Z) :
  on_grid e x y -> 0 <= t < T e -> var_player e x y t = Ok (id_player e x y t).
Proof.
  unfold on_grid, var_player. intros [Hx Hy] Ht.
  destruct (Z.ltb_spec x (N e)), (Z.ltb_spec y (M e)),
    (Z.leb_spec 0 x), (Z.leb_spec 0 y), (Z.leb_spec 0 t), (Z.ltb_spec t (T e));
    try lia. reflexivity.
Qed.

Lemma var_move_ok (num t : Z) :
  1 <= num <= 9 -> 0 <= t < T e -> var_move e num t = Ok (id_move e num t).
Proof.
  unfold var_move. intros Hn Ht.
  destruct (Z.leb_spec 1 num), (Z.leb_spec num 9),
    (Z.leb_spec 0 t), (Z.ltb_spec t (T e)); try lia. reflexivity.
Qed.

Lemma var_box_ok (b x y t : Z) :
  1 <= b <= num_boxes e -> on_grid e x y -> 0 <= t < T e ->
  var_box e b x y t = Ok (id_box e b x y t).
Proof.
  unfold on_grid, var_box. intros Hb [Hx Hy] Ht.
  destruct (Z.leb_spec 1 b), (Z.leb_spec b (num_boxes e)),
    (Z.ltb_spec x (N e)), (Z.ltb_spec y (M e)),
    (Z.leb_spec 0 x), (Z.leb_spec 0 y), (Z.leb_spec 0 t), (Z.ltb_spec t (T e));
    try lia. reflexivity.
Qed.

(** Inside the bounds a variable function returns the number; outside it
    raises [AssertionError]. *)
Lemma var_of_in_bounds (f : fact) :
  in_bounds e f -> var_of e f = Ok (id_of e f).
Proof.
  destruct f; cbn [in_bounds var_of id_of]; intros H.
  - now apply var_goal_ok.
  - now apply var_player_ok.
  - now apply var_move_ok.
  - now apply var_box_ok.
Qed.

Lemma var_of_out_of_bounds (f : fact) :
  ~ in_bounds e f -> var_of e f = Raise AssertionError.
Proof.
  destruct f as [x y|x y t|num t|b x y t]; cbn [in_bounds var_of]; unfold on_grid;
    intros H.
  - unfold var_goal.
    destruct (Z.ltb_spec x (N e)), (Z.ltb_spec y (M e)); cbn; try reflexivity.
    destruct (Z.leb_spec 0 x), (Z.leb_spec 0 y); cbn; try reflexivity. lia.
  - unfold var_player.
    destruct (Z.ltb_spec x (N e)), (Z.ltb_spec y (M e)); cbn; try reflexivity.
    destruct (Z.leb_spec 0 x), (Z.leb_spec 0 y); cbn; try reflexivity.
    destruct (Z.leb_spec 0 t); cbn; try reflexivity.
    destruct (Z.ltb_spec t (T e)); cbn; try reflexivity. lia.
  - unfold var_move.
    destruct (Z.leb_spec 1 num), (Z.leb_spec num 9); cbn; try reflexivity.
    destruct (Z.leb_spec 0 t), (Z.ltb_spec t (T e)); cbn; try reflexivity. lia.
  - unfold var_box.
    destruct (Z.leb_spec 1 b), (Z.leb_spec b (num_boxes e)); cbn; try reflexivity.
    destruct (Z.ltb_spec x (N e)), (Z.ltb_spec y (M e)); cbn; try reflexivity.
    destruct (Z.leb_spec 0 x), (Z.leb_spec 0 y); cbn; try reflexivity.
    destruct (Z.leb_spec 0 t), (Z.ltb_spec t (T e)); cbn; try reflexivity. lia.
Qed.

Lemma in_bounds_dec (f : fact) : in_bounds e f \/ ~ in_bounds e f.
Proof.
  destruct f; cbn [in_bounds]; unfold on_grid; lia.
Qed.

Lemma var_of_ok (f : fact) (v : Z) :
  var_of e f = Ok v <-> in_bounds e f /\ v = id_of e f.
Proof.
  split.
  - intros E. destruct (in_bounds_dec f) as [H|H].
    + rewrite (var_of_in_bounds f H) in E. injection E as <-. now split.
    + rewrite (var_of_out_of_bounds f H) in E. discriminate.
  - intros [H ->]. now apply var_of_in_bounds.
Qed.

Lemma off_grid_false (x y : Z) : off_grid e x y = false <-> on_grid e x y.
Proof.
  unfold off_grid, on_grid.
  destruct (Z.ltb_spec x 0), (Z.ltb_spec y 0), (Z.leb_spec (N e) x),
    (Z.leb_spec (M e) y); cbn; split; intros; try discriminate; try lia;
    reflexivity.
Qed.

End Assertions.

(** ** Question2: parsing *)

Section Parsing.

Import Sokoban.

Lemma for_S_invariant {A S} (I : S -> Prop) (xs : list A)
      (body : A -> S -> result S) :
  (forall x s s', In x xs -> I s -> body x s = Ok s' -> I s') ->
  forall s s', I s -> for_S xs body s = Ok s' -> I s'.
Proof.
  induction xs as [|x xs IH]; intros Hb s s' Hs E; cbn in E.
  - now injection E as <-.
  - destruct (body x s) as [s1|] eqn:E1; [|discriminate]. cbn in E.
    apply (IH (fun y a b Hy => Hb y a b (or_intror Hy)) s1 s'); [|assumption].
    apply (Hb x s s1); auto. now left.
Qed.

Lemma parse_cell_on (g : list (list string)) (n m x y : Z) (s s' : parse_state) :
  0 <= x < n -> 0 <= y < m -> parsed_on n m s ->
  parse_cell g x y s = Ok s' -> parsed_on n m s'.
Proof.
  intros Hx Hy (Hb & Hw & Hp) E. unfold parse_cell in E.
  destruct (py_get g x) as [row|]; [|discriminate]. cbn in E.
  destruct (py_get row y) as [ch|]; [|discriminate]. cbn in E.
  repeat match type of E with
         | (if ?b then _ else _) = _ => destruct b
         end; injection E as <-; unfold parsed_on; cbn; (split; [|split]);
    intros p Hin;
    try (apply in_app_iff in Hin; destruct Hin as [Hin|[<-|[]]]);
    try (injection Hin as <-); cbn; auto; lia.
Qed.

Lemma parse_grid_on (g : list (list string)) (n m : Z) (s s' : parse_state) :
  parsed_on n m s -> _parse_grid g n m s = Ok s' -> parsed_on n m s'.
Proof.
  unfold _parse_grid. apply for_S_invariant. intros x s1 s2 Hx H1.
  apply for_S_invariant; [|assumption]. intros y s3 s4 Hy H3.
  apply in_range in Hx, Hy. now apply parse_cell_on.
Qed.

(** What [__init__] establishes. *)
Lemma init_wf (g : list (list string)) (T0 : Z) (e : SokobanEncoder) :
  __init__ g T0 = Ok e -> wf_encoder e /\ T e = T0 + 1 /\ grid e = g.
Proof.
  unfold __init__. intros E.
  destruct (py_get g 0) as [row0|]; [|discriminate]. cbn in E.
  destruct (_parse_grid _ _ _ _) as [s|] eqn:Ep; [|discriminate]. cbn in E.
  injection E as <-. apply parse_grid_on in Ep.
  - destruct Ep as (Hb & Hw & Hp).
    unfold wf_encoder, on_grid, len; cbn. repeat split; try lia;
      try (apply Hb; assumption); try (apply Hw; assumption);
      try (apply Hp; assumption).
  - unfold parsed_on; cbn. repeat split; try contradiction; discriminate.
Qed.

Lemma wf_dims (e : SokobanEncoder) : wf_encoder e -> 0 <= T e -> dims_ok e.
Proof.
  intros (HN & HM & HB & _) HT. unfold dims_ok, len in *. repeat split; lia.
Qed.

End Parsing.

(** ** Question2: [encode] raises nothing on a parsed grid with a player *)

Lemma flat_map_snd_single {A B C} (f : A -> B) (g : A -> list C) (l : list A) :
  flat_map snd (flat_map (fun x => [(f x, g x)]) l) = flat_map g l.
Proof. induction l; cbn; [reflexivity|]. now rewrite IHl. Qed.

Lemma map_fst_single {A B C} (f : A -> B) (g : A -> list C) (l : list A) :
  map fst (flat_map (fun x => [(f x, g x)]) l) = map f l.
Proof. induction l; cbn; [reflexivity|]. now rewrite IHl. Qed.

Section EncodeOk.

Import Sokoban.

Variable e : SokobanEncoder.
Hypothesis wf : wf_encoder e.
Hypothesis horizon : 1 <= T e.

Ltac bounds := unfold on_grid in *; cbn [fst snd] in *; lia.

Ltac loop x H := apply for_ok; intros x H; apply in_range in H.

Lemma box_on_grid (box : Z) :
  0 <= box < num_boxes e ->
  on_grid e (fst (nth (Z.to_nat box) (boxes e) (0, 0)))
            (snd (nth (Z.to_nat box) (boxes e) (0, 0))).
Proof.
  destruct wf as (_ & _ & HB & Hb & _). intros H. apply Hb, nth_In.
  unfold len in HB. lia.
Qed.

Lemma wall_on_grid (wall : Z) :
  0 <= wall < len (walls e) ->
  on_grid e (fst (nth (Z.to_nat wall) (walls e) (0, 0)))
            (snd (nth (Z.to_nat wall) (walls e) (0, 0))).
Proof.
  destruct wf as (_ & _ & _ & _ & Hw & _). intros H. apply Hw, nth_In.
  unfold len in H. lia.
Qed.

Lemma encode_initial_ok (ps : Z * Z) :
  player_start e = Some ps -> encode_initial e = Ok (initial_clauses e ps).
Proof.
  intros Hps. unfold encode_initial, initial_clauses. rewrite Hps. cbn [rbind].
  assert (Hp : on_grid e (fst ps) (snd ps)).
  { destruct wf as (_ & _ & _ & _ & _ & H). now apply H. }
  rewrite var_player_ok by (assumption || lia). cbn [rbind].
  erewrite for_ok.
  2:{ intros box Hbox. apply in_range in Hbox.
      rewrite (py_get_in (boxes e) box (0, 0)).
      2:{ destruct wf as (_ & _ & HB & _). lia. }
      cbn [rbind]. rewrite var_box_ok by (try apply box_on_grid; lia).
      cbn [rbind]. reflexivity. }
  cbn [rbind]. erewrite for_ok.
  2:{ intros x Hx. apply in_range in Hx. erewrite for_ok.
      2:{ intros y Hy. apply in_range in Hy.
          rewrite var_goal_ok by bounds. cbn [rbind].
          instantiate (1 := fun y => if existsb (pair_eqb (x, y)) (goals e)
                                     then [[id_goal e x y]] else [[- id_goal e x y]]).
          cbn beta. now destruct (existsb _ _). }
      reflexivity. }
  cbn [rbind]. erewrite for_ok.
  2:{ intros wall Hwall. apply in_range in Hwall. erewrite for_ok.
      2:{ intros t Ht. apply in_range in Ht.
          rewrite (py_get_in (walls e) wall (0, 0)) by lia. cbn [rbind].
          rewrite var_player_ok by (try apply wall_on_grid; lia). cbn [rbind].
          erewrite for_ok.
          2:{ intros box Hbox. apply in_range in Hbox.
              rewrite var_box_ok by (try apply wall_on_grid; lia).
              cbn [rbind]. reflexivity. }
          cbn [rbind]. reflexivity. }
      reflexivity. }
  cbn [rbind]. rewrite var_move_ok by lia. cbn [rbind]. reflexivity.
Qed.

Ltac vars :=
  repeat first
    [ rewrite var_move_ok by bounds
    | rewrite var_player_ok by bounds
    | rewrite var_box_ok by bounds
    | rewrite var_goal_ok by bounds
    | progress cbn [rbind] ].

Lemma encode_moves_ok : encode_moves e = Ok (move_clauses e).
Proof.
  unfold encode_moves, move_clauses.
  loop x Hx. loop y Hy. loop move Hm. loop t Ht.
  erewrite for_ok.
  2:{ intros box Hbox. apply in_range in Hbox. vars. reflexivity. }
  cbn [rbind]. cbv zeta.
  destruct (off_grid e _ _) eqn:Eoff.
  - vars. reflexivity.
  - apply off_grid_false in Eoff. vars. reflexivity.
Qed.

Lemma encode_pushes_ok : encode_pushes e = Ok (push_clauses e).
Proof.
  unfold encode_pushes, push_clauses.
  loop x Hx. loop y Hy. loop t Ht. loop move Hm. cbv zeta.
  destruct (off_grid e (fst (step move x y)) (snd (step move x y))) eqn:E1;
    [|destruct (off_grid e (fst (step move (fst (step move x y)) (snd (step move x y))))
                 (snd (step move (fst (step move x y)) (snd (step move x y))))) eqn:E2];
    cbn [orb].
  - vars. reflexivity.
  - vars. reflexivity.
  - apply off_grid_false in E1, E2. vars.
    erewrite for_ok.
    2:{ intros box Hbox. apply in_range in Hbox. vars.
        erewrite for_ok.
        2:{ intros px Hpx. apply in_range in Hpx. erewrite for_ok.
            2:{ intros py Hpy. apply in_range in Hpy.
                instantiate (1 := fun py =>
                  if negb (pair_eqb (px, py) (step move x y)) then
                    [[- id_move e (move + 5) t; - id_player e x y (t - 1);
                      - id_box e (box + 1) px py (t - 1);
                      id_box e (box + 1) px py t]]
                  else []).
                cbn beta. destruct (negb _); [|reflexivity].
                vars. reflexivity. }
            reflexivity. }
        cbn [rbind]. reflexivity. }
    cbn [rbind]. rewrite flat_map_snd_single, map_fst_single. reflexivity.
Qed.

Lemma encode_overlap_ok : encode_overlap e = Ok (overlap_clauses e).
Proof.
  unfold encode_overlap, overlap_clauses.
  loop x Hx. loop y Hy. loop box Hbox. loop t Ht. vars.
  erewrite for_ok.
  2:{ intros boxd Hd. apply in_range in Hd. vars. reflexivity. }
  reflexivity.
Qed.

Lemma encode_goal_ok : encode_goal e = Ok (goal_clauses e).
Proof.
  unfold encode_goal, goal_clauses.
  loop x Hx. loop y Hy. loop box Hbox. vars. reflexivity.
Qed.

Lemma encode_actions_ok : encode_actions e = Ok (action_clauses e).
Proof.
  unfold encode_actions, action_clauses. loop t Ht.
  erewrite for_ok.
  2:{ intros i Hi. apply in_range in Hi. vars. erewrite for_ok.
      2:{ intros j Hj. apply in_range in Hj. vars. reflexivity. }
      cbn [rbind]. reflexivity. }
  cbn [rbind]. rewrite flat_map_snd_single, map_fst_single. reflexivity.
Qed.

Lemma encode_unique_ok : encode_unique e = Ok (unique_clauses e).
Proof.
  unfold encode_unique, unique_clauses. loop t Ht.
  erewrite for_ok.
  2:{ intros x Hx. apply in_range in Hx. erewrite for_ok.
      2:{ intros y Hy. apply in_range in Hy. vars. reflexivity. }
      reflexivity. }
  cbn [rbind]. erewrite for_ok.
  2:{ intros box Hbox. apply in_range in Hbox. erewrite for_ok.
      2:{ intros x Hx. apply in_range in Hx. erewrite for_ok.
          2:{ intros y Hy. apply in_range in Hy. vars. reflexivity. }
          reflexivity. }
      cbn [rbind]. reflexivity. }
  reflexivity.
Qed.

Lemma encode_stay_ok : encode_stay e = Ok (stay_clauses e).
Proof.
  unfold encode_stay, stay_clauses.
  loop t Ht. loop x Hx. loop y Hy.
  erewrite for_ok.
  2:{ intros box Hbox. apply in_range in Hbox. vars. reflexivity. }
  vars. reflexivity.
Qed.

(** The clause list of [encode]. *)
Lemma encode_ok (ps : Z * Z) :
  player_start e = Some ps -> encode e = Ok (encode_clauses e ps).
Proof.
  intros Hps. unfold encode.
  rewrite (encode_initial_ok ps Hps), encode_moves_ok, encode_pushes_ok,
    encode_overlap_ok, encode_goal_ok, encode_actions_ok, encode_unique_ok,
    encode_stay_ok.
  reflexivity.
Qed.

End EncodeOk.

(** ** Question2: the decoder *)

Lemma range_split (a b c : Z) : a <= b <= c -> range a c = range a b ++ range b c.
Proof.
  intros H. remember (Z.to_nat (b - a)) as k eqn:Ek.
  revert a H Ek. induction k as [|k IH]; intros a H Ek.
  - assert (a = b) by lia. subst b. now rewrite (range_nil a a) by lia.
  - rewrite (range_cons a c), (range_cons a b) by lia. cbn. f_equal.
    apply IH; lia.
Qed.

Lemma range_nine (a : Z) :
  range a (a + 9) = [a; a + 1; a + 2; a + 3; a + 4; a + 5; a + 6; a + 7; a + 8].
Proof.
  unfold range. replace (Z.to_nat (a + 9 - a)) with 9%nat by lia. cbn.
  now rewrite Z.add_0_r.
Qed.

Lemma filter_unique {A} (p : A -> bool) (l : list A) (a : A) :
  NoDup l -> In a l -> p a = true ->
  (forall b, In b l -> p b = true -> b = a) -> filter p l = [a].
Proof.
  induction l as [|x l IH]; intros Hnd Ha Hp Hu; [contradiction|].
  inversion Hnd as [|? ? Hx Hnd']; subst. cbn.
  assert (Hnone : forall l', (forall b, In b l' -> p b = true -> False) ->
                    filter p l' = []).
  { induction l' as [|y l' IH']; intros Hf; cbn; [reflexivity|].
    destruct (p y) eqn:Ey; [exfalso; apply (Hf y); auto; now left|].
    apply IH'. intros b Hb. apply (Hf b). now right. }
  destruct Ha as [->|Ha].
  - rewrite Hp. f_equal. apply Hnone. intros b Hb Hpb.
    apply Hx. rewrite <- (Hu b); auto. now right.
  - destruct (p x) eqn:Ex.
    + exfalso. apply Hx. rewrite (Hu x); auto. now left.
    + apply IH; auto. intros b Hb. apply Hu. now right.
Qed.

Lemma flat_map_eq_in {A B} (f g : A -> list B) (l : list A) :
  (forall a, In a l -> f a = g a) -> flat_map f l = flat_map g l.
Proof.
  induction l as [|a l IH]; intros H; cbn; [reflexivity|].
  rewrite (H a) by now left. f_equal. apply IH. intros b Hb. apply H. now right.
Qed.

Section Decoder.

Import Sokoban.

Variable e : SokobanEncoder.
Variable m : list Z.
Hypothesis dims : dims_ok e.

Let base : Z := (T e + 1) * N e * M e.

Lemma base_nonneg : 0 <= base.
Proof. destruct dims as (HN & HM & HT & HB). unfold base. nia. Qed.

(** What the loop body appends at one index. *)
Let pick (index : Z) : list string :=
  if var_true m (index + 1) then
    match (index - base) mod 9 with
    | 0 => ["U"%string] | 1 => ["R"%string] | 2 => ["D"%string]
    | 3 => ["L"%string] | 4 => ["U"%string] | 5 => ["R"%string]
    | 6 => ["D"%string] | 7 => ["L"%string] | _ => []
    end
  else [].

Lemma pick_at (t num : Z) :
  1 <= num <= 9 ->
  pick (base + 9 * t + num - 1)
  = if var_true m (id_move e num t) then symbol num else [].
Proof.
  intros Hn. unfold pick.
  replace (base + 9 * t + num - 1 + 1) with (id_move e num t)
    by (unfold id_move, base; ring).
  replace (base + 9 * t + num - 1 - base) with (t * 9 + (num - 1)) by ring.
  rewrite mod_add_small by lia.
  destruct (var_true m (id_move e num t)); [|reflexivity].
  assert (Hc : num = 1 \/ num = 2 \/ num = 3 \/ num = 4 \/ num = 5 \/ num = 6
               \/ num = 7 \/ num = 8 \/ num = 9) by lia.
  repeat (destruct Hc as [->|Hc]; [reflexivity|]). subst num. reflexivity.
Qed.

Lemma flat_map_filter {A B} (p : A -> bool) (s : A -> list B) (l : list A) :
  flat_map (fun k => if p k then s k else []) l = flat_map s (filter p l).
Proof.
  induction l as [|a l IH]; cbn; [reflexivity|].
  destruct (p a); cbn; now rewrite IH.
Qed.

(** One step of the scan: the nine indices of step [t]. *)
Lemma decode_step (t : Z) :
  flat_map pick (range (base + 9 * t) (base + 9 * t + 9))
  = flat_map symbol (actions_at e m t).
Proof.
  unfold actions_at. rewrite <- flat_map_filter.
  transitivity (flat_map (fun num => pick (base + 9 * t + num - 1)) (range 1 10)).
  - rewrite range_nine. change (range 1 10) with [1; 2; 3; 4; 5; 6; 7; 8; 9].
    cbn [flat_map].
    repeat match goal with
           | |- _ ++ _ = _ ++ _ => f_equal
           end; try reflexivity; f_equal; lia.
  - apply flat_map_eq_in. intros num Hnum. apply in_range in Hnum.
    apply pick_at. lia.
Qed.

(** The decoder on a model that covers the action variables: the symbols of
    the true action variables, step by step and code by code. *)
Lemma decode_actions :
  (0 < T e -> base + 9 * T e <= len m) ->
  decode e m
  = Ok (flat_map (fun t => flat_map symbol (actions_at e m t)) (range 0 (T e))).
Proof.
  intros Hlen. unfold decode. fold base.
  pose proof base_nonneg as Hb.
  rewrite (for_ok _ _ pick).
  - f_equal. destruct dims as (_ & _ & HT & _).
    rewrite <- (Z2Nat.id (T e)) by assumption.
    induction (Z.to_nat (T e)) as [|k IH].
    + cbn. rewrite Z.add_0_r. now rewrite !range_nil by lia.
    + rewrite (range_split base (base + 9 * Z.of_nat k)) by lia.
      rewrite (range_split 0 (Z.of_nat k) (Z.of_nat (S k))) by lia.
      rewrite !flat_map_app, IH. f_equal.
      replace (base + 9 * Z.of_nat (S k)) with (base + 9 * Z.of_nat k + 9) by lia.
      rewrite decode_step.
      rewrite (range_cons (Z.of_nat k)), range_nil by lia.
      cbn. now rewrite app_nil_r.
  - intros index Hi. apply in_range in Hi.
    destruct (lookup_lt_is_Some_2 m (Z.to_nat index)) as [x E].
    { assert (0 < T e) by lia. specialize (Hlen ltac:(assumption)).
      unfold len in Hlen. lia. }
    rewrite (py_get_lookup m index x) by (lia || assumption). cbn [rbind].
    unfold pick, var_true. replace (index + 1 - 1) with index by lia. rewrite E.
    now destruct (0 <? x).
Qed.

End Decoder.

(** ** Question2: one action per step *)

Section Actions.

Import Sokoban.

Variable e : SokobanEncoder.
Variable v : Z -> bool.
Hypothesis dims : dims_ok e.
Hypothesis actions_sat : cnf_sat v (action_clauses e).

Lemma id_move_pos (num t : Z) : 1 <= num -> 0 <= t -> 0 < id_move e num t.
Proof.
  destruct dims as (HN & HM & HT & HB). intros. unfold id_move. nia.
Qed.

Lemma action_some (t : Z) :
  0 <= t < T e -> exists num, 1 <= num <= 9 /\ v (id_move e num t) = true.
Proof.
  intros Ht.
  destruct (actions_sat (map (fun i => id_move e i t) (range 1 10))) as (l & Hl & Hv).
  { unfold action_clauses. apply in_flat_map. exists t.
    split; [now apply in_range|]. apply in_app_iff. right. now left. }
  apply in_map_iff in Hl. destruct Hl as (num & <- & Hnum). apply in_range in Hnum.
  exists num. split; [lia|]. rewrite lit_true_pos in Hv; [assumption|].
  apply id_move_pos; lia.
Qed.

Lemma action_unique (t a b : Z) :
  0 <= t < T e -> 1 <= a <= 9 -> 1 <= b <= 9 ->
  v (id_move e a t) = true -> v (id_move e b t) = true -> a = b.
Proof.
  intros Ht Ha Hb Va Vb.
  assert (Hlt : forall i j, 1 <= i < j -> j <= 9 ->
            v (id_move e i t) = true -> v (id_move e j t) = true -> False).
  { intros i j Hi Hj Vi Vj.
    destruct (actions_sat [- id_move e i t; - id_move e j t]) as (l & Hl & Hv).
    { unfold action_clauses. apply in_flat_map. exists t.
      split; [now apply in_range|]. apply in_app_iff. left.
      apply in_flat_map. exists i. split; [apply in_range; lia|].
      apply in_flat_map. exists j. split; [apply in_range; lia|now left]. }
    destruct Hl as [<-|[<-|[]]];
      rewrite lit_true_neg in Hv by (apply id_move_pos; lia);
      [rewrite Vi in Hv|rewrite Vj in Hv]; discriminate. }
  destruct (Z.lt_trichotomy a b) as [H|[H|H]]; [|assumption|].
  - exfalso. apply (Hlt a b); auto; lia.
  - exfalso. apply (Hlt b a); auto; lia.
Qed.

End Actions.

Section DecodePlan.

Import Sokoban.

(** The clauses the decoder relies on are among those [encode] emits. *)
Lemma encode_has_action_clauses (e : SokobanEncoder) (ps : Z * Z) :
  incl (action_clauses e ++ [[id_move e 9 0]]) (encode_clauses e ps).
Proof.
  intros c Hc. apply in_app_iff in Hc. unfold encode_clauses, initial_clauses.
  destruct Hc as [Hc|[<-|[]]].
  - rewrite !in_app_iff. auto 10.
  - apply in_app_iff. left. right. rewrite !in_app_iff.
    right. right. right. now left.
Qed.

(** C6.  On a model of the exactly-one-action clauses and of the forced stay
    at [t = 0], each step has one true action code, the code of step 0 is
    the stay code, and [decode] returns, in increasing time order over the
    steps [1..T], the direction symbol of each step's code: U, R, D, L for
    the moves 1-4 and again for the pushes 5-8, and nothing for the stay
    code 9. *)
Theorem decode_reads_plan
    (g : list (list string)) (T0 : Z) (e : SokobanEncoder) (m : list Z) :
  __init__ g T0 = Ok e -> 0 <= T0 ->
  is_model m (action_clauses e ++ [[id_move e 9 0]]) = true ->
  (forall t, 0 <= t <= T0 ->
     1 <= action_at e m t <= 9 /\
     forall num, 1 <= num <= 9 ->
       (var_true m (id_move e num t) = true <-> num = action_at e m t)) /\
  action_at e m 0 = 9 /\
  decode e m = Ok (flat_map (fun t => symbol (action_at e m t)) (range 1 (T0 + 1))).
Proof.
  intros Hinit HT0 Hm.
  destruct (init_wf g T0 e Hinit) as (Hwf & HT & _).
  assert (dims : dims_ok e) by (apply wf_dims; [assumption|lia]).
  pose proof (is_model_sat _ _ Hm) as Hsat.
  apply cnf_sat_app in Hsat. destruct Hsat as [Hact Hstay].
  assert (Hone : forall t, 0 <= t <= T0 ->
            exists a, 1 <= a <= 9 /\ var_true m (id_move e a t) = true /\
                      actions_at e m t = [a]).
  { intros t Ht.
    destruct (action_some e (var_true m) dims Hact t ltac:(lia)) as (a & Ha & Va).
    exists a. split; [assumption|]. split; [assumption|].
    apply filter_unique; [apply NoDup_range|apply in_range; lia|assumption|].
    intros b Hb Vb. apply in_range in Hb.
    apply (action_unique e (var_true m) dims Hact t b a); auto; lia. }
  assert (Hat : forall t, 0 <= t <= T0 ->
            1 <= action_at e m t <= 9 /\
            var_true m (id_move e (action_at e m t) t) = true /\
            actions_at e m t = [action_at e m t]).
  { intros t Ht. destruct (Hone t Ht) as (a & Ha & Va & Ea).
    unfold action_at. rewrite Ea. cbn. auto. }
  assert (H0 : action_at e m 0 = 9).
  { destruct (Hat 0 ltac:(lia)) as (Ha & Va & _).
    destruct (Hstay [id_move e 9 0]) as (l & Hl & Hv); [now left|].
    destruct Hl as [<-|[]].
    rewrite lit_true_pos in Hv by (apply id_move_pos; (assumption || lia)).
    apply (action_unique e (var_true m) dims Hact 0); auto; lia. }
  split; [|split; [exact H0|]].
  - intros t Ht. destruct (Hat t Ht) as (Ha & Va & _). split; [assumption|].
    intros num Hnum. split.
    + intros Vn. apply (action_unique e (var_true m) dims Hact t); auto; lia.
    + now intros ->.
  - rewrite decode_actions; [|assumption|].
    + f_equal. rewrite HT, (range_cons 0) by lia. cbn [flat_map].
      destruct (Hat 0 ltac:(lia)) as (_ & _ & E0). rewrite E0, H0. cbn [flat_map app symbol].
      apply flat_map_eq_in. intros t Ht. apply in_range in Ht.
      destruct (Hat t ltac:(lia)) as (_ & _ & Et). rewrite Et. cbn.
      apply app_nil_r.
    + intros _.
      pose proof (is_model_range m _ (map (fun i => id_move e i (T e - 1)) (range 1 10))
                    (id_move e 9 (T e - 1)) Hm) as Hr.
      assert (Hpos : 0 < id_move e 9 (T e - 1)) by (apply id_move_pos; (assumption || lia)).
      assert (E : id_move e 9 (T e - 1) = (T e + 1) * N e * M e + 9 * T e)
        by (unfold id_move; ring).
      rewrite <- E. enough (1 <= Z.abs (id_move e 9 (T e - 1)) <= len m) by lia.
      apply Hr.
      * apply in_app_iff. left. unfold action_clauses. apply in_flat_map.
        exists (T e - 1). split; [apply in_range; lia|].
        apply in_app_iff. right. now left.
      * apply in_map_iff. exists 9. split; [reflexivity|apply in_range; lia].
Qed.

End DecodePlan.

(** ** Question2: exactly one cell per box and step *)

Lemma pairwise_neg_excl (v : Z -> bool) (cl : clause) (a b : Z) :
  cnf_sat v (pairwise_neg (len cl) cl) -> (forall l, In l cl -> 0 < l) ->
  In a cl -> In b cl -> a <> b -> v a = true -> v b = true -> False.
Proof.
  intros Hsat Hpos Ha Hb Hne Va Vb.
  destruct (In_nth cl a 0 Ha) as (i & Hi & Ei).
  destruct (In_nth cl b 0 Hb) as (j & Hj & Ej).
  assert (E : Z.of_nat i = Z.of_nat j).
  { apply (pairwise_neg_unique v (len cl) cl); unfold len; try lia; try assumption.
    - intros k Hk. apply Hpos, nth_In. lia.
    - now rewrite Nat2Z.id, Ei.
    - now rewrite Nat2Z.id, Ej. }
  apply Hne. rewrite <- Ei, <- Ej. f_equal. lia.
Qed.

Ltac grid_lia :=
  cbn [Sokoban.in_bounds Sokoban.id_of] in *; unfold Sokoban.on_grid in *;
  cbn [fst snd] in *; lia.

Section Unique.

Import Sokoban.

Variable e : SokobanEncoder.
Variable v : Z -> bool.
Hypothesis dims : dims_ok e.
Hypothesis unique_sat : cnf_sat v (unique_clauses e).

Lemma in_box_cells (box x y t : Z) :
  on_grid e x y -> In (id_box e (box + 1) x y t) (box_cells e box t).
Proof.
  intros [Hx Hy]. unfold box_cells. apply in_flat_map.
  exists x. split; [now apply in_range|]. apply in_flat_map.
  exists y. split; [now apply in_range|now left].
Qed.

Lemma box_cells_inv (box t l : Z) :
  In l (box_cells e box t) ->
  exists x y, on_grid e x y /\ l = id_box e (box + 1) x y t.
Proof.
  unfold box_cells. intros H. apply in_flat_map in H.
  destruct H as (x & Hx & H). apply in_flat_map in H.
  destruct H as (y & Hy & [<-|[]]). apply in_range in Hx, Hy.
  exists x, y. now split.
Qed.

Lemma in_unique_box (box t : Z) :
  0 <= box < num_boxes e -> 0 <= t < T e ->
  incl (box_cells e box t :: pairwise_neg (len (box_cells e box t)) (box_cells e box t))
       (unique_clauses e).
Proof.
  intros Hb Ht c Hc. unfold unique_clauses. apply in_flat_map.
  exists t. split; [now apply in_range|]. right. apply in_app_iff. right.
  apply in_flat_map. exists box. split; [now apply in_range|assumption].
Qed.

Lemma in_unique_player (t : Z) :
  0 <= t < T e ->
  incl (player_cells e t :: pairwise_neg (len (player_cells e t)) (player_cells e t))
       (unique_clauses e).
Proof.
  intros Ht c Hc. unfold unique_clauses. apply in_flat_map.
  exists t. split; [now apply in_range|].
  destruct Hc as [<-|Hc]; [now left|]. right. apply in_app_iff. now left.
Qed.

(** Lines 219-221: a box is on at most one cell at a step. *)
Lemma box_at_most_one (box t x y x' y' : Z) :
  0 <= box < num_boxes e -> 0 <= t < T e ->
  on_grid e x y -> on_grid e x' y' ->
  v (id_box e (box + 1) x y t) = true -> v (id_box e (box + 1) x' y' t) = true ->
  x = x' /\ y = y'.
Proof.
  intros Hb Ht Hg Hg' V V'.
  destruct (Z.eq_dec (id_box e (box + 1) x y t) (id_box e (box + 1) x' y' t)) as [E|Hne].
  - assert (Ef : Box (box + 1) x y t = Box (box + 1) x' y' t).
    { apply (id_of_inj e dims); try exact E; grid_lia. }
    now injection Ef.
  - exfalso.
    apply (pairwise_neg_excl v (box_cells e box t) _ _) with (5 := Hne); auto.
    + eapply cnf_sat_incl; [|exact unique_sat].
      intros c Hc. apply (in_unique_box box t Hb Ht). now right.
    + intros l Hl. apply box_cells_inv in Hl. destruct Hl as (a & b & Hab & ->).
      pose proof (id_pos e dims (Box (box + 1) a b t)) as Hp.
      cbn [id_of] in Hp. enough (1 <= id_box e (box + 1) a b t) by lia.
      apply Hp. grid_lia.
    + now apply in_box_cells.
    + now apply in_box_cells.
Qed.

End Unique.

Section PushFrame.

Import Sokoban.

Lemma pair_eqb_eq (p q : Z * Z) : pair_eqb p q = true <-> p = q.
Proof.
  unfold pair_eqb. destruct p as [a b], q as [c d]. cbn.
  rewrite andb_true_iff, !Z.eqb_eq. split; [intros [-> ->]|intros [= -> ->]]; auto.
Qed.

(** The push clauses of one box are among the clauses [encode] emits. *)
Lemma in_push_clauses (e : SokobanEncoder) (x y t move box : Z) :
  on_grid e x y -> 1 <= t < T e -> 0 <= move < 4 -> 0 <= box < num_boxes e ->
  on_grid e (fst (step move x y)) (snd (step move x y)) ->
  on_grid e (fst (step move (fst (step move x y)) (snd (step move x y))))
            (snd (step move (fst (step move x y)) (snd (step move x y)))) ->
  incl (push_follow e x y t move box :: push_moved e x y t move box
        :: push_frame e x y t move box) (push_clauses e).
Proof.
  intros [Hx Hy] Ht Hm Hb H1 H2 c Hc. unfold push_clauses.
  apply in_flat_map. exists x. split; [now apply in_range|].
  apply in_flat_map. exists y. split; [now apply in_range|].
  apply in_flat_map. exists t. split; [now apply in_range|].
  apply in_flat_map. exists move. split; [now apply in_range|].
  cbv zeta. apply off_grid_false in H1, H2. rewrite H1, H2. cbn [orb].
  apply in_app_iff. left. apply in_flat_map. exists box.
  split; [now apply in_range|]. exact Hc.
Qed.

(** C3.  Under the per-step uniqueness clauses, when a push is taken at step
    [t] from the player's cell and box [b] is on the cell ahead at [t-1], the
    guard literal of every frame clause of [b] (box [b] on another cell at
    [t-1]) is false.  So the frame clauses of [b] hold whatever [b] does at
    [t], and together with the moved clause they ask exactly that [b] is on
    the cell beyond at [t]; an assignment that satisfies them has [b] on the
    cell beyond and on no other cell at [t].  The box is not asked both to
    move and to stay. *)
Theorem pushed_box_frame_guards_false
    (g : list (list string)) (T0 : Z) (e : SokobanEncoder) (v : Z -> bool)
    (x y t move box : Z) :
  __init__ g T0 = Ok e -> 0 <= T0 ->
  cnf_sat v (unique_clauses e) ->
  on_grid e x y -> 1 <= t <= T0 -> 0 <= move < 4 -> 0 <= box < num_boxes e ->
  on_grid e (fst (step move x y)) (snd (step move x y)) ->
  on_grid e (fst (step move (fst (step move x y)) (snd (step move x y))))
            (snd (step move (fst (step move x y)) (snd (step move x y)))) ->
  v (id_move e (move + 5) t) = true ->
  v (id_player e x y (t - 1)) = true ->
  v (id_box e (box + 1) (fst (step move x y)) (snd (step move x y)) (t - 1)) = true ->
  (forall px py, on_grid e px py -> (px, py) <> step move x y ->
     v (id_box e (box + 1) px py (t - 1)) = false) /\
  cnf_sat v (push_frame e x y t move box) /\
  (cnf_sat v (push_moved e x y t move box :: push_frame e x y t move box) <->
   v (id_box e (box + 1)
        (fst (step move (fst (step move x y)) (snd (step move x y))))
        (snd (step move (fst (step move x y)) (snd (step move x y)))) t) = true) /\
  (cnf_sat v (push_moved e x y t move box :: push_frame e x y t move box) ->
   forall px py, on_grid e px py -> v (id_box e (box + 1) px py t) = true ->
     (px, py) = step move (fst (step move x y)) (snd (step move x y))).
Proof.
  intros Hinit HT0 Huniq Hg Ht Hm Hb Hnew Hbeyond Vm Vp Vb.
  destruct (init_wf g T0 e Hinit) as (Hwf & HT & _).
  assert (dims : dims_ok e) by (apply wf_dims; [assumption|lia]).
  assert (Hguard : forall px py, on_grid e px py -> (px, py) <> step move x y ->
            v (id_box e (box + 1) px py (t - 1)) = false).
  { intros px py Hp Hne.
    destruct (v (id_box e (box + 1) px py (t - 1))) eqn:E; [|reflexivity].
    exfalso. apply Hne.
    destruct (box_at_most_one e v dims Huniq box (t - 1) px py
                (fst (step move x y)) (snd (step move x y))) as [-> ->];
      auto; try lia.
    now destruct (step move x y). }
  assert (Hframe : cnf_sat v (push_frame e x y t move box)).
  { intros c Hc. unfold push_frame in Hc. apply in_flat_map in Hc.
    destruct Hc as (px & Hpx & Hc). apply in_flat_map in Hc.
    destruct Hc as (py & Hpy & Hc). apply in_range in Hpx, Hpy.
    destruct (pair_eqb (px, py) (step move x y)) eqn:Eq; cbn in Hc; [contradiction|].
    destruct Hc as [<-|[]].
    exists (- id_box e (box + 1) px py (t - 1)). split; [cbn; auto|].
    rewrite lit_true_neg.
    - rewrite Hguard; [reflexivity|split; assumption|].
      intros E. apply pair_eqb_eq in E. congruence.
    - pose proof (id_pos e dims (Box (box + 1) px py (t - 1))) as Hp.
      cbn [id_of] in Hp. enough (1 <= id_box e (box + 1) px py (t - 1)) by lia.
      apply Hp. grid_lia. }
  split; [exact Hguard|]. split; [exact Hframe|].
  assert (Hpm : 0 < id_move e (move + 5) t).
  { pose proof (id_pos e dims (Move (move + 5) t)) as Hp. cbn [id_of] in Hp.
    enough (1 <= id_move e (move + 5) t) by lia. apply Hp. grid_lia. }
  assert (Hpp : 0 < id_player e x y (t - 1)).
  { pose proof (id_pos e dims (Player x y (t - 1))) as Hp. cbn [id_of] in Hp.
    enough (1 <= id_player e x y (t - 1)) by lia. apply Hp. grid_lia. }
  assert (Hpb : 0 < id_box e (box + 1) (fst (step move x y)) (snd (step move x y)) (t - 1)).
  { pose proof (id_pos e dims
      (Box (box + 1) (fst (step move x y)) (snd (step move x y)) (t - 1))) as Hp.
    cbn [id_of] in Hp. enough (1 <= id_box e (box + 1) (fst (step move x y))
                                      (snd (step move x y)) (t - 1)) by lia.
    apply Hp. grid_lia. }
  assert (Hpc : 0 < id_box e (box + 1)
                  (fst (step move (fst (step move x y)) (snd (step move x y))))
                  (snd (step move (fst (step move x y)) (snd (step move x y)))) t).
  { pose proof (id_pos e dims
      (Box (box + 1) (fst (step move (fst (step move x y)) (snd (step move x y))))
           (snd (step move (fst (step move x y)) (snd (step move x y)))) t)) as Hp.
    cbn [id_of] in Hp.
    enough (1 <= id_box e (box + 1)
                   (fst (step move (fst (step move x y)) (snd (step move x y))))
                   (snd (step move (fst (step move x y)) (snd (step move x y)))) t) by lia.
    apply Hp. grid_lia. }
  assert (Hmoved : cnf_sat v (push_moved e x y t move box
                              :: push_frame e x y t move box) ->
            v (id_box e (box + 1)
                 (fst (step move (fst (step move x y)) (snd (step move x y))))
                 (snd (step move (fst (step move x y)) (snd (step move x y)))) t)
            = true).
  { intros Hsat. destruct (Hsat (push_moved e x y t move box)) as (l & Hl & Hv);
      [now left|].
    unfold push_moved in Hl. cbv zeta in Hl.
    destruct Hl as [<-|[<-|[<-|[<-|[]]]]].
    + rewrite lit_true_neg, Vm in Hv by assumption. discriminate.
    + rewrite lit_true_neg, Vp in Hv by assumption. discriminate.
    + rewrite lit_true_neg, Vb in Hv by assumption. discriminate.
    + now rewrite lit_true_pos in Hv by assumption. }
  split; [split; [exact Hmoved|]|].
  - intros Vc c [<-|Hc]; [|now apply Hframe].
    eexists. split; [unfold push_moved; cbv zeta; right; right; right; now left|].
    now rewrite lit_true_pos by assumption.
  - intros Hsat px py Hp Vq.
    destruct (box_at_most_one e v dims Huniq box t px py
                (fst (step move (fst (step move x y)) (snd (step move x y))))
                (snd (step move (fst (step move x y)) (snd (step move x y)))))
      as [-> ->]; auto; try lia.
    symmetry. apply surjective_pairing.
Qed.

End PushFrame.

(** ** Question2: a grid without a player *)

Section NoPlayer.

Import Sokoban Examples.

Lemma for_S_total {A S} (I : S -> Prop) (xs : list A) (body : A -> S -> result S) :
  (forall x s, In x xs -> I s -> exists s', body x s = Ok s' /\ I s') ->
  forall s, I s -> exists s', for_S xs body s = Ok s' /\ I s'.
Proof.
  induction xs as [|x xs IH]; intros Hb s Hs; cbn.
  - now exists s.
  - destruct (Hb x s (or_introl eq_refl) Hs) as (s1 & E1 & H1). rewrite E1. cbn.
    apply IH; [|assumption]. intros y s0 Hy. apply Hb. now right.
Qed.

(** A grid whose rows all have the length of the first. *)
Lemma parse_without_player (g : list (list string)) (s : parse_state) :
  (forall row, In row g -> length row = length (hd [] g)) ->
  (forall row, In row g -> ~ In "P"%string row) ->
  ps_player s = None ->
  exists s', _parse_grid g (len g) (len (hd [] g)) s = Ok s' /\ ps_player s' = None.
Proof.
  intros Hrect Hno Hs. unfold _parse_grid.
  apply (for_S_total (fun s => ps_player s = None)); [|assumption].
  intros x s1 Hx H1. apply in_range in Hx.
  apply (for_S_total (fun s => ps_player s = None)); [|assumption].
  intros y s2 Hy H2. apply in_range in Hy.
  unfold parse_cell. rewrite (py_get_in g x []) by assumption. cbn [rbind].
  assert (Hrow : In (nth (Z.to_nat x) g []) g) by (apply nth_In; unfold len in Hx; lia).
  rewrite (py_get_in _ y ""%string).
  2:{ unfold len in *. rewrite (Hrect _ Hrow). lia. }
  cbn [rbind].
  set (ch := nth (Z.to_nat y) (nth (Z.to_nat x) g []) ""%string).
  assert (Hch : ch <> "P"%string).
  { intros E. apply (Hno _ Hrow). rewrite <- E. apply nth_In.
    unfold len in *. rewrite (Hrect _ Hrow). lia. }
  apply String.eqb_neq in Hch. rewrite Hch.
  repeat match goal with
         | |- context [if ?b then _ else _] => destruct b
         end; eexists; split; try reflexivity; assumption.
Qed.

(** C9, as stated, fails: a grid without a player is accepted by the
    constructor. *)
Lemma init_accepts_grid_without_player :
  exists e, __init__ level0 1 = Ok e /\ player_start e = None.
Proof. eexists. split; [vm_compute; reflexivity|reflexivity]. Qed.

(** C9, amended.  For a non-empty rectangular grid without a ['P'] cell the
    constructor succeeds and leaves [player_start] unset; the failure comes
    when [encode] is called, as the [TypeError] of subscripting [None] at
    line 107. *)
Theorem missing_player_fails_in_encode (g : list (list string)) (T0 : Z) :
  g <> [] ->
  (forall row, In row g -> length row = length (hd [] g)) ->
  (forall row, In row g -> ~ In "P"%string row) ->
  exists e, __init__ g T0 = Ok e /\ player_start e = None /\
            encode e = Raise TypeError.
Proof.
  intros Hne Hrect Hno. unfold __init__.
  destruct g as [|row0 rest]; [contradiction|].
  change (py_get (row0 :: rest) 0) with (Ok (A := list string) row0). cbn [rbind].
  destruct (parse_without_player (row0 :: rest)
              {| ps_goals := []; ps_boxes := []; ps_walls := []; ps_player := None |}
              Hrect Hno eq_refl) as (s & Es & Hs).
  cbn [hd] in Es. rewrite Es. cbn [rbind].
  eexists. split; [reflexivity|]. split; [exact Hs|].
  unfold encode, encode_initial. cbn [player_start]. rewrite Hs. reflexivity.
Qed.

(** C9, amended, on the one-cell level without a player. *)
Lemma missing_player_fails_in_encode_witness :
  exists e, __init__ level0 1 = Ok e /\ player_start e = None /\
            encode e = Raise TypeError.
Proof.
  apply (missing_player_fails_in_encode level0 1).
  - discriminate.
  - intros row [<-|[]]. reflexivity.
  - intros row [<-|[]] [H|[]]. discriminate H.
Defined.

End NoPlayer.

(** ** The variable numbering of both programs *)

Section NumberingBoth.

Import Sudoku Sokoban Examples.

(** C2.  [prop] is injective on the cells and values of an n-by-n grid and
    onto [1..n*n*n]; the variable functions of an encoder built by the
    constructor are injective on their in-bounds arguments, the families
    occupy disjoint consecutive ranges in the order goal, player position,
    action, box position, and together they fill [1..total_var_count]. *)
Theorem variable_numbering_bijective
    (n : Z) (g : list (list string)) (T0 : Z) (e : SokobanEncoder) :
  0 <= n -> __init__ g T0 = Ok e -> 0 <= T0 ->
  prop_bijective n /\ numbering_bijective e.
Proof.
  intros Hn Hinit HT0. split.
  - split; [|split].
    + intros r c num r' c' num'. now apply prop_inj.
    + intros r c num Hr Hc Hnum. split.
      * apply prop_pos; lia.
      * apply prop_le; assumption.
    + intros i Hi. now apply prop_onto.
  - destruct (init_wf g T0 e Hinit) as (Hwf & HT & _).
    assert (dims : dims_ok e) by (apply wf_dims; [assumption|lia]).
    unfold numbering_bijective. cbv zeta. split; [|split].
    + intros f f' v Hf Hf'. apply var_of_ok in Hf, Hf'.
      destruct Hf as [Hb ->], Hf' as [Hb' E].
      now apply (id_of_inj e dims).
    + intros f v Hf. apply var_of_ok in Hf. destruct Hf as [Hb ->].
      pose proof (id_range e dims f Hb) as R. destruct f; exact R.
    + intros v Hv. destruct (fact_of_some e dims v Hv) as (f & _ & Hb & <-).
      exists f. now apply var_of_in_bounds.
Qed.

(** C2 for 4-by-4 grids and the encoder of the one-row level. *)
Lemma variable_numbering_bijective_witness :
  prop_bijective 4 /\ numbering_bijective encoder1.
Proof.
  apply (variable_numbering_bijective 4 level1 1 encoder1).
  - lia.
  - vm_compute. reflexivity.
  - lia.
Defined.

(** C10, as stated, fails for [prop]: a given outside [1..n] raises nothing;
    its unit clause is emitted under the number of another cell. *)
Lemma prop_accepts_out_of_range :
  exists f, sudoku_cnf (fst (alloc stray4)) (snd (alloc stray4)) = Ok f /\
            In [prop 4 0 0 29] f /\ prop 4 0 0 29 = prop 4 1 3 1.
Proof.
  eexists. split; [vm_compute; reflexivity|].
  split; [|reflexivity]. vm_compute. do 160 right. now left.
Qed.

(** C10, amended.  [var_goal], [var_player], [var_move] and [var_box] return
    the number of a fact exactly when their arguments are in bounds and
    raise [AssertionError] otherwise.  [prop] checks nothing: it is
    arithmetic on any integers, and a value [n] beyond the range gets the
    number of the next cell. *)
Theorem variable_functions_assert_bounds (e : SokobanEncoder) (f : fact) (n r c num : Z) :
  (in_bounds e f /\ var_of e f = Ok (id_of e f) \/
   ~ in_bounds e f /\ var_of e f = Raise AssertionError) /\
  prop n r c (num + n) = prop n r (c + 1) num.
Proof.
  split.
  - destruct (in_bounds_dec e f) as [H|H].
    + left. split; [assumption|now apply var_of_in_bounds].
    + right. split; [assumption|now apply var_of_out_of_bounds].
  - unfold prop. ring.
Qed.

End NumberingBoth.

(** ** The decoders on a model without a true literal *)

Section MissingLiteral.

Import Sudoku Sokoban Examples.






End MissingLiteral.

(** ** Question2: the clauses [encode] emits, one kind at a time *)

Section Emitted.

Import Sokoban.

Variable e : SokobanEncoder.
Variable ps : Z * Z.

Ltac into_range := apply in_range; unfold on_grid in *; cbn [fst snd] in *; lia.

Lemma in_initial (c : clause) : In c (initial_clauses e ps) -> In c (encode_clauses e ps).
Proof. intros H. unfold encode_clauses. apply in_app_iff. now left. Qed.

Lemma in_moves (c : clause) : In c (move_clauses e) -> In c (encode_clauses e ps).
Proof. intros H. unfold encode_clauses. rewrite !in_app_iff. auto. Qed.

Lemma in_pushes (c : clause) : In c (push_clauses e) -> In c (encode_clauses e ps).
Proof. intros H. unfold encode_clauses. rewrite !in_app_iff. auto. Qed.

Lemma in_overlap (c : clause) : In c (overlap_clauses e) -> In c (encode_clauses e ps).
Proof. intros H. unfold encode_clauses. rewrite !in_app_iff. auto. Qed.

Lemma in_goal (c : clause) : In c (goal_clauses e) -> In c (encode_clauses e ps).
Proof. intros H. unfold encode_clauses. rewrite !in_app_iff. auto 10. Qed.

Lemma in_actions (c : clause) : In c (action_clauses e) -> In c (encode_clauses e ps).
Proof. intros H. unfold encode_clauses. rewrite !in_app_iff. auto 10. Qed.

Lemma in_unique (c : clause) : In c (unique_clauses e) -> In c (encode_clauses e ps).
Proof. intros H. unfold encode_clauses. rewrite !in_app_iff. auto 10. Qed.

Lemma in_stay (c : clause) : In c (stay_clauses e) -> In c (encode_clauses e ps).
Proof. intros H. unfold encode_clauses. rewrite !in_app_iff. auto 10. Qed.

(** Lines 107-126. *)
Lemma emit_player_start :
  In [id_player e (fst ps) (snd ps) 0] (encode_clauses e ps).
Proof. apply in_initial. now left. Qed.

Lemma emit_box_start (box : Z) :
  0 <= box < num_boxes e ->
  In [id_box e (box + 1) (fst (nth (Z.to_nat box) (boxes e) (0, 0)))
        (snd (nth (Z.to_nat box) (boxes e) (0, 0))) 0] (encode_clauses e ps).
Proof.
  intros H. apply in_initial. right. apply in_app_iff. left.
  apply in_flat_map. exists box. split; [into_range|now left].
Qed.

Lemma emit_goal_fact (x y : Z) :
  on_grid e x y ->
  In (if existsb (pair_eqb (x, y)) (goals e)
      then [id_goal e x y] else [- id_goal e x y]) (encode_clauses e ps).
Proof.
  intros H. apply in_initial. right. apply in_app_iff. right.
  apply in_app_iff. left.
  apply in_flat_map. exists x. split; [into_range|].
  apply in_flat_map. exists y. split; [into_range|].
  destruct (existsb _ _); now left.
Qed.

Lemma emit_wall_player (wall t : Z) :
  0 <= wall < len (walls e) -> 0 <= t < T e ->
  In [- id_player e (fst (nth (Z.to_nat wall) (walls e) (0, 0)))
          (snd (nth (Z.to_nat wall) (walls e) (0, 0))) t] (encode_clauses e ps).
Proof.
  intros Hw Ht. apply in_initial. right. apply in_app_iff. right.
  apply in_app_iff. right. apply in_app_iff. left.
  apply in_flat_map. exists wall. split; [into_range|].
  apply in_flat_map. exists t. split; [into_range|now left].
Qed.

Lemma emit_wall_box (wall t box : Z) :
  0 <= wall < len (walls e) -> 0 <= t < T e -> 0 <= box < num_boxes e ->
  In [- id_box e (box + 1) (fst (nth (Z.to_nat wall) (walls e) (0, 0)))
          (snd (nth (Z.to_nat wall) (walls e) (0, 0))) t] (encode_clauses e ps).
Proof.
  intros Hw Ht Hb. apply in_initial. right. apply in_app_iff. right.
  apply in_app_iff. right. apply in_app_iff. left.
  apply in_flat_map. exists wall. split; [into_range|].
  apply in_flat_map. exists t. split; [into_range|]. right.
  apply in_flat_map. exists box. split; [into_range|now left].
Qed.

Lemma emit_stay_first : In [id_move e 9 0] (encode_clauses e ps).
Proof.
  apply in_initial. right. apply in_app_iff. right.
  apply in_app_iff. right. apply in_app_iff. right. now left.
Qed.

(** Lines 129-145. *)
Lemma emit_move_frame (x y move t box : Z) :
  on_grid e x y -> 0 <= move < 4 -> 1 <= t < T e -> 0 <= box < num_boxes e ->
  In [- id_move e (move + 1) t; - id_box e (box + 1) x y (t - 1);
      id_box e (box + 1) x y t] (encode_clauses e ps).
Proof.
  intros Hg Hm Ht Hb. apply in_moves. unfold move_clauses.
  apply in_flat_map. exists x. split; [into_range|].
  apply in_flat_map. exists y. split; [into_range|].
  apply in_flat_map. exists move. split; [into_range|].
  apply in_flat_map. exists t. split; [into_range|].
  apply in_app_iff. left.
  apply in_flat_map. exists box. split; [into_range|now left].
Qed.

Lemma emit_move_player (x y move t : Z) :
  on_grid e x y -> 0 <= move < 4 -> 1 <= t < T e ->
  In (if off_grid e (fst (step move x y)) (snd (step move x y))
      then [- id_move e (move + 1) t; - id_player e x y (t - 1)]
      else [- id_move e (move + 1) t; - id_player e x y (t - 1);
            id_player e (fst (step move x y)) (snd (step move x y)) t])
     (encode_clauses e ps).
Proof.
  intros Hg Hm Ht. apply in_moves. unfold move_clauses.
  apply in_flat_map. exists x. split; [into_range|].
  apply in_flat_map. exists y. split; [into_range|].
  apply in_flat_map. exists move. split; [into_range|].
  apply in_flat_map. exists t. split; [into_range|].
  apply in_app_iff. right. cbv zeta. destruct (off_grid e _ _); now left.
Qed.

(** Lines 148-177. *)
Lemma emit_push (x y t move : Z) :
  on_grid e x y -> 1 <= t < T e -> 0 <= move < 4 ->
  incl (if off_grid e (fst (step move x y)) (snd (step move x y))
           || off_grid e (fst (step move (fst (step move x y)) (snd (step move x y))))
                         (snd (step move (fst (step move x y)) (snd (step move x y))))
        then [[- id_move e (move + 5) t; - id_player e x y (t - 1)]]
        else flat_map (fun box =>
               [push_follow e x y t move box; push_moved e x y t move box]
               ++ push_frame e x y t move box) (range 0 (num_boxes e))
             ++ [push_ahead e x y t move])
       (encode_clauses e ps).
Proof.
  intros Hg Ht Hm c Hc. apply in_pushes. unfold push_clauses.
  apply in_flat_map. exists x. split; [into_range|].
  apply in_flat_map. exists y. split; [into_range|].
  apply in_flat_map. exists t. split; [into_range|].
  apply in_flat_map. exists move. split; [into_range|]. exact Hc.
Qed.

(** Lines 180-186. *)
Lemma emit_overlap_player (x y box t : Z) :
  on_grid e x y -> 0 <= box < num_boxes e -> 0 <= t < T e ->
  In [- id_player e x y t; - id_box e (box + 1) x y t] (encode_clauses e ps).
Proof.
  intros Hg Hb Ht. apply in_overlap. unfold overlap_clauses.
  apply in_flat_map. exists x. split; [into_range|].
  apply in_flat_map. exists y. split; [into_range|].
  apply in_flat_map. exists box. split; [into_range|].
  apply in_flat_map. exists t. split; [into_range|now left].
Qed.

Lemma emit_overlap_boxes (x y box boxd t : Z) :
  on_grid e x y -> 0 <= box < boxd -> boxd < num_boxes e -> 0 <= t < T e ->
  In [- id_box e (box + 1) x y t; - id_box e (boxd + 1) x y t] (encode_clauses e ps).
Proof.
  intros Hg Hb Hd Ht. apply in_overlap. unfold overlap_clauses.
  apply in_flat_map. exists x. split; [into_range|].
  apply in_flat_map. exists y. split; [into_range|].
  apply in_flat_map. exists box. split; [into_range|].
  apply in_flat_map. exists t. split; [into_range|]. right.
  apply in_flat_map. exists boxd. split; [into_range|now left].
Qed.

(** Lines 189-192. *)
Lemma emit_goal (x y box : Z) :
  on_grid e x y -> 0 <= box < num_boxes e ->
  In [- id_box e (box + 1) x y (T e - 1); id_goal e x y] (encode_clauses e ps).
Proof.
  intros Hg Hb. apply in_goal. unfold goal_clauses.
  apply in_flat_map. exists x. split; [into_range|].
  apply in_flat_map. exists y. split; [into_range|].
  apply in_flat_map. exists box. split; [into_range|now left].
Qed.

(** Lines 198-204. *)
Lemma emit_action_pair (t i j : Z) :
  0 <= t < T e -> 1 <= i < j -> j <= 9 ->
  In [- id_move e i t; - id_move e j t] (encode_clauses e ps).
Proof.
  intros Ht Hi Hj. apply in_actions. unfold action_clauses.
  apply in_flat_map. exists t. split; [into_range|].
  apply in_app_iff. left.
  apply in_flat_map. exists i. split; [into_range|].
  apply in_flat_map. exists j. split; [into_range|now left].
Qed.

Lemma emit_action_some (t : Z) :
  0 <= t < T e ->
  In (map (fun i => id_move e i t) (range 1 10)) (encode_clauses e ps).
Proof.
  intros Ht. apply in_actions. unfold action_clauses.
  apply in_flat_map. exists t. split; [into_range|].
  apply in_app_iff. right. now left.
Qed.

(** Lines 207-221. *)
Lemma emit_unique_player (t : Z) (c : clause) :
  0 <= t < T e ->
  In c (player_cells e t :: pairwise_neg (len (player_cells e t)) (player_cells e t)) ->
  In c (encode_clauses e ps).
Proof. intros Ht Hc. apply in_unique. now apply (in_unique_player e t). Qed.

Lemma emit_unique_box (box t : Z) (c : clause) :
  0 <= box < num_boxes e -> 0 <= t < T e ->
  In c (box_cells e box t :: pairwise_neg (len (box_cells e box t)) (box_cells e box t)) ->
  In c (encode_clauses e ps).
Proof. intros Hb Ht Hc. apply in_unique. now apply (in_unique_box e box t). Qed.

(** Lines 223-228. *)
Lemma emit_stay_box (t x y box : Z) :
  1 <= t < T e -> on_grid e x y -> 0 <= box < num_boxes e ->
  In [- id_move e 9 t; - id_box e (box + 1) x y (t - 1); id_box e (box + 1) x y t]
     (encode_clauses e ps).
Proof.
  intros Ht Hg Hb. apply in_stay. unfold stay_clauses.
  apply in_flat_map. exists t. split; [into_range|].
  apply in_flat_map. exists x. split; [into_range|].
  apply in_flat_map. exists y. split; [into_range|].
  apply in_app_iff. left.
  apply in_flat_map. exists box. split; [into_range|now left].
Qed.

Lemma emit_stay_player (t x y : Z) :
  1 <= t < T e -> on_grid e x y ->
  In [- id_move e 9 t; - id_player e x y (t - 1); id_player e x y t]
     (encode_clauses e ps).
Proof.
  intros Ht Hg. apply in_stay. unfold stay_clauses.
  apply in_flat_map. exists t. split; [into_range|].
  apply in_flat_map. exists x. split; [into_range|].
  apply in_flat_map. exists y. split; [into_range|].
  apply in_app_iff. right. now left.
Qed.

End Emitted.

(** ** Question2: the cell lists of the uniqueness clauses *)

Lemma flat_map_pairs {A B C} (f : A -> B -> C) (xs : list A) (ys : list B) :
  flat_map (fun x => flat_map (fun y => [f x y]) ys) xs
  = map (fun p => f (fst p) (snd p)) (flat_map (fun x => map (pair x) ys) xs).
Proof.
  induction xs as [|x xs IH]; cbn; [reflexivity|].
  rewrite map_app, <- IH. f_equal.
  rewrite flat_map_single, map_map. reflexivity.
Qed.

Lemma pairwise_neg_inv (k : Z) (cl c : clause) :
  In c (pairwise_neg k cl) ->
  exists i j, 0 <= i < j /\ j < k /\
              c = [- nth (Z.to_nat i) cl 0; - nth (Z.to_nat j) cl 0].
Proof.
  unfold pairwise_neg. intros H. apply in_flat_map in H.
  destruct H as (i & Hi & H). apply in_map_iff in H.
  destruct H as (j & <- & Hj). apply in_range in Hi, Hj.
  exists i, j. repeat split; lia.
Qed.

Lemma nth_map_default {A} (f : A -> Z) (l : list A) (i : nat) (d : A) :
  (i < length l)%nat -> nth i (map f l) 0 = f (nth i l d).
Proof.
  intros H. rewrite (nth_indep _ 0 (f d)) by now rewrite length_map.
  apply map_nth.
Qed.

Section Cells.

Import Sokoban.

Variable e : SokobanEncoder.

Lemma in_cells (p : Z * Z) : In p (cells e) <-> on_grid e (fst p) (snd p).
Proof.
  unfold cells, on_grid. rewrite in_flat_map. split.
  - intros (x & Hx & Hp). apply in_map_iff in Hp. destruct Hp as (y & <- & Hy).
    apply in_range in Hx, Hy. cbn. lia.
  - intros [Hx Hy]. exists (fst p). split; [now apply in_range|].
    apply in_map_iff. exists (snd p). split; [now destruct p|now apply in_range].
Qed.

Lemma player_cells_map (t : Z) :
  player_cells e t = map (fun p => id_player e (fst p) (snd p) t) (cells e).
Proof.
  unfold player_cells, cells.
  apply (flat_map_pairs (fun x y => id_player e x y t)).
Qed.

Lemma box_cells_map (box t : Z) :
  box_cells e box t = map (fun p => id_box e (box + 1) (fst p) (snd p) t) (cells e).
Proof.
  unfold box_cells, cells.
  apply (flat_map_pairs (fun x y => id_box e (box + 1) x y t)).
Qed.

End Cells.

(** ** Question2: a longer horizon keeps a plan *)

Section Padding.

Import Sokoban.

Variable ek : SokobanEncoder.
Variable TT : Z.
Variable v : Z -> bool.
Variable ps : Z * Z.

Hypothesis wf : wf_encoder ek.
Hypothesis horizons : 1 <= T ek <= TT.
Hypothesis start : player_start ek = Some ps.
Hypothesis sat_k : cnf_sat v (encode_clauses ek ps).

Let eT : SokobanEncoder := with_horizon ek TT.
Let k : Z := T ek - 1.

(** A clause of the longer horizon is good when its literals are variables of
    the longer horizon and the padded valuation satisfies it. *)
Let good (c : clause) : Prop :=
  (forall l, In l c -> 1 <= Z.abs l <= total_var_count eT) /\
  clause_sat (pad_val ek eT v) c.

Lemma dims_k : dims_ok ek.
Proof. apply wf_dims; [assumption|lia]. Qed.

Lemma dims_T : dims_ok eT.
Proof.
  pose proof dims_k as (HN & HM & HT & HB).
  unfold dims_ok, eT. cbn. repeat split; lia.
Qed.

Lemma pad_val_id (f : fact) :
  in_bounds eT f -> pad_val ek eT v (id_of eT f) = pad_truth ek v f.
Proof. intros H. unfold pad_val. now rewrite (fact_of_id eT dims_T f H). Qed.

Lemma lit_pad (sf : bool * fact) :
  in_bounds eT (snd sf) ->
  lit_true (pad_val ek eT v) (lit eT sf) = signed (fst sf) (pad_truth ek v (snd sf)).
Proof.
  intros H. pose proof (id_pos eT dims_T _ H) as Hp.
  destruct sf as [[] f]; unfold lit; cbn [fst snd signed] in *.
  - rewrite lit_true_pos by lia. now apply pad_val_id.
  - rewrite lit_true_neg by lia. f_equal. now apply pad_val_id.
Qed.

Lemma lit_range (sf : bool * fact) :
  in_bounds eT (snd sf) -> 1 <= Z.abs (lit eT sf) <= total_var_count eT.
Proof.
  intros H. pose proof (id_pos eT dims_T _ H) as Hp.
  destruct sf as [[] f]; unfold lit; cbn [fst snd] in *; lia.
Qed.

(** A clause with a literal that is true in the padded valuation. *)
Lemma pad_direct (fs : list (bool * fact)) (c : clause) :
  c = map (lit eT) fs ->
  Forall (fun sf => in_bounds eT (snd sf)) fs ->
  (exists sf, In sf fs /\ signed (fst sf) (pad_truth ek v (snd sf)) = true) ->
  good c.
Proof.
  intros -> Hb (sf & Hin & Hs). rewrite Forall_forall in Hb. split.
  - intros l Hl. apply in_map_iff in Hl. destruct Hl as (sf' & <- & Hin').
    apply lit_range. now apply Hb.
  - exists (lit eT sf). split; [now apply in_map|].
    rewrite lit_pad by now apply Hb. exact Hs.
Qed.

Lemma clamp_bounds (f : fact) :
  in_bounds eT f -> early k f -> in_bounds ek (clamp k f).
Proof.
  unfold k. destruct f; unfold eT; cbn; unfold on_grid; cbn; lia.
Qed.

Lemma pad_truth_clamp (f : fact) :
  in_bounds eT f -> early k f -> pad_truth ek v f = v (id_of ek (clamp k f)).
Proof.
  unfold k. destruct f; cbn; try reflexivity.
  intros _ Ht. destruct (Z.ltb_spec t (T ek)); [reflexivity|lia].
Qed.

(** A clause whose facts, brought back to the last step of the shorter
    horizon, form a clause of the shorter horizon. *)
Lemma pad_early (fs : list (bool * fact)) (c : clause) :
  c = map (lit eT) fs ->
  Forall (fun sf => in_bounds eT (snd sf) /\ early k (snd sf)) fs ->
  In (map (lit ek) (map (clamp_signed k) fs)) (encode_clauses ek ps) ->
  good c.
Proof.
  intros Ec Hb Hin. rewrite Forall_forall in Hb.
  apply (pad_direct fs c Ec).
  - apply Forall_forall. intros sf Hsf. now apply Hb.
  - destruct (sat_k _ Hin) as (l & Hl & Hv).
    rewrite map_map in Hl. apply in_map_iff in Hl.
    destruct Hl as (sf & <- & Hsf). exists sf. split; [assumption|].
    destruct (Hb sf Hsf) as [Hbd He].
    rewrite (pad_truth_clamp _ Hbd He).
    pose proof (id_pos ek dims_k _ (clamp_bounds _ Hbd He)) as Hp.
    destruct sf as [[] f]; unfold lit, clamp_signed in Hv; cbn [fst snd signed] in *.
    + now rewrite lit_true_pos in Hv by lia.
    + now rewrite lit_true_neg in Hv by lia.
Qed.


Ltac dims :=
  unfold eT, k in *;
  cbn [with_horizon N M T num_boxes boxes walls goals player_start
       in_bounds early id_of fst snd] in *;
  unfold on_grid in *;
  cbn [with_horizon N M T num_boxes] in *; lia.

Ltac all_facts := repeat (apply Forall_cons; [dims|]); apply Forall_nil.

Ltac unfold_lits :=
  cbn [map lit clamp_signed clamp fst snd id_of]; unfold k.

(** An action after the last step of the shorter horizon is the stay. *)
Lemma pad_not_stay (num t : Z) :
  T ek <= t -> num <> 9 -> signed false (pad_truth ek v (Move num t)) = true.
Proof.
  intros Ht Hn. cbn. destruct (Z.ltb_spec t (T ek)); [lia|].
  now destruct (Z.eqb_spec num 9).
Qed.

Lemma pad_stay (t : Z) : T ek <= t -> pad_truth ek v (Move 9 t) = true.
Proof. intros Ht. cbn. now destruct (Z.ltb_spec t (T ek)); [lia|]. Qed.

(** Lines 223-228 at the longer horizon. *)
Lemma good_stay (c : clause) : In c (stay_clauses eT) -> good c.
Proof.
  unfold stay_clauses. intros H.
  apply in_flat_map in H. destruct H as (t & Ht & H).
  apply in_flat_map in H. destruct H as (x & Hx & H).
  apply in_flat_map in H. destruct H as (y & Hy & H).
  apply in_range in Ht, Hx, Hy.
  apply in_app_iff in H. destruct H as [H|[<-|[]]].
  - apply in_flat_map in H. destruct H as (box & Hb & [<-|[]]).
    apply in_range in Hb.
    destruct (Z.ltb_spec t (T ek)) as [Hlt|Hge].
    + apply (pad_early [(false, Move 9 t); (false, Box (box + 1) x y (t - 1));
                        (true, Box (box + 1) x y t)]); [reflexivity|all_facts|].
      unfold_lits. rewrite !Z.min_l by lia. apply emit_stay_box; dims.
    + apply (pad_direct [(false, Move 9 t); (false, Box (box + 1) x y (t - 1));
                         (true, Box (box + 1) x y t)]); [reflexivity|all_facts|].
      destruct (v (id_box ek (box + 1) x y (T ek - 1))) eqn:E.
      * exists (true, Box (box + 1) x y t). split; [cbn; auto|].
        cbn [signed pad_truth fst snd clamp id_of]. now rewrite Z.min_r by lia.
      * exists (false, Box (box + 1) x y (t - 1)). split; [cbn; auto|].
        cbn [signed pad_truth fst snd clamp id_of]. rewrite Z.min_r by lia.
        now rewrite E.
  - destruct (Z.ltb_spec t (T ek)) as [Hlt|Hge].
    + apply (pad_early [(false, Move 9 t); (false, Player x y (t - 1));
                        (true, Player x y t)]); [reflexivity|all_facts|].
      unfold_lits. rewrite !Z.min_l by lia. apply emit_stay_player; dims.
    + apply (pad_direct [(false, Move 9 t); (false, Player x y (t - 1));
                         (true, Player x y t)]); [reflexivity|all_facts|].
      destruct (v (id_player ek x y (T ek - 1))) eqn:E.
      * exists (true, Player x y t). split; [cbn; auto|].
        cbn [signed pad_truth fst snd clamp id_of]. now rewrite Z.min_r by lia.
      * exists (false, Player x y (t - 1)). split; [cbn; auto|].
        cbn [signed pad_truth fst snd clamp id_of]. rewrite Z.min_r by lia.
        now rewrite E.
Qed.

(** Lines 129-145 at the longer horizon. *)
Lemma good_moves (c : clause) : In c (move_clauses eT) -> good c.
Proof.
  unfold move_clauses. intros H.
  apply in_flat_map in H. destruct H as (x & Hx & H).
  apply in_flat_map in H. destruct H as (y & Hy & H).
  apply in_flat_map in H. destruct H as (move & Hm & H).
  apply in_flat_map in H. destruct H as (t & Ht & H).
  apply in_range in Ht, Hx, Hy, Hm.
  apply in_app_iff in H. destruct H as [H|H].
  - apply in_flat_map in H. destruct H as (box & Hb & [<-|[]]).
    apply in_range in Hb.
    destruct (Z.ltb_spec t (T ek)) as [Hlt|Hge].
    + apply (pad_early [(false, Move (move + 1) t); (false, Box (box + 1) x y (t - 1));
                        (true, Box (box + 1) x y t)]); [reflexivity|all_facts|].
      unfold_lits. rewrite !Z.min_l by lia. apply emit_move_frame; dims.
    + apply (pad_direct [(false, Move (move + 1) t); (false, Box (box + 1) x y (t - 1));
                         (true, Box (box + 1) x y t)]); [reflexivity|all_facts|].
      exists (false, Move (move + 1) t). split; [cbn; auto|].
      apply pad_not_stay; lia.
  - cbv zeta in H.
    destruct (off_grid eT (fst (step move x y)) (snd (step move x y))) eqn:Eoff;
      destruct H as [<-|[]].
    + destruct (Z.ltb_spec t (T ek)) as [Hlt|Hge].
      * apply (pad_early [(false, Move (move + 1) t); (false, Player x y (t - 1))]);
          [reflexivity|all_facts|].
        unfold_lits. rewrite !Z.min_l by lia.
        pose proof (emit_move_player ek ps x y move t) as Hin.
        change (off_grid ek) with (off_grid eT) in Hin. rewrite Eoff in Hin.
        apply Hin; dims.
      * apply (pad_direct [(false, Move (move + 1) t); (false, Player x y (t - 1))]);
          [reflexivity|all_facts|].
        exists (false, Move (move + 1) t). split; [cbn; auto|].
        apply pad_not_stay; lia.
    + pose proof (proj1 (off_grid_false eT _ _) Eoff) as Hon.
      destruct (Z.ltb_spec t (T ek)) as [Hlt|Hge].
      * apply (pad_early [(false, Move (move + 1) t); (false, Player x y (t - 1));
                          (true, Player (fst (step move x y)) (snd (step move x y)) t)]);
          [reflexivity|all_facts|].
        unfold_lits. rewrite !Z.min_l by lia.
        pose proof (emit_move_player ek ps x y move t) as Hin.
        change (off_grid ek) with (off_grid eT) in Hin. rewrite Eoff in Hin.
        apply Hin; dims.
      * apply (pad_direct [(false, Move (move + 1) t); (false, Player x y (t - 1));
                           (true, Player (fst (step move x y)) (snd (step move x y)) t)]);
          [reflexivity|all_facts|].
        exists (false, Move (move + 1) t). split; [cbn; auto|].
        apply pad_not_stay; lia.
Qed.


(** A clause guarded by an action other than the stay, after the last step
    of the shorter horizon. *)
Lemma good_guarded (num t : Z) (fs : list (bool * fact)) (c : clause) :
  c = map (lit eT) ((false, Move num t) :: fs) ->
  Forall (fun sf => in_bounds eT (snd sf)) ((false, Move num t) :: fs) ->
  T ek <= t -> num <> 9 -> good c.
Proof.
  intros Ec Hb Ht Hn. apply (pad_direct _ c Ec Hb).
  exists (false, Move num t). split; [now left|]. now apply pad_not_stay.
Qed.

(** Lines 180-186 at the longer horizon. *)
Lemma good_overlap (c : clause) : In c (overlap_clauses eT) -> good c.
Proof.
  unfold overlap_clauses. intros H.
  apply in_flat_map in H. destruct H as (x & Hx & H).
  apply in_flat_map in H. destruct H as (y & Hy & H).
  apply in_flat_map in H. destruct H as (box & Hb & H).
  apply in_flat_map in H. destruct H as (t & Ht & H).
  apply in_range in Ht, Hx, Hy, Hb.
  destruct H as [<-|H].
  - apply (pad_early [(false, Player x y t); (false, Box (box + 1) x y t)]);
      [reflexivity|all_facts|].
    unfold_lits. apply emit_overlap_player; dims.
  - apply in_flat_map in H. destruct H as (boxd & Hd & [<-|[]]).
    apply in_range in Hd.
    apply (pad_early [(false, Box (box + 1) x y t); (false, Box (boxd + 1) x y t)]);
      [reflexivity|all_facts|].
    unfold_lits. apply emit_overlap_boxes; dims.
Qed.

(** Lines 189-192 at the longer horizon. *)
Lemma good_goal (c : clause) : In c (goal_clauses eT) -> good c.
Proof.
  unfold goal_clauses. intros H.
  apply in_flat_map in H. destruct H as (x & Hx & H).
  apply in_flat_map in H. destruct H as (y & Hy & H).
  apply in_flat_map in H. destruct H as (box & Hb & [<-|[]]).
  apply in_range in Hx, Hy, Hb.
  apply (pad_early [(false, Box (box + 1) x y (T eT - 1)); (true, Goal x y)]);
    [reflexivity|all_facts|].
  unfold_lits. replace (Z.min (T eT - 1) (T ek - 1)) with (T ek - 1) by dims.
  apply emit_goal; dims.
Qed.

(** Lines 198-204 at the longer horizon. *)
Lemma good_actions (c : clause) : In c (action_clauses eT) -> good c.
Proof.
  unfold action_clauses. intros H.
  apply in_flat_map in H. destruct H as (t & Ht & H). apply in_range in Ht.
  apply in_app_iff in H. destruct H as [H|[<-|[]]].
  - apply in_flat_map in H. destruct H as (i & Hi & H).
    apply in_flat_map in H. destruct H as (j & Hj & [<-|[]]).
    apply in_range in Hi, Hj.
    destruct (Z.ltb_spec t (T ek)) as [Hlt|Hge].
    + apply (pad_early [(false, Move i t); (false, Move j t)]);
        [reflexivity|all_facts|].
      unfold_lits. apply emit_action_pair; dims.
    + apply (good_guarded i t [(false, Move j t)]); [reflexivity|all_facts|lia|lia].
  - assert (Ec : map (fun i => id_move eT i t) (range 1 10)
                 = map (lit eT) (map (fun i => (true, Move i t)) (range 1 10)))
      by now rewrite map_map.
    assert (Hb : Forall (fun sf => in_bounds eT (snd sf) /\ (t < T ek -> early k (snd sf)))
                   (map (fun i => (true, Move i t)) (range 1 10))).
    { apply Forall_forall. intros sf Hsf. apply in_map_iff in Hsf.
      destruct Hsf as (i & <- & Hi). apply in_range in Hi. split; [dims|].
      intros Hlt. dims. }
    destruct (Z.ltb_spec t (T ek)) as [Hlt|Hge].
    + apply (pad_early _ _ Ec).
      * eapply Forall_impl; [|exact Hb]. cbv beta. intros sf [H1 H2]. auto.
      * rewrite !map_map. cbn [lit clamp_signed clamp fst snd id_of].
        apply emit_action_some. dims.
    + apply (pad_direct _ _ Ec).
      * eapply Forall_impl; [|exact Hb]. cbv beta. intros sf [H1 H2]. auto.
      * exists (true, Move 9 t). split.
        -- apply in_map_iff. exists 9. split; [reflexivity|apply in_range; lia].
        -- cbn [signed fst snd]. now apply pad_stay.
Qed.


(** Lines 107-126 at the longer horizon. *)
Lemma good_initial (c : clause) : In c (initial_clauses eT ps) -> good c.
Proof.
  unfold initial_clauses. intros H.
  assert (Hps : on_grid ek (fst ps) (snd ps)).
  { destruct wf as (_ & _ & _ & _ & _ & Hp). now apply Hp. }
  destruct H as [<-|H].
  { apply (pad_early [(true, Player (fst ps) (snd ps) 0)]); [reflexivity|all_facts|].
    unfold_lits. rewrite Z.min_l by lia. apply emit_player_start. }
  apply in_app_iff in H. destruct H as [H|H].
  { apply in_flat_map in H. destruct H as (box & Hb & H). apply in_range in Hb.
    cbv zeta in H. destruct H as [<-|[]].
    pose proof (box_on_grid ek wf box ltac:(dims)) as Hbox.
    apply (pad_early [(true, Box (box + 1)
                               (fst (nth (Z.to_nat box) (boxes ek) (0, 0)))
                               (snd (nth (Z.to_nat box) (boxes ek) (0, 0))) 0)]);
      [reflexivity|all_facts|].
    unfold_lits. rewrite Z.min_l by lia. apply emit_box_start. dims. }
  apply in_app_iff in H. destruct H as [H|H].
  { apply in_flat_map in H. destruct H as (x & Hx & H).
    apply in_flat_map in H. destruct H as (y & Hy & H). apply in_range in Hx, Hy.
    pose proof (emit_goal_fact ek ps x y ltac:(dims)) as Hin.
    change (goals eT) with (goals ek) in H.
    destruct (existsb (pair_eqb (x, y)) (goals ek)); destruct H as [<-|[]].
    - apply (pad_early [(true, Goal x y)]); [reflexivity|all_facts|]. exact Hin.
    - apply (pad_early [(false, Goal x y)]); [reflexivity|all_facts|]. exact Hin. }
  apply in_app_iff in H. destruct H as [H|[<-|[]]].
  { apply in_flat_map in H. destruct H as (wall & Hw & H).
    apply in_flat_map in H. destruct H as (t & Ht & H). apply in_range in Hw, Ht.
    cbv zeta in H.
    pose proof (wall_on_grid ek wf wall ltac:(dims)) as Hwall.
    destruct H as [<-|H].
    - apply (pad_early [(false, Player (fst (nth (Z.to_nat wall) (walls ek) (0, 0)))
                                  (snd (nth (Z.to_nat wall) (walls ek) (0, 0))) t)]);
        [reflexivity|all_facts|].
      unfold_lits. apply emit_wall_player; dims.
    - apply in_flat_map in H. destruct H as (box & Hb & [<-|[]]). apply in_range in Hb.
      apply (pad_early [(false, Box (box + 1)
                                  (fst (nth (Z.to_nat wall) (walls ek) (0, 0)))
                                  (snd (nth (Z.to_nat wall) (walls ek) (0, 0))) t)]);
        [reflexivity|all_facts|].
      unfold_lits. apply emit_wall_box; dims. }
  apply (pad_early [(true, Move 9 0)]); [reflexivity|all_facts|].
  apply emit_stay_first.
Qed.

(** Lines 207-221 at the longer horizon. *)
Lemma good_unique (c : clause) : In c (unique_clauses eT) -> good c.
Proof.
  unfold unique_clauses. intros H.
  apply in_flat_map in H. destruct H as (t & Ht & H). apply in_range in Ht.
  assert (Htk : 0 <= Z.min t (T ek - 1) < T ek) by lia.
  assert (Hcell : forall i, 0 <= i < len (cells ek) ->
            on_grid ek (fst (nth (Z.to_nat i) (cells ek) (0, 0)))
                       (snd (nth (Z.to_nat i) (cells ek) (0, 0)))).
  { intros i Hi. apply in_cells, nth_In. unfold len in Hi. lia. }
  assert (Hpairs : forall (f : SokobanEncoder -> Z * Z -> Z -> Z) (mk : Z * Z -> Z -> fact),
            (forall e p t', f e p t' = id_of e (mk p t')) ->
            (forall p t', clamp k (mk p t') = mk p (Z.min t' k)) ->
            (forall p t', on_grid ek (fst p) (snd p) -> 0 <= t' < T eT ->
                          in_bounds eT (mk p t') /\ early k (mk p t')) ->
            forall emit : (forall c', In c' (map (fun p => f ek p (Z.min t k)) (cells ek)
                                  :: pairwise_neg (len (map (fun p => f ek p (Z.min t k)) (cells ek)))
                                       (map (fun p => f ek p (Z.min t k)) (cells ek))) ->
                                 In c' (encode_clauses ek ps)),
            forall c', In c' (map (fun p => f eT p t) (cells ek)
                              :: pairwise_neg (len (map (fun p => f eT p t) (cells ek)))
                                   (map (fun p => f eT p t) (cells ek))) ->
                       good c').
  { intros f mk Hf Hclamp Hbounds emit c' [<-|Hc'].
    - apply (pad_early (map (fun p => (true, mk p t)) (cells ek))).
      + rewrite map_map. apply map_ext. intros p. apply Hf.
      + apply Forall_forall. intros sf Hsf. apply in_map_iff in Hsf.
        destruct Hsf as (p & <- & Hp). apply in_cells in Hp. now apply Hbounds.
      + apply emit. left. rewrite !map_map. apply map_ext. intros p.
        unfold lit, clamp_signed. cbn [fst snd]. now rewrite Hclamp, Hf.
    - apply pairwise_neg_inv in Hc'. destruct Hc' as (i & j & Hi & Hj & ->).
      unfold len in Hj. rewrite length_map in Hj.
      rewrite !(nth_map_default _ _ _ (0, 0)) by lia.
      set (a := nth (Z.to_nat i) (cells ek) (0, 0)).
      set (b := nth (Z.to_nat j) (cells ek) (0, 0)).
      assert (Ha : on_grid ek (fst a) (snd a)) by (apply Hcell; unfold len; lia).
      assert (Hb : on_grid ek (fst b) (snd b)) by (apply Hcell; unfold len; lia).
      apply (pad_early [(false, mk a t); (false, mk b t)]).
      + unfold lit. cbn [map fst snd]. now rewrite !Hf.
      + repeat (apply Forall_cons; [now apply Hbounds|]). apply Forall_nil.
      + apply emit. right. unfold lit, clamp_signed. cbn [map fst snd].
        rewrite !Hclamp, <- !Hf.
        replace (f ek a (Z.min t k))
          with (nth (Z.to_nat i) (map (fun p => f ek p (Z.min t k)) (cells ek)) 0)
          by (now rewrite (nth_map_default _ _ _ (0, 0)) by lia).
        replace (f ek b (Z.min t k))
          with (nth (Z.to_nat j) (map (fun p => f ek p (Z.min t k)) (cells ek)) 0)
          by (now rewrite (nth_map_default _ _ _ (0, 0)) by lia).
        apply in_pairwise_neg; [lia|]. unfold len. rewrite length_map. lia. }
  rewrite player_cells_map in H. change (cells eT) with (cells ek) in H.
  destruct H as [H|H]; [|apply in_app_iff in H; destruct H as [H|H]].
  - apply (Hpairs (fun e p t' => id_player e (fst p) (snd p) t')
                  (fun p t' => Player (fst p) (snd p) t')); auto.
    + intros p t' Hp Ht'. dims.
    + intros c' Hc'. apply (emit_unique_player ek ps (Z.min t k)); [unfold k; lia|].
      now rewrite player_cells_map.
    + now left.
  - apply (Hpairs (fun e p t' => id_player e (fst p) (snd p) t')
                  (fun p t' => Player (fst p) (snd p) t')); auto.
    + intros p t' Hp Ht'. dims.
    + intros c' Hc'. apply (emit_unique_player ek ps (Z.min t k)); [unfold k; lia|].
      now rewrite player_cells_map.
    + now right.
  - apply in_flat_map in H. destruct H as (box & Hb & H). apply in_range in Hb.
    rewrite box_cells_map in H. change (cells eT) with (cells ek) in H.
    apply (Hpairs (fun e p t' => id_box e (box + 1) (fst p) (snd p) t')
                  (fun p t' => Box (box + 1) (fst p) (snd p) t')); auto.
    + intros p t' Hp Ht'. dims.
    + intros c' Hc'. apply (emit_unique_box ek ps box (Z.min t k)); [dims|unfold k; lia|].
      now rewrite box_cells_map.
Qed.


(** Lines 148-177 at the longer horizon. *)
Lemma good_pushes (c : clause) : In c (push_clauses eT) -> good c.
Proof.
  unfold push_clauses. intros H.
  apply in_flat_map in H. destruct H as (x & Hx & H).
  apply in_flat_map in H. destruct H as (y & Hy & H).
  apply in_flat_map in H. destruct H as (t & Ht & H).
  apply in_flat_map in H. destruct H as (move & Hm & H).
  apply in_range in Ht, Hx, Hy, Hm. cbv zeta in H.
  set (nx := fst (step move x y)) in *. set (ny := snd (step move x y)) in *.
  set (bx := fst (step move nx ny)) in *. set (by_ := snd (step move nx ny)) in *.
  assert (Hahead : push_ahead eT x y t move
            = map (lit eT) ([(false, Move (move + 5) t); (false, Player x y (t - 1))]
                            ++ map (fun box => (true, Box (box + 1) nx ny (t - 1)))
                                   (range 0 (num_boxes ek)))).
  { unfold push_ahead. cbv zeta. rewrite map_app, map_map. reflexivity. }
  destruct (Z.ltb_spec t (T ek)) as [Hlt|Hge].
  - (* a step of the shorter horizon: the same clause is emitted there *)
    pose proof (emit_push ek ps x y t move ltac:(dims) ltac:(dims) ltac:(dims)) as Hin.
    change (off_grid ek) with (off_grid eT) in Hin.
    fold nx ny in Hin. fold bx by_ in Hin.
    destruct (off_grid eT nx ny || off_grid eT bx by_) eqn:Eoff.
    + destruct H as [<-|[]].
      apply (pad_early [(false, Move (move + 5) t); (false, Player x y (t - 1))]);
        [reflexivity|all_facts|].
      unfold_lits. rewrite !Z.min_l by lia. apply Hin. now left.
    + apply orb_false_iff in Eoff. destruct Eoff as [E1 E2].
      apply off_grid_false in E1, E2.
      apply in_app_iff in H. destruct H as [H|[<-|[]]].
      * apply in_flat_map in H. destruct H as (box & Hb & H). apply in_range in Hb.
        assert (Hbox : forall c', In c' ([push_follow ek x y t move box;
                                          push_moved ek x y t move box]
                                         ++ push_frame ek x y t move box) ->
                                  In c' (encode_clauses ek ps)).
        { intros c' Hc'. apply Hin. apply in_app_iff. left.
          apply in_flat_map. exists box. split; [apply in_range; dims|exact Hc']. }
        apply in_app_iff in H. destruct H as [[<-|[<-|[]]]|H].
        -- apply (pad_early [(false, Move (move + 5) t); (false, Player x y (t - 1));
                             (false, Box (box + 1) nx ny (t - 1));
                             (true, Player nx ny t)]); [reflexivity|all_facts|].
           unfold_lits. rewrite !Z.min_l by lia. apply Hbox. now left.
        -- apply (pad_early [(false, Move (move + 5) t); (false, Player x y (t - 1));
                             (false, Box (box + 1) nx ny (t - 1));
                             (true, Box (box + 1) bx by_ t)]); [reflexivity|all_facts|].
           unfold_lits. rewrite !Z.min_l by lia. apply Hbox. right. now left.
        -- unfold push_frame in H. cbv zeta in H.
           apply in_flat_map in H. destruct H as (px & Hpx & H).
           apply in_flat_map in H. destruct H as (py & Hpy & H).
           apply in_range in Hpx, Hpy.
           destruct (negb (pair_eqb (px, py) (step move x y))) eqn:Eneq;
             [|contradiction].
           destruct H as [<-|[]].
           apply (pad_early [(false, Move (move + 5) t); (false, Player x y (t - 1));
                             (false, Box (box + 1) px py (t - 1));
                             (true, Box (box + 1) px py t)]); [reflexivity|all_facts|].
           unfold_lits. rewrite !Z.min_l by lia. apply Hbox.
           right. right. unfold push_frame. cbv zeta.
           apply in_flat_map. exists px. split; [apply in_range; dims|].
           apply in_flat_map. exists py. split; [apply in_range; dims|].
           rewrite Eneq. now left.
      * apply (pad_early _ _ Hahead).
        -- apply Forall_app. split; [all_facts|].
           apply Forall_forall. intros sf Hsf. apply in_map_iff in Hsf.
           destruct Hsf as (box & <- & Hb). apply in_range in Hb. dims.
        -- rewrite map_map, map_app, map_map. unfold_lits.
           rewrite !Z.min_l by lia. apply Hin. apply in_app_iff. right. now left.
  - (* a later step: the action is the stay, and every push clause is
       guarded by a push *)
    destruct (off_grid eT nx ny || off_grid eT bx by_) eqn:Eoff.
    + destruct H as [<-|[]].
      apply (good_guarded (move + 5) t [(false, Player x y (t - 1))]);
        [reflexivity|all_facts|lia|lia].
    + apply orb_false_iff in Eoff. destruct Eoff as [E1 E2].
      apply off_grid_false in E1, E2.
      apply in_app_iff in H. destruct H as [H|[<-|[]]].
      * apply in_flat_map in H. destruct H as (box & Hb & H). apply in_range in Hb.
        apply in_app_iff in H. destruct H as [[<-|[<-|[]]]|H].
        -- apply (good_guarded (move + 5) t
                    [(false, Player x y (t - 1)); (false, Box (box + 1) nx ny (t - 1));
                     (true, Player nx ny t)]); [reflexivity|all_facts|lia|lia].
        -- apply (good_guarded (move + 5) t
                    [(false, Player x y (t - 1)); (false, Box (box + 1) nx ny (t - 1));
                     (true, Box (box + 1) bx by_ t)]); [reflexivity|all_facts|lia|lia].
        -- unfold push_frame in H. cbv zeta in H.
           apply in_flat_map in H. destruct H as (px & Hpx & H).
           apply in_flat_map in H. destruct H as (py & Hpy & H).
           apply in_range in Hpx, Hpy.
           destruct (negb (pair_eqb (px, py) (step move x y))); [|contradiction].
           destruct H as [<-|[]].
           apply (good_guarded (move + 5) t
                    [(false, Player x y (t - 1)); (false, Box (box + 1) px py (t - 1));
                     (true, Box (box + 1) px py t)]); [reflexivity|all_facts|lia|lia].
      * apply (good_guarded (move + 5) t
                 ([(false, Player x y (t - 1))]
                  ++ map (fun box => (true, Box (box + 1) nx ny (t - 1)))
                         (range 0 (num_boxes ek)))); [exact Hahead| |lia|lia].
        apply Forall_cons; [dims|]. apply Forall_cons; [dims|].
        apply Forall_forall. intros sf Hsf. apply in_map_iff in Hsf.
        destruct Hsf as (box & <- & Hb). apply in_range in Hb. dims.
Qed.

(** Every clause of the longer horizon is good. *)
Lemma good_encode (c : clause) : In c (encode_clauses eT ps) -> good c.
Proof.
  unfold encode_clauses. rewrite !in_app_iff.
  intros [H|[H|[H|[H|[H|[H|[H|H]]]]]]].
  - now apply good_initial.
  - now apply good_moves.
  - now apply good_pushes.
  - now apply good_overlap.
  - now apply good_goal.
  - now apply good_actions.
  - now apply good_unique.
  - now apply good_stay.
Qed.

(** The padded valuation, listed as a model, is a model of the clauses of
    the longer horizon. *)
Lemma padded_model :
  is_model (model_of (pad_val ek eT v) (total_var_count eT)) (encode_clauses eT ps)
  = true.
Proof.
  apply model_of_is_model.
  - intros c Hc. now apply good_encode.
  - intros c l Hc Hl. now apply (proj1 (good_encode c Hc)).
Qed.

End Padding.

(** ** The reference solver is a solver *)

Lemma model_shape_intro (m : list Z) :
  (forall i x, m !! i = Some x -> Z.abs x = Z.of_nat (S i)) -> model_shape m = true.
Proof.
  intros H. unfold model_shape. apply forallb_forall. intros [i x] Hin. cbn.
  apply Z.eqb_eq.
  destruct (In_nth _ _ (0%nat, 0) Hin) as (j & Hj & E).
  rewrite length_combine, length_seq, Nat.min_id in Hj.
  rewrite combine_nth, seq_nth in E by (now rewrite ?length_seq).
  injection E as <- <-. cbn [Nat.add]. apply H.
  destruct (lookup_lt_is_Some_2 m j Hj) as [y Ey]. rewrite Ey. f_equal.
  symmetry. now apply nth_lookup_Some.
Qed.

Lemma in_assignments (n : nat) (m : list Z) :
  length m = n -> model_shape m = true -> In m (assignments n).
Proof.
  revert m. induction n as [|n IH]; intros m Hlen Hs.
  - destruct m; [now left|discriminate].
  - destruct (@exists_last _ m) as (m' & x & ->); [now intros ->|].
    rewrite length_app in Hlen. cbn in Hlen.
    assert (Hm' : length m' = n) by lia.
    assert (Hx : Z.abs x = Z.of_nat (S n)).
    { apply (model_shape_lookup (m' ++ [x]) n x Hs).
      rewrite lookup_app_r by lia. now replace (n - length m')%nat with 0%nat by lia. }
    cbn [assignments]. apply in_flat_map. exists m'. split.
    + apply IH; [assumption|].
      apply model_shape_intro. intros i y Hy.
      apply (model_shape_lookup (m' ++ [x]) i y Hs).
      rewrite lookup_app_l; [assumption|]. eapply lookup_lt_Some; eauto.
    + destruct (Z.abs_spec x) as [[_ E]|[_ E]]; rewrite E in Hx.
      * left. now rewrite Hx.
      * right. left. f_equal. f_equal. lia.
Qed.

Lemma max_var_ge (f : cnf) (c : clause) (l : Z) :
  In c f -> In l c -> Z.abs l <= max_var f.
Proof.
  intros Hc Hl. unfold max_var.
  assert (Hin : In (Z.abs l) (map Z.abs (concat f))).
  { apply in_map, in_concat. eauto. }
  induction (map Z.abs (concat f)) as [|a ls IH]; [contradiction|].
  cbn. destruct Hin as [->|Hin]; [lia|]. specialize (IH Hin). lia.
Qed.

Lemma max_var_nonneg (f : cnf) : 0 <= max_var f.
Proof.
  unfold max_var. induction (map Z.abs (concat f)) as [|a ls IH]; cbn; lia.
Qed.

Lemma max_var_le (f : cnf) (m : list Z) :
  is_model m f = true -> max_var f <= len m.
Proof.
  intros Hm. unfold max_var.
  assert (H : forall a, In a (map Z.abs (concat f)) -> a <= len m).
  { intros a Ha. apply in_map_iff in Ha. destruct Ha as (l & <- & Hl).
    apply in_concat in Hl. destruct Hl as (c & Hc & Hl).
    pose proof (is_model_range m f c l Hm Hc Hl). lia. }
  induction (map Z.abs (concat f)) as [|a ls IH]; cbn.
  - unfold len. lia.
  - assert (a <= len m) by (apply H; now left).
    assert (fold_right Z.max 0 ls <= len m) by (apply IH; intros b Hb; apply H; now right).
    lia.
Qed.

(** A model cut to the variables of the formula is still a model. *)
Lemma is_model_firstn (f : cnf) (m : list Z) :
  is_model m f = true -> is_model (firstn (Z.to_nat (max_var f)) m) f = true.
Proof.
  intros Hm. pose proof (max_var_le f m Hm) as Hle.
  pose proof (max_var_nonneg f) as Hnn.
  set (n := Z.to_nat (max_var f)).
  assert (Hlen : length (firstn n m) = n).
  { rewrite length_firstn. unfold len in Hle. lia. }
  pose proof Hm as Hm0. unfold is_model in Hm. apply andb_true_iff in Hm.
  destruct Hm as [Hs Hf]. unfold is_model. apply andb_true_iff. split.
  - apply model_shape_intro. intros i y Hy.
    apply (model_shape_lookup m i y Hs).
    apply lookup_take_Some in Hy. tauto.
  - rewrite forallb_forall in *. intros c Hc. specialize (Hf c Hc).
    unfold clause_ok in *. apply andb_true_iff in Hf. destruct Hf as [Hr Hh].
    apply andb_true_iff. split.
    + apply forallb_forall. intros l Hl.
      pose proof (max_var_ge f c l Hc Hl) as Hl1.
      pose proof (is_model_range m f c l Hm0 Hc Hl) as Hl2.
      unfold lit_in_range, len. rewrite Hlen.
      apply andb_true_iff. split.
      * apply negb_true_iff, Z.eqb_neq. lia.
      * apply Z.leb_le. lia.
    + apply existsb_exists. apply existsb_exists in Hh.
      destruct Hh as (l & Hl & Hh). exists l. split; [assumption|].
      pose proof (max_var_ge f c l Hc Hl) as Hl1.
      pose proof (is_model_range m f c l Hm0 Hc Hl) as Hl2.
      unfold lit_holds in *. rewrite lookup_take_lt by lia. exact Hh.
Qed.

Lemma brute_force_sat_oracle : sat_oracle brute_force.
Proof.
  intros f. unfold brute_force.
  destruct (find _ _) as [m|] eqn:E.
  - now apply find_some in E.
  - intros [m Hm]. pose proof (is_model_firstn f m Hm) as Hm'.
    apply find_none with (x := firstn (Z.to_nat (max_var f)) m) in E;
      [cbv beta in E; congruence|].
    apply in_assignments.
    + rewrite length_firstn. pose proof (max_var_le f m Hm) as Hle.
      unfold len in Hle. lia.
    + unfold is_model in Hm'. now apply andb_true_iff in Hm'.
Qed.

(** ** Question2: horizon monotonicity *)

Section Horizon.

Import Sokoban Examples.

Lemma init_with_horizon (g : list (list string)) (k0 T0 : Z) (ek : SokobanEncoder) :
  __init__ g k0 = Ok ek -> __init__ g T0 = Ok (with_horizon ek (T0 + 1)).
Proof.
  unfold __init__. destruct (py_get g 0) as [row0|]; [|discriminate]. cbn [rbind].
  destruct (_parse_grid _ _ _ _) as [s|]; [|discriminate]. cbn [rbind].
  intros E. injection E as <-. reflexivity.
Qed.

Lemma encode_without_player (e : SokobanEncoder) :
  player_start e = None -> encode e = Raise TypeError.
Proof. intros H. unfold encode, encode_initial. now rewrite H. Qed.

(** The clause list of an encoder that [__init__] built and [encode]
    encoded. *)
Lemma encode_inv (g : list (list string)) (T0 : Z) (e : SokobanEncoder) (f : cnf) :
  __init__ g T0 = Ok e -> 0 <= T0 -> encode e = Ok f ->
  exists ps, player_start e = Some ps /\ f = encode_clauses e ps.
Proof.
  intros Hinit HT0 Hf. destruct (init_wf g T0 e Hinit) as (Hwf & HT & _).
  destruct (player_start e) as [ps|] eqn:Eps.
  - exists ps. split; [reflexivity|].
    rewrite (encode_ok e Hwf ltac:(lia) ps Eps) in Hf. now injection Hf.
  - rewrite (encode_without_player e Eps) in Hf. discriminate.
Qed.

(** Satisfiability goes from a horizon to every longer one: the plan is
    padded with stays. *)
Lemma longer_horizon_satisfiable
    (g : list (list string)) (k0 T0 : Z) (ek : SokobanEncoder) (fk : cnf) :
  0 <= k0 <= T0 -> __init__ g k0 = Ok ek -> encode ek = Ok fk -> satisfiable fk ->
  exists eT fT, __init__ g T0 = Ok eT /\ encode eT = Ok fT /\ satisfiable fT.
Proof.
  intros Hk Hinit Hfk [m Hm].
  destruct (init_wf g k0 ek Hinit) as (Hwf & HT & _).
  destruct (encode_inv g k0 ek fk Hinit ltac:(lia) Hfk) as (ps & Hps & ->).
  pose proof (init_with_horizon g k0 T0 ek Hinit) as HinitT.
  destruct (init_wf g T0 _ HinitT) as (HwfT & HTT & _).
  exists (with_horizon ek (T0 + 1)), (encode_clauses (with_horizon ek (T0 + 1)) ps).
  split; [assumption|]. split.
  - apply encode_ok; [assumption|cbn; lia|exact Hps].
  - exists (pad_model ek (with_horizon ek (T0 + 1)) m).
    apply padded_model; try assumption; [lia|now apply is_model_sat].
Qed.

Lemma model_covers_actions (e : SokobanEncoder) (ps : Z * Z) (m : list Z) :
  dims_ok e -> 1 <= T e -> is_model m (encode_clauses e ps) = true ->
  (T e + 1) * N e * M e + 9 * T e <= len m.
Proof.
  intros dims HT Hm.
  pose proof (is_model_range m _ (map (fun i => id_move e i (T e - 1)) (range 1 10))
                (id_move e 9 (T e - 1)) Hm) as Hr.
  assert (Hpos : 0 < id_move e 9 (T e - 1)) by (apply id_move_pos; (assumption || lia)).
  assert (E : id_move e 9 (T e - 1) = (T e + 1) * N e * M e + 9 * T e)
    by (unfold id_move; ring).
  rewrite <- E. enough (1 <= Z.abs (id_move e 9 (T e - 1)) <= len m) by lia.
  apply Hr.
  - apply emit_action_some. lia.
  - apply in_map_iff. exists 9. split; [reflexivity|apply in_range; lia].
Qed.

(** C4.  With a solver that answers SAT exactly on the satisfiable clause
    lists, if [solve_sokoban] returns a move sequence at horizon [k] it
    returns one at every horizon [T >= k]. *)
Theorem longer_horizon_solvable
    (oracle : cnf -> option (list Z)) (g : list (list string)) (k0 T0 : Z)
    (plan : list string) :
  0 <= k0 <= T0 -> sat_oracle oracle ->
  solve_sokoban oracle g k0 = Ok (Moves plan) ->
  exists plan', solve_sokoban oracle g T0 = Ok (Moves plan').
Proof.
  intros Hk Horacle Hsolve. unfold solve_sokoban in Hsolve.
  destruct (__init__ g k0) as [ek|] eqn:Hinit; [|discriminate]. cbn [rbind] in Hsolve.
  destruct (encode ek) as [fk|] eqn:Hfk; [|discriminate]. cbn [rbind] in Hsolve.
  assert (Hsat : satisfiable fk).
  { destruct (solver_answer oracle fk) as [a|] eqn:Ea; [|discriminate].
    apply solver_answer_inv in Ea. destruct Ea as [_ Ea]. cbn [rbind] in Hsolve.
    pose proof (Horacle fk) as Ho. rewrite Ea in Ho.
    destruct a as [m|]; [|discriminate]. now exists m. }
  destruct (longer_horizon_satisfiable g k0 T0 ek fk Hk Hinit Hfk Hsat)
    as (eT & fT & HinitT & HfT & HsatT).
  unfold solve_sokoban. rewrite HinitT. cbn [rbind]. rewrite HfT. cbn [rbind].
  rewrite solver_answer_ok
    by (destruct HsatT as (mT & HmT); now apply (is_model_no_zero mT)).
  cbn [rbind].
  pose proof (Horacle fT) as Ho. destruct (oracle fT) as [m'|]; [|contradiction].
  destruct (init_wf g T0 eT HinitT) as (HwfT & HTT & _).
  assert (dimsT : dims_ok eT) by (apply wf_dims; [assumption|lia]).
  destruct (encode_inv g T0 eT fT HinitT ltac:(lia) HfT) as (ps & Hps & ->).
  pose proof (model_covers_actions eT ps m' dimsT ltac:(lia) Ho) as Hlen.
  rewrite (decode_actions eT m' dimsT) by (intros _; exact Hlen). cbn [rbind].
  destruct m' as [|x m'].
  - exfalso. destruct dimsT as (HN & HM & _ & _). unfold len in Hlen. cbn in Hlen. nia.
  - eexists. reflexivity.
Qed.

(** C4 from horizon 0 to horizon 1 on the level with only the player, with
    the reference solver. *)
Lemma longer_horizon_solvable_witness :
  exists plan', solve_sokoban brute_force level_alone 1 = Ok (Moves plan').
Proof.
  apply (longer_horizon_solvable brute_force level_alone 0 1 []).
  - lia.
  - exact brute_force_sat_oracle.
  - vm_compute. reflexivity.
Defined.

End Horizon.

(** ** The properties at the example instances *)

Section Instances.

Import Sudoku Sokoban Examples.

Lemma init_level1 : __init__ level1 1 = Ok encoder1.
Proof. vm_compute. reflexivity. Qed.

Lemma plan1_unique : cnf_sat (var_true plan1) (unique_clauses encoder1).
Proof. apply is_model_sat. vm_compute. reflexivity. Qed.

(** C3 on the one-row level: the push to the right at step 1. *)
Lemma pushed_box_frame_guards_false_witness :
  (forall px py, on_grid encoder1 px py -> (px, py) <> step 1 0 0 ->
     var_true plan1 (id_box encoder1 (0 + 1) px py (1 - 1)) = false) /\
  cnf_sat (var_true plan1) (push_frame encoder1 0 0 1 1 0) /\
  (cnf_sat (var_true plan1)
     (push_moved encoder1 0 0 1 1 0 :: push_frame encoder1 0 0 1 1 0) <->
   var_true plan1
     (id_box encoder1 (0 + 1)
        (fst (step 1 (fst (step 1 0 0)) (snd (step 1 0 0))))
        (snd (step 1 (fst (step 1 0 0)) (snd (step 1 0 0)))) 1) = true) /\
  (cnf_sat (var_true plan1)
     (push_moved encoder1 0 0 1 1 0 :: push_frame encoder1 0 0 1 1 0) ->
   forall px py, on_grid encoder1 px py ->
     var_true plan1 (id_box encoder1 (0 + 1) px py 1) = true ->
     (px, py) = step 1 (fst (step 1 0 0)) (snd (step 1 0 0))).
Proof.
  apply (pushed_box_frame_guards_false level1 1 encoder1 (var_true plan1) 0 0 1 1 0).
  - exact init_level1.
  - lia.
  - exact plan1_unique.
  - unfold on_grid. cbn. lia.
  - lia.
  - lia.
  - cbn. lia.
  - unfold on_grid. cbn. lia.
  - unfold on_grid. cbn. lia.
  - reflexivity.
  - reflexivity.
  - reflexivity.
Defined.

(** C6 on the one-row level and its one-push plan. *)
Lemma decode_reads_plan_witness :
  (forall t, 0 <= t <= 1 ->
     1 <= action_at encoder1 plan1 t <= 9 /\
     forall num, 1 <= num <= 9 ->
       (var_true plan1 (id_move encoder1 num t) = true
        <-> num = action_at encoder1 plan1 t)) /\
  action_at encoder1 plan1 0 = 9 /\
  decode encoder1 plan1
  = Ok (flat_map (fun t => symbol (action_at encoder1 plan1 t)) (range 1 (1 + 1))).
Proof.
  apply (decode_reads_plan level1 1 encoder1 plan1).
  - exact init_level1.
  - lia.
  - vm_compute. reflexivity.
Defined.


(** The clause list of the one-row level at horizon 0, traced by hand from
    q2.py: player at (0,0), box 1 at (0,1), the three goal facts, the stay at
    step 0; the overlap clauses; the goal clauses; the action clauses; the
    uniqueness clauses.  There is no step 1, so no move, push or stay
    clause. *)
Example encode_level1_horizon0 :
  (let* e := __init__ level1 0 in encode e)
  = Ok ([[4]; [17]; [-1]; [-2]; [3]; [15]]
        ++ [[-4; -16]; [-5; -17]; [-6; -18]]
        ++ [[-16; 1]; [-17; 2]; [-18; 3]]
        ++ pairwise_neg 9 [7; 8; 9; 10; 11; 12; 13; 14; 15]
        ++ [[7; 8; 9; 10; 11; 12; 13; 14; 15]]
        ++ [[4; 5; 6]; [-4; -5]; [-4; -6]; [-5; -6]]
        ++ [[16; 17; 18]; [-16; -17]; [-16; -18]; [-17; -18]]).
Proof. vm_compute. reflexivity. Qed.

(** The one-push plan is a model of the horizon-1 clauses and decodes to the
    push to the right. *)
Example solve_level1 :
  is_model plan1 (encode_clauses encoder1 (0, 0)) = true /\
  solve_sokoban (fun _ => Some plan1) level1 1 = Ok (Moves ["R"%string]).
Proof. split; vm_compute; reflexivity. Qed.

(** The 4-by-4 puzzle: 161 clauses, and the solution written in place. *)
Example solve_puzzle4 :
  length cnf4 = 161%nat /\
  snapshot (fst (solve_sudoku (fun _ => Some model4) (snd (alloc puzzle4))
                              (fst (alloc puzzle4))))
           (snd (alloc puzzle4)) = solved4.
Proof. split; vm_compute; reflexivity. Qed.

(** The horizon-1 plan of [level1], padded, is a model at horizon 2. *)
Lemma level1_longer_horizon :
  exists eT fT, __init__ level1 2 = Ok eT /\ encode eT = Ok fT /\ satisfiable fT.
Proof.
  apply (longer_horizon_satisfiable level1 1 2 encoder1
           (encode_clauses encoder1 (0, 0))).
  - lia.
  - exact init_level1.
  - vm_compute. reflexivity.
  - exists plan1. vm_compute. reflexivity.
Qed.

End Instances.

(** * Further properties of the two programs *)

(** ** Loops that raise *)

Lemma for_raise {A B} (xs : list A) (body : A -> result (list B)) (e : exn) :
  (forall x, In x xs -> body x = Raise e \/ exists l, body x = Ok l) ->
  (exists x, In x xs /\ body x = Raise e) ->
  for_ xs body = Raise e.
Proof.
  induction xs as [|x xs IH]; intros Hall (y & Hy & Ey); [contradiction|].
  cbn. destruct (Hall x (or_introl eq_refl)) as [E|(l & E)]; rewrite E; cbn;
    [reflexivity|].
  rewrite IH; [reflexivity| |].
  - intros z Hz. apply Hall. now right.
  - destruct Hy as [->|Hy]; [congruence|]. now exists y.
Qed.

Lemma py_get_cases {A} (l : list A) (i : Z) :
  py_get l i = Raise IndexError \/ exists x, py_get l i = Ok x.
Proof.
  unfold py_get. destruct (py_index _ _); [|now left].
  destruct (l !! n); [right; eauto|now left].
Qed.

Lemma py_get_out {A} (l : list A) (i : Z) :
  len l <= i -> py_get l i = Raise IndexError.
Proof.
  intros H. unfold py_get, py_index, len in *.
  destruct (Z.leb_spec 0 i), (Z.ltb_spec i (Z.of_nat (length l))); cbn; try lia;
    destruct (Z.ltb_spec i 0); cbn; try lia; reflexivity.
Qed.

Lemma for_raises {A B} (P : exn -> Prop) (xs : list A) (body : A -> result (list B)) :
  (forall x e, In x xs -> body x = Raise e -> P e) ->
  forall e, for_ xs body = Raise e -> P e.
Proof.
  induction xs as [|x xs IH]; intros Hall e; cbn; [discriminate|].
  destruct (body x) as [l|e'] eqn:E; cbn.
  - destruct (for_ xs body) as [l'|e''] eqn:E'; cbn; [discriminate|].
    intros [= <-]. apply IH; [|reflexivity].
    intros y e1 Hy. apply Hall. now right.
  - intros [= <-]. apply (Hall x); [now left|assumption].
Qed.

Lemma py_get_raises {A} (l : list A) (i : Z) (e : exn) :
  py_get l i = Raise e -> e = IndexError.
Proof. destruct (py_get_cases l i) as [->|(x & ->)]; congruence. Qed.

Lemma for_M_raises {A} (P : exn -> Prop) (xs : list A) (body : A -> Sudoku.M unit) :
  (forall x h h' e, In x xs -> body x h = (h', Raise e) -> P e) ->
  forall h h' e, Sudoku.for_M xs body h = (h', Raise e) -> P e.
Proof.
  induction xs as [|x xs IH]; intros Hall h h' e; cbn; [discriminate|].
  destruct (body x h) as [h1 [[]|e1]] eqn:E.
  - apply IH. intros y h2 h3 e2 Hy. apply Hall. now right.
  - intros [= <- <-]. apply (Hall x h h1); [now left|assumption].
Qed.

(** ** Question1: the edges of [solve_sudoku] *)

Section SudokuEdges.

Import Sudoku Examples.

Variable oracle : cnf -> option (list Z).

Lemma subgrid_clauses_total (n : Z) :
  0 < n -> exists subs, subgrid_clauses n (int_sqrt n) = Ok subs.
Proof.
  intros Hn. unfold subgrid_clauses, int_sqrt, range_step.
  assert (Hs : 0 < Z.sqrt n) by now apply Z.sqrt_pos.
  destruct (Z.eqb_spec (Z.sqrt n) 0); [lia|].
  destruct (Z.ltb_spec 0 (Z.sqrt n)); [|lia]. cbn [rbind].
  eexists. apply for_ok. intros br _. cbn [rbind].
  apply for_ok. intros bc _. reflexivity.
Qed.

Lemma get_cell_raises (h : heap) (grid : list loc) (r c : Z) (e : exn) :
  get_cell h grid r c = Raise e -> e <> ValueError.
Proof.
  unfold get_cell. destruct (py_get grid r) as [l|e'] eqn:E; cbn.
  - destruct (h !! l); [|congruence].
    intros H. apply py_get_raises in H. congruence.
  - intros [= <-]. apply py_get_raises in E. congruence.
Qed.

Lemma set_cell_raises (grid : list loc) (r c v : Z) (h h' : heap) (e : exn) :
  set_cell grid r c v h = (h', Raise e) -> e <> ValueError.
Proof.
  unfold set_cell. destruct (py_get grid r) as [l|e'] eqn:E.
  - destruct (h !! l); [|congruence]. destruct (py_index _ _); congruence.
  - intros [= <- <-]. apply py_get_raises in E. congruence.
Qed.

Lemma scan_values_raises (n : Z) (m : list Z) (r c : Z) (nums : list Z) (e : exn) :
  scan_values n m r c nums = Raise e -> e = IndexError.
Proof.
  induction nums as [|num nums IH]; cbn; [discriminate|].
  destruct (py_get m _) as [x|e'] eqn:E; cbn.
  - destruct (0 <? x); [discriminate|assumption].
  - intros [= <-]. now apply py_get_raises in E.
Qed.

Lemma for_inv {A B} (xs : list A) (body : A -> result (list B)) (l : list B) (y : B) :
  for_ xs body = Ok l -> In y l ->
  exists x lx, In x xs /\ body x = Ok lx /\ In y lx.
Proof.
  revert l. induction xs as [|x xs IH]; intros l; cbn.
  - intros [= <-] [].
  - destruct (body x) as [lx|] eqn:Ex; [|discriminate]. cbn [rbind].
    destruct (for_ xs body) as [l'|]; [|discriminate]. cbn [rbind].
    intros [= <-] Hy. apply in_app_or in Hy. destruct Hy as [Hy|Hy].
    + exists x, lx. auto.
    + destruct (IH l' eq_refl Hy) as (x' & lx' & Hx' & E' & Hy').
      exists x', lx'. auto.
Qed.

Lemma for_fwd {A B} (xs : list A) (body : A -> result (list B)) (l lx : list B)
      (x : A) :
  for_ xs body = Ok l -> In x xs -> body x = Ok lx -> incl lx l.
Proof.
  revert l. induction xs as [|x' xs IH]; intros l; cbn; [intros _ []|].
  destruct (body x') as [lx'|] eqn:Ex; [|discriminate]. cbn [rbind].
  destruct (for_ xs body) as [l'|]; [|discriminate]. cbn [rbind].
  intros [= <-] [->|Hx] E y Hy; apply in_or_app.
  - left. congruence.
  - right. now apply (IH l' eq_refl Hx E).
Qed.

Lemma for_each_ok {A B} (xs : list A) (body : A -> result (list B)) (l : list B)
      (x : A) :
  for_ xs body = Ok l -> In x xs -> exists lx, body x = Ok lx.
Proof.
  revert l. induction xs as [|x' xs IH]; intros l; cbn; [intros _ []|].
  destruct (body x') as [lx'|] eqn:Ex; [|discriminate]. cbn [rbind].
  destruct (for_ xs body) as [l'|]; [|discriminate]. cbn [rbind].
  intros _ [->|Hx]; [now exists lx'|]. now apply (IH l').
Qed.

(** The clauses that do not depend on the givens have no literal 0. *)
Lemma fixed_clauses_nonzero (n : Z) (cl : clause) (l : Z) :
  0 <= n -> In cl (cell_clauses n ++ row_clauses n ++ col_clauses n) ->
  In l cl -> l <> 0.
Proof.
  intros Hn Hcl Hl.
  assert (Hpos : forall r c num, 0 <= r -> 0 <= c -> 1 <= num -> 1 <= prop n r c num)
    by (intros r c num; apply prop_pos; assumption).
  apply in_app_or in Hcl. destruct Hcl as [Hcl|Hcl].
  { unfold cell_clauses in Hcl.
    apply in_flat_map in Hcl. destruct Hcl as (r & Hr & Hcl).
    apply in_flat_map in Hcl. destruct Hcl as (c & Hc & Hcl).
    apply in_range in Hr, Hc. destruct Hcl as [<-|Hcl].
    - apply in_map_iff in Hl. destruct Hl as (num & <- & Hnum).
      apply in_range in Hnum. pose proof (Hpos r c num). lia.
    - apply pairwise_neg_inv in Hcl. destruct Hcl as (i & j & Hi & Hj & ->).
      rewrite !(nth_cell_clause n) in Hl by lia.
      pose proof (Hpos r c (i + 1)). pose proof (Hpos r c (j + 1)).
      destruct Hl as [<-|[<-|[]]]; lia. }
  apply in_app_or in Hcl. destruct Hcl as [Hcl|Hcl].
  { unfold row_clauses in Hcl.
    apply in_flat_map in Hcl. destruct Hcl as (r & Hr & Hcl).
    apply in_map_iff in Hcl. destruct Hcl as (num & <- & Hnum).
    apply in_map_iff in Hl. destruct Hl as (c & <- & Hc).
    apply in_range in Hr, Hnum, Hc. pose proof (Hpos r c num). lia. }
  unfold col_clauses in Hcl.
  apply in_flat_map in Hcl. destruct Hcl as (c & Hc & Hcl).
  apply in_map_iff in Hcl. destruct Hcl as (num & <- & Hnum).
  apply in_map_iff in Hl. destruct Hl as (r & <- & Hr).
  apply in_range in Hr, Hnum, Hc. pose proof (Hpos r c num). lia.
Qed.

Lemma subgrid_clauses_nonzero (n s : Z) (subs : cnf) (cl : clause) (l : Z) :
  0 <= n -> 0 < s -> subgrid_clauses n s = Ok subs ->
  In cl subs -> In l cl -> l <> 0.
Proof.
  intros Hn Hs E Hcl Hl. unfold subgrid_clauses, range_step in E.
  destruct (Z.eqb_spec s 0); [lia|]. destruct (Z.ltb_spec 0 s); [|lia].
  cbn [rbind] in E.
  destruct (for_inv _ _ _ _ E Hcl) as (br & lx & Hbr & Ex & Hcl1).
  destruct (for_inv _ _ _ _ Ex Hcl1) as (bc & lc & Hbc & [= <-] & Hcl2).
  apply in_map_iff in Hbr, Hbc.
  destruct Hbr as (i & <- & _), Hbc as (j & <- & _).
  apply in_map_iff in Hcl2. destruct Hcl2 as (num & <- & Hnum).
  apply in_range in Hnum. unfold subgrid_clause in Hl.
  apply in_flat_map in Hl. destruct Hl as (r & Hr & Hl).
  apply in_map_iff in Hl. destruct Hl as (c & <- & Hc).
  apply in_range in Hr, Hc.
  pose proof (prop_pos n Hn r c num). nia.
Qed.

(** The literal 0 among the clauses of the givens: a given [v] at [(r, c)]
    with [prop(r, c, v) = 0]. *)
Lemma given_clauses_zero (n : Z) (h : heap) (grid : list loc) (given : cnf) :
  given_clauses n h grid = Ok given ->
  (exists cl, In cl given /\ In 0 cl) <->
  exists r c v, 0 <= r < n /\ 0 <= c < n /\
    get_cell h grid r c = Ok v /\ v <> 0 /\ prop n r c v = 0.
Proof.
  intros E. unfold given_clauses in E. split.
  - intros (cl & Hcl & H0).
    destruct (for_inv _ _ _ _ E Hcl) as (r & lr & Hr & Er & Hcl1).
    destruct (for_inv _ _ _ _ Er Hcl1) as (c & lc & Hc & Ec & Hcl2).
    apply in_range in Hr, Hc.
    destruct (get_cell h grid r c) as [v|] eqn:Ev; [|discriminate]. cbn [rbind] in Ec.
    destruct (Z.eqb_spec v 0); injection Ec as <-; [contradiction|].
    destruct Hcl2 as [<-|[]]. destruct H0 as [H0|[]].
    exists r, c, v. auto.
  - intros (r & c & v & Hr & Hc & Ev & Hv & Hp).
    exists [prop n r c v]. split; [|left; assumption].
    destruct (for_each_ok _ _ _ r E) as (lr & Er); [now apply in_range|].
    apply (for_fwd _ _ given lr r E); [now apply in_range|exact Er|].
    apply (for_fwd _ _ lr [[prop n r c v]] c Er); [now apply in_range| |now left].
    rewrite Ev. cbn [rbind]. now destruct (Z.eqb_spec v 0).
Qed.

(** [solve_sudoku] raises [ValueError] in two cases and no other, whatever
    the solver: on the empty grid, where [range(0, n, sub_n)] has step zero;
    and when every given can be read and one of them, [v] at [(r, c)], makes
    the literal [prop(r, c, v)] zero, which the solver refuses when it is
    built at line 69. *)
Theorem solve_sudoku_value_error_iff (h : heap) (grid : list loc) :
  (exists h', solve_sudoku oracle grid h = (h', Raise ValueError)) <->
  grid = [] \/
  ((exists f, sudoku_cnf h grid = Ok f) /\
   exists r c v, 0 <= r < len grid /\ 0 <= c < len grid /\
     get_cell h grid r c = Ok v /\ v <> 0 /\ prop (len grid) r c v = 0).
Proof.
  split.
  - intros (h' & E). destruct grid as [|l grid]; [now left|right].
    set (g := l :: grid) in *.
    assert (Hn : 0 < len g) by (unfold len, g; cbn [length]; lia).
    unfold solve_sudoku in E.
    destruct (sudoku_cnf h g) as [f|e] eqn:Ef.
    + split; [now exists f|]. unfold sudoku_cnf in Ef.
      destruct (subgrid_clauses (len g) (int_sqrt (len g))) as [subs|] eqn:Es;
        [|discriminate]. cbn [rbind] in Ef.
      destruct (given_clauses (len g) h g) as [given|] eqn:Eg; [|discriminate].
      cbn [rbind] in Ef. injection Ef as <-.
      destruct (solver_answer oracle _) as [[m|]|e] eqn:Ea.
      * exfalso.
        destruct (decode_grid (len g) m g h) as [h1 [[]|e]] eqn:Ed; [discriminate|].
        injection E as <- ->. unfold decode_grid in Ed.
        apply (for_M_raises (fun e => e <> ValueError)) in Ed; [congruence|].
        intros r h2 h3 e _.
        apply (for_M_raises (fun e => e <> ValueError)).
        intros c h4 h5 e' _. unfold decode_cell.
        destruct (scan_values _ _ _ _ _) as [[num|]|e1] eqn:Esc.
        -- apply set_cell_raises.
        -- discriminate.
        -- intros [= <- <-]. apply scan_values_raises in Esc. congruence.
      * discriminate.
      * unfold solver_answer in Ea.
        destruct (has_zero _) eqn:Ez; [|discriminate].
        apply has_zero_true in Ez. destruct Ez as (cl & Hcl & H0).
        apply (given_clauses_zero (len g) h g given Eg).
        rewrite !app_assoc in Hcl. apply in_app_or in Hcl.
        destruct Hcl as [Hcl|Hcl]; [exfalso|now exists cl].
        apply in_app_or in Hcl. destruct Hcl as [Hcl|Hcl].
        -- rewrite <- !app_assoc in Hcl.
           now apply (fixed_clauses_nonzero (len g) cl 0 ltac:(lia) Hcl).
        -- refine (subgrid_clauses_nonzero (len g) (int_sqrt (len g)) subs cl 0
                     _ _ Es Hcl H0 eq_refl); [lia|now apply Z.sqrt_pos].
    + exfalso. injection E as <- ->. unfold sudoku_cnf in Ef.
      destruct (subgrid_clauses_total (len g) Hn) as (subs & Es).
      rewrite Es in Ef. cbn [rbind] in Ef.
      destruct (given_clauses (len g) h g) as [given|e] eqn:Eg; [discriminate|].
      cbn [rbind] in Ef. injection Ef as ->. unfold given_clauses in Eg.
      apply (for_raises (fun e => e <> ValueError)) in Eg; [congruence|].
      intros r e _. apply (for_raises (fun e => e <> ValueError)).
      intros c e' _. destruct (get_cell h g r c) as [v|e1] eqn:Ec; cbn.
      * destruct (v =? 0); discriminate.
      * intros [= <-]. now apply get_cell_raises in Ec.
  - intros [->|((f & Ef) & Hzero)]; [exists h; reflexivity|].
    exists h. unfold solve_sudoku. rewrite Ef.
    rewrite solver_answer_zero; [reflexivity|].
    unfold sudoku_cnf in Ef.
    destruct (subgrid_clauses (len grid) (int_sqrt (len grid))) as [subs|];
      [|discriminate]. cbn [rbind] in Ef.
    destruct (given_clauses (len grid) h grid) as [given|] eqn:Eg; [|discriminate].
    cbn [rbind] in Ef. injection Ef as <-.
    apply (given_clauses_zero (len grid) h grid given Eg) in Hzero.
    destruct Hzero as (cl & Hcl & H0).
    apply has_zero_true. exists cl. split; [|assumption].
    rewrite !in_app_iff. auto.
Qed.

(** A grid of [n > 0] allocated rows one of which has fewer than [n] cells:
    reading the givens raises [IndexError]; the solver is not called and
    nothing is written. *)
Theorem solve_sudoku_short_row (h : heap) (grid : list loc) (r : Z) (row : list Z) :
  (forall l, In l grid -> exists row', h !! l = Some row') ->
  0 <= r < len grid ->
  h !! nth (Z.to_nat r) grid 0%nat = Some row -> len row < len grid ->
  solve_sudoku oracle grid h = (h, Raise IndexError).
Proof.
  intros Halloc Hr Hrow Hshort. unfold solve_sudoku, sudoku_cnf.
  destruct (subgrid_clauses_total (len grid) ltac:(lia)) as (subs & ->).
  cbn [rbind]. unfold given_clauses.
  rewrite (for_raise _ _ IndexError); [reflexivity| |].
  - intros r' Hr'. apply in_range in Hr'.
    assert (Hcell : forall c, get_cell h grid r' c = Raise IndexError \/
                              exists x, get_cell h grid r' c = Ok x).
    { intros c. unfold get_cell. rewrite (py_get_in grid r' 0%nat) by lia.
      cbn [rbind]. destruct (Halloc (nth (Z.to_nat r') grid 0%nat)) as (row' & ->).
      { apply nth_In. unfold len in Hr'. lia. }
      apply py_get_cases. }
    set (body := fun c => let* v := get_cell h grid r' c in
                          if v =? 0 then Ok [] else Ok [[prop (len grid) r' c v]]).
    assert (Hbody : forall c, body c = Raise IndexError \/ exists l, body c = Ok l).
    { intros c. unfold body. destruct (Hcell c) as [->|(x & ->)]; cbn; [now left|].
      right. destruct (x =? 0); eauto. }
    destruct (for_ (range 0 (len grid)) body) as [l|e] eqn:E; [right; eauto|].
    left. f_equal.
    assert (Hgen : forall xs, for_ xs body = Raise e -> e = IndexError).
    { induction xs as [|c xs IH]; cbn; [discriminate|].
      destruct (Hbody c) as [->|(l & ->)]; cbn; [congruence|].
      destruct (for_ xs body); cbn; [discriminate|]. intros [= <-]. now apply IH. }
    now apply (Hgen _ E).
  - exists r. split; [now apply in_range|].
    apply for_raise.
    + intros c Hc. unfold get_cell. rewrite (py_get_in grid r 0%nat) by lia.
      cbn [rbind]. rewrite Hrow.
      destruct (py_get_cases row c) as [->|(x & ->)]; cbn; [now left|].
      right. destruct (x =? 0); eauto.
    + exists (len row). split; [apply in_range; unfold len in *; lia|].
      unfold get_cell. rewrite (py_get_in grid r 0%nat) by lia. cbn [rbind].
      rewrite Hrow, py_get_out by lia. reflexivity.
Qed.

End SudokuEdges.

(** ** Question1: the encoding is complete, and decoding inverts it *)

Lemma var_true_model_of (v : Z -> bool) (k x : Z) :
  1 <= x <= k -> var_true (model_of v k) x = v x.
Proof.
  intros Hx. unfold var_true.
  rewrite model_of_lookup by lia.
  replace (Z.of_nat (S (Z.to_nat (x - 1)))) with x by lia.
  destruct (v x); [apply Z.ltb_lt|apply Z.ltb_ge]; lia.
Qed.

Lemma lit_true_model_of (v : Z -> bool) (k l : Z) :
  1 <= Z.abs l <= k -> lit_true (var_true (model_of v k)) l = lit_true v l.
Proof.
  intros Hl. unfold lit_true.
  destruct (Z.ltb_spec 0 l); rewrite var_true_model_of by lia; reflexivity.
Qed.

(** A valuation whose listing satisfies a formula over [1..k] is listed by a
    model of the formula. *)
Lemma listed_is_model (v : Z -> bool) (k : Z) (f : cnf) :
  (forall c l, In c f -> In l c -> 1 <= Z.abs l <= k) ->
  cnf_sat (var_true (model_of v k)) f ->
  is_model (model_of v k) f = true.
Proof.
  intros Hr Hsat. apply model_of_is_model; [|assumption].
  intros c Hc. destruct (Hsat c Hc) as (l & Hl & Ht).
  exists l. split; [assumption|].
  now rewrite <- (lit_true_model_of v k) by now apply (Hr c).
Qed.

Section SudokuCnfParts.

Import Sudoku.

(** The clauses of [solve_sudoku] on a square grid, one family at a time. *)
Lemma sudoku_cnf_square_inv (h : heap) (grid : list loc) (s : Z) (f : cnf) (cl : clause) :
  0 < s -> square_grid h grid (s * s) -> sudoku_cnf h grid = Ok f -> In cl f ->
  In cl (cell_clauses (s * s)) \/ In cl (row_clauses (s * s)) \/
  In cl (col_clauses (s * s)) \/
  (exists br bc num, 0 <= br < s /\ 0 <= bc < s /\ 1 <= num <= s * s /\
     cl = subgrid_clause (s * s) s (s * br) (s * bc) num) \/
  (exists r c, 0 <= r < s * s /\ 0 <= c < s * s /\
     cell_of (snapshot h grid) r c <> 0 /\
     cl = [prop (s * s) r c (cell_of (snapshot h grid) r c)]).
Proof.
  intros Hs Hsq Hf Hin. pose proof Hsq as (Hlen & _ & _).
  unfold sudoku_cnf in Hf. rewrite Hlen in Hf. unfold int_sqrt in Hf.
  rewrite Z.sqrt_square in Hf by lia.
  rewrite subgrid_clauses_square in Hf by assumption.
  rewrite (given_clauses_square h grid (s * s) Hsq) in Hf. cbn [rbind] in Hf.
  injection Hf as <-.
  repeat (apply in_app_or in Hin; destruct Hin as [Hin|Hin]; [tauto|right]).
  apply in_app_or in Hin. destruct Hin as [Hin|Hin]; [left|right].
  - apply in_flat_map in Hin. destruct Hin as (br' & Hbr & Hin).
    apply in_map_iff in Hbr. destruct Hbr as (br & <- & Hbr).
    apply in_flat_map in Hin. destruct Hin as (bc' & Hbc & Hin).
    apply in_map_iff in Hbc. destruct Hbc as (bc & <- & Hbc).
    apply in_map_iff in Hin. destruct Hin as (num & <- & Hnum).
    apply in_range in Hbr, Hbc, Hnum.
    exists br, bc, num. repeat split; lia.
  - apply in_flat_map in Hin. destruct Hin as (r & Hr & Hin).
    apply in_flat_map in Hin. destruct Hin as (c & Hc & Hin).
    apply in_range in Hr, Hc. cbn in Hin.
    destruct (Z.eqb_spec (cell_of (snapshot h grid) r c) 0); [contradiction|].
    destruct Hin as [<-|[]]. exists r, c. repeat split; (lia || assumption).
Qed.

End SudokuCnfParts.

Lemma prop_gt0 (n r c num : Z) :
  0 <= n -> 0 <= r -> 0 <= c -> 1 <= num -> 0 < Sudoku.prop n r c num.
Proof. intros. pose proof (prop_pos n ltac:(lia) r c num). lia. Qed.

Section SudokuRoundTrip.

Import Sudoku.

Variable n : Z.
Hypothesis n_pos : 0 < n.
Variable sol : list (list Z).
Hypothesis sol_values :
  forall r c, 0 <= r < n -> 0 <= c < n -> 1 <= cell_of sol r c <= n.

Lemma grid_model_prop (r c num : Z) :
  0 <= r < n -> 0 <= c < n -> 1 <= num <= n ->
  var_true (grid_model n sol) (prop n r c num) = (cell_of sol r c =? num).
Proof.
  intros Hr Hc Hnum. unfold grid_model.
  rewrite var_true_model_of
    by (split; [apply prop_pos; lia|apply prop_le; lia]).
  unfold prop.
  replace ((r * n + c) * n + num - 1) with ((r * n + c) * n + (num - 1)) by lia.
  rewrite div_add_small, mod_add_small by lia.
  rewrite div_add_small, mod_add_small by lia.
  f_equal. lia.
Qed.

Lemma grid_model_cells : cnf_sat (var_true (grid_model n sol)) (cell_clauses n).
Proof.
  intros cl Hin. unfold cell_clauses in Hin.
  apply in_flat_map in Hin. destruct Hin as (r & Hr & Hin).
  apply in_flat_map in Hin. destruct Hin as (c & Hc & Hin).
  apply in_range in Hr, Hc. pose proof (sol_values r c Hr Hc) as Hv.
  destruct Hin as [<-|Hin].
  - exists (prop n r c (cell_of sol r c)). split.
    + unfold cell_clause. apply in_map_iff. eexists. split; [reflexivity|].
      apply in_range. lia.
    + rewrite lit_true_pos by (apply prop_gt0; lia).
      rewrite grid_model_prop by lia. apply Z.eqb_refl.
  - apply pairwise_neg_inv in Hin. destruct Hin as (i & j & Hi & Hj & ->).
    rewrite !nth_cell_clause by lia.
    destruct (Z.eq_dec (cell_of sol r c) (i + 1)) as [E|E].
    + exists (- prop n r c (j + 1)). split; [right; now left|].
      rewrite lit_true_neg by (apply prop_gt0; lia).
      rewrite grid_model_prop by lia.
      destruct (Z.eqb_spec (cell_of sol r c) (j + 1)); [lia|reflexivity].
    + exists (- prop n r c (i + 1)). split; [now left|].
      rewrite lit_true_neg by (apply prop_gt0; lia).
      rewrite grid_model_prop by lia.
      destruct (Z.eqb_spec (cell_of sol r c) (i + 1)); [lia|reflexivity].
Qed.



End SudokuRoundTrip.

Section SudokuComplete.

Import Sudoku Examples.

Lemma each_once_values (n : Z) (l : list Z) :
  len l = n -> each_once n l -> forall x, In x l -> 1 <= x <= n.
Proof.
  intros Hl Hall x Hx.
  assert (Hp : Permutation (range 1 (n + 1)) l).
  { apply covering_perm; [assumption|]. intros v Hv.
    apply (count_occ_In Z.eq_dec). rewrite (Hall v Hv). lia. }
  apply Permutation_sym in Hp. apply (Permutation_in _ Hp) in Hx.
  apply in_range in Hx. lia.
Qed.

Lemma each_once_in (n : Z) (l : list Z) (x : Z) :
  each_once n l -> 1 <= x <= n -> In x l.
Proof. intros Hall Hx. apply (count_occ_In Z.eq_dec). rewrite (Hall x Hx). lia. Qed.

Lemma valid_solution_values (sol : list (list Z)) (s : Z) :
  valid_solution sol s ->
  forall r c, 0 <= r < s * s -> 0 <= c < s * s -> 1 <= cell_of sol r c <= s * s.
Proof.
  intros (Hrows & _ & _) r c Hr Hc.
  apply (each_once_values (s * s) (row_cells sol (s * s) r)).
  - unfold row_cells, len. rewrite length_map, length_range. lia.
  - now apply Hrows.
  - unfold row_cells. apply in_map_iff. exists c. split; [reflexivity|now apply in_range].
Qed.

(** The literals of the clause list are variables of [1..n*n*n] when the
    givens are values of [0..n]. *)
Lemma sudoku_literals_in_range (h : heap) (grid : list loc) (s : Z) (f : cnf) :
  0 < s -> square_grid h grid (s * s) -> sudoku_cnf h grid = Ok f ->
  (forall r c, 0 <= r < s * s -> 0 <= c < s * s ->
     0 <= cell_of (snapshot h grid) r c <= s * s) ->
  forall cl l, In cl f -> In l cl -> 1 <= Z.abs l <= s * s * (s * s) * (s * s).
Proof.
  intros Hs Hsq Hf Hgiv.
  assert (Hn : 0 < s * s) by nia.
  set (n := s * s) in *.
  assert (Hrange : forall r c num, 0 <= r < n -> 0 <= c < n -> 1 <= num <= n ->
            1 <= Z.abs (prop n r c num) <= n * n * n).
  { intros r c num Hr Hc Hnum.
    pose proof (prop_pos n ltac:(lia) r c num ltac:(lia) ltac:(lia) ltac:(lia)).
    pose proof (prop_le n ltac:(lia) r c num Hr Hc Hnum). lia. }
  intros cl l Hin Hl.
  destruct (sudoku_cnf_square_inv h grid s f cl Hs Hsq Hf Hin)
    as [Hc|[Hc|[Hc|[(br & bc & num & Hbr & Hbc & Hnum & ->)
                   |(r & c & Hr & Hc & Hx & ->)]]]].
  - unfold cell_clauses in Hc.
    apply in_flat_map in Hc. destruct Hc as (r & Hr & Hc).
    apply in_flat_map in Hc. destruct Hc as (c & Hc & Hcl).
    apply in_range in Hr, Hc. destruct Hcl as [<-|Hcl].
    + apply in_map_iff in Hl. destruct Hl as (num & <- & Hnum).
      apply in_range in Hnum. apply Hrange; lia.
    + apply pairwise_neg_inv in Hcl. destruct Hcl as (i & j & Hi & Hj & ->).
      rewrite !(nth_cell_clause n) in Hl by lia.
      destruct Hl as [<-|[<-|[]]]; rewrite Z.abs_opp; apply Hrange; lia.
  - unfold row_clauses in Hc.
    apply in_flat_map in Hc. destruct Hc as (r & Hr & Hc).
    apply in_map_iff in Hc. destruct Hc as (num & <- & Hnum).
    apply in_map_iff in Hl. destruct Hl as (c & <- & Hc).
    apply in_range in Hr, Hnum, Hc. apply Hrange; lia.
  - unfold col_clauses in Hc.
    apply in_flat_map in Hc. destruct Hc as (c & Hc & Hcl).
    apply in_map_iff in Hcl. destruct Hcl as (num & <- & Hnum).
    apply in_map_iff in Hl. destruct Hl as (r & <- & Hr).
    apply in_range in Hr, Hnum, Hc. apply Hrange; lia.
  - unfold subgrid_clause in Hl.
    apply in_flat_map in Hl. destruct Hl as (r & Hr & Hl).
    apply in_map_iff in Hl. destruct Hl as (c & <- & Hc).
    apply in_range in Hr, Hc. apply Hrange; unfold n; nia.
  - destruct Hl as [<-|[]]. apply Hrange; try lia.
    pose proof (Hgiv r c Hr Hc). lia.
Qed.

(** The listing of a valid solution that fills the blanks satisfies every
    clause. *)
Lemma grid_model_sat (h : heap) (grid : list loc) (s : Z) (f : cnf)
    (sol : list (list Z)) :
  0 < s -> square_grid h grid (s * s) -> sudoku_cnf h grid = Ok f ->
  valid_solution sol s -> extends (s * s) (snapshot h grid) sol ->
  cnf_sat (var_true (grid_model (s * s) sol)) f.
Proof.
  intros Hs Hsq Hf Hval Hext.
  assert (Hn : 0 < s * s) by nia.
  pose proof (valid_solution_values sol s Hval) as Hvals.
  destruct Hval as (Hrows & Hcols & Hsubs).
  set (n := s * s) in *.
  assert (Htrue : forall r c, 0 <= r < n -> 0 <= c < n ->
            lit_true (var_true (grid_model n sol)) (prop n r c (cell_of sol r c)) = true).
  { intros r c Hr Hc. pose proof (Hvals r c Hr Hc).
    rewrite lit_true_pos by (apply prop_gt0; lia).
    rewrite (grid_model_prop n Hn sol) by lia. apply Z.eqb_refl. }
  intros cl Hin.
  destruct (sudoku_cnf_square_inv h grid s f cl Hs Hsq Hf Hin)
    as [Hc|[Hc|[Hc|[(br & bc & num & Hbr & Hbc & Hnum & ->)
                   |(r & c & Hr & Hc & Hx & ->)]]]].
  - now apply (grid_model_cells n Hn sol Hvals).
  - unfold row_clauses in Hc.
    apply in_flat_map in Hc. destruct Hc as (r & Hr & Hc).
    apply in_map_iff in Hc. destruct Hc as (num & <- & Hnum).
    apply in_range in Hr, Hnum.
    pose proof (each_once_in n _ num (Hrows r Hr) ltac:(lia)) as Hi.
    unfold row_cells in Hi. apply in_map_iff in Hi. destruct Hi as (c & E & Hc).
    exists (prop n r c num). split.
    + apply in_map_iff. now exists c.
    + apply in_range in Hc. rewrite <- E. now apply Htrue.
  - unfold col_clauses in Hc.
    apply in_flat_map in Hc. destruct Hc as (c & Hc & Hcl).
    apply in_map_iff in Hcl. destruct Hcl as (num & <- & Hnum).
    apply in_range in Hc, Hnum.
    pose proof (each_once_in n _ num (Hcols c Hc) ltac:(lia)) as Hi.
    unfold col_cells in Hi. apply in_map_iff in Hi. destruct Hi as (r & E & Hr).
    exists (prop n r c num). split.
    + apply in_map_iff. now exists r.
    + apply in_range in Hr. rewrite <- E. now apply Htrue.
  - pose proof (each_once_in n _ num (Hsubs br bc Hbr Hbc) Hnum) as Hi.
    unfold subgrid_cells in Hi. apply in_flat_map in Hi.
    destruct Hi as (r & Hr & Hi). apply in_map_iff in Hi.
    destruct Hi as (c & E & Hc).
    exists (prop n r c num). split.
    + unfold subgrid_clause. apply in_flat_map. exists r. split; [assumption|].
      apply in_map_iff. now exists c.
    + apply in_range in Hr, Hc. rewrite <- E. apply Htrue; unfold n; nia.
  - exists (prop n r c (cell_of (snapshot h grid) r c)). split; [now left|].
    rewrite <- (Hext r c Hr Hc Hx). now apply Htrue.
Qed.

Lemma extends_givens_range (s : Z) (puzzle sol : list (list Z)) :
  valid_solution sol s -> extends (s * s) puzzle sol ->
  forall r c, 0 <= r < s * s -> 0 <= c < s * s -> 0 <= cell_of puzzle r c <= s * s.
Proof.
  intros Hval Hext r c Hr Hc.
  destruct (Z.eq_dec (cell_of puzzle r c) 0) as [->|Hx]; [nia|].
  rewrite <- (Hext r c Hr Hc Hx).
  pose proof (valid_solution_values sol s Hval r c Hr Hc). lia.
Qed.


(** What a model of the clause list decodes to: a valid solution that
    keeps every given of [1..n]. *)
Lemma model_decodes_solution
    (oracle : cnf -> option (list Z)) (h : heap) (grid : list loc) (s : Z)
    (f : cnf) (m : list Z) :
  0 < s -> square_grid h grid (s * s) ->
  sudoku_cnf h grid = Ok f -> oracle f = Some m -> is_model m f = true ->
  exists h', solve_sudoku oracle grid h = (h', Ok grid) /\
    valid_solution (snapshot h' grid) s /\
    forall r c, 0 <= r < s * s -> 0 <= c < s * s ->
      1 <= cell_of (snapshot h grid) r c <= s * s ->
      cell_of (snapshot h' grid) r c = cell_of (snapshot h grid) r c.
Proof.
  intros Hs Hsq Hf Ho Hm.
  destruct (sudoku_cnf_square h grid s Hs Hsq) as (subs & given & Ef & Hsubs & Hgiven).
  rewrite Ef in Hf. injection Hf as <-.
  assert (Hn : 0 < s * s) by nia.
  pose proof (is_model_sat _ _ Hm) as Hsat.
  apply cnf_sat_app in Hsat. destruct Hsat as [Hcells Hsat].
  apply cnf_sat_app in Hsat. destruct Hsat as [Hrows Hsat].
  apply cnf_sat_app in Hsat. destruct Hsat as [Hcols Hsat].
  apply cnf_sat_app in Hsat. destruct Hsat as [Hsub Hgiv].
  assert (Hlen : s * s * (s * s) * (s * s) <= len m).
  { apply model_covers_grid; [assumption|].
    eapply is_model_incl; [|exact Hm]. intros c Hc. apply in_app_iff. now left. }
  destruct (solve_sudoku_sat oracle h grid (s * s) _ m Hsq Ef
              (solver_answer_model oracle _ m Ho Hm) Hlen)
    as (h' & E & _ & Hcell).
  exists h'. split; [assumption|].
  assert (Hdec : forall r c x, 0 <= r < s * s -> 0 <= c < s * s -> 1 <= x <= s * s ->
            var_true m (prop (s * s) r c x) = true ->
            cell_of (snapshot h' grid) r c = x).
  { intros r c x Hr Hc Hx Hv. rewrite Hcell by assumption.
    apply (decoded_value (s * s) m ltac:(lia) Hcells); auto; lia. }
  split; [repeat split|].
  - intros r Hr. apply covered_each_once.
    + unfold row_cells, len. rewrite length_map, length_range. lia.
    + intros x Hx.
      destruct (row_some (s * s) ltac:(lia) (var_true m) r x Hrows Hr Hx)
        as (c & Hc & Hv).
      unfold row_cells. apply in_map_iff. exists c.
      split; [now apply Hdec|now apply in_range].
  - intros c Hc. apply covered_each_once.
    + unfold col_cells, len. rewrite length_map, length_range. lia.
    + intros x Hx.
      destruct (col_some (s * s) ltac:(lia) (var_true m) c x Hcols Hc Hx)
        as (r & Hr & Hv).
      unfold col_cells. apply in_map_iff. exists r.
      split; [now apply Hdec|now apply in_range].
  - intros br bc Hbr Hbc. apply covered_each_once.
    + unfold subgrid_cells, len.
      rewrite (length_flat_map_const _ _ (Z.to_nat s)).
      * rewrite length_range. nia.
      * intros r _. rewrite length_map, length_range. lia.
    + intros x Hx.
      destruct (subgrid_some (s * s) ltac:(lia) (var_true m) s (s * br) (s * bc) x)
        as (r & c & Hr & Hc & Hv); try lia; try nia.
      { apply Hsub, Hsubs; assumption. }
      unfold subgrid_cells. apply in_flat_map. exists r.
      split; [now apply in_range|]. apply in_map_iff. exists c.
      split; [apply Hdec; (assumption || nia)|now apply in_range].
  - intros r c Hr Hc Hx. apply Hdec; try assumption.
    destruct (Hgiv [prop (s * s) r c (cell_of (snapshot h grid) r c)])
      as (l & [<-|[]] & Hl).
    { apply Hgiven; (assumption || lia). }
    now rewrite lit_true_pos in Hl by (apply prop_gt0; lia).
Qed.


(** The encoding is complete: when [sol] is a valid solution that fills the
    blanks of the n-by-n grid ([n = s*s]), the model that lists [sol] is a
    model of the clause list [solve_sudoku] hands to the solver. *)
Theorem solution_is_model (h : heap) (grid : list loc) (s : Z) (f : cnf)
    (sol : list (list Z)) :
  0 < s -> square_grid h grid (s * s) -> sudoku_cnf h grid = Ok f ->
  valid_solution sol s -> extends (s * s) (snapshot h grid) sol ->
  is_model (grid_model (s * s) sol) f = true.
Proof.
  intros Hs Hsq Hf Hval Hext.
  unfold grid_model. apply listed_is_model; fold (grid_model (s * s) sol).
  - apply (sudoku_literals_in_range h grid s f Hs Hsq Hf).
    now apply (extends_givens_range s _ sol).
  - now apply (grid_model_sat h grid s f sol).
Qed.



(** A model of the clause list keeps the givens: every cell that held a value
    of [1..n] holds it in the returned grid. *)
Theorem solve_sudoku_keeps_givens
    (oracle : cnf -> option (list Z)) (h : heap) (grid : list loc) (s : Z)
    (f : cnf) (m : list Z) :
  0 < s -> square_grid h grid (s * s) ->
  sudoku_cnf h grid = Ok f -> oracle f = Some m -> is_model m f = true ->
  exists h', solve_sudoku oracle grid h = (h', Ok grid) /\
    forall r c, 0 <= r < s * s -> 0 <= c < s * s ->
      1 <= cell_of (snapshot h grid) r c <= s * s ->
      cell_of (snapshot h' grid) r c = cell_of (snapshot h grid) r c.
Proof.
  intros Hs Hsq Hf Ho Hm.
  destruct (model_decodes_solution oracle h grid s f m Hs Hsq Hf Ho Hm)
    as (h' & E & _ & Hkeep).
  now exists h'.
Qed.


(** With such a solver, a puzzle with givens in [0..n] that no valid solution
    fills is returned as it was. *)
Theorem solve_sudoku_unsolvable_unchanged
    (oracle : cnf -> option (list Z)) (h : heap) (grid : list loc) (s : Z) :
  sat_oracle oracle -> 0 < s -> square_grid h grid (s * s) ->
  (forall r c, 0 <= r < s * s -> 0 <= c < s * s ->
     0 <= cell_of (snapshot h grid) r c <= s * s) ->
  ~ (exists sol, valid_solution sol s /\ extends (s * s) (snapshot h grid) sol) ->
  solve_sudoku oracle grid h = (h, Ok grid).
Proof.
  intros Hor Hs Hsq Hgiv Hnone.
  destruct (sudoku_cnf_square h grid s Hs Hsq) as (subs & given & Ef & _).
  pose proof (Hor (cell_clauses (s * s) ++ row_clauses (s * s) ++
                   col_clauses (s * s) ++ subs ++ given)) as Ho.
  destruct (oracle _) as [m|] eqn:Eo.
  - exfalso. apply Hnone.
    destruct (model_decodes_solution oracle h grid s _ m Hs Hsq Ef Eo Ho)
      as (h' & E & Hvalid & Hkeep).
    exists (snapshot h' grid). split; [assumption|].
    intros r c Hr Hc Hx. apply Hkeep; try assumption.
    pose proof (Hgiv r c Hr Hc). lia.
  - apply (solve_sudoku_unsat oracle h grid _ Ef).
    rewrite solver_answer_ok, Eo; [reflexivity|].
    apply has_zero_false. intros cl l Hcl Hl ->.
    pose proof (sudoku_literals_in_range h grid s _ Hs Hsq Ef Hgiv cl 0 Hcl Hl). lia.
Qed.

End SudokuComplete.

Section SudokuInstances.

Import Sudoku Examples.

Ltac four x H :=
  let C := fresh in
  assert (C : x = 0 \/ x = 1 \/ x = 2 \/ x = 3) by lia;
  clear H; destruct C as [-> | [-> | [-> | ->] ] ].

Ltac one_to_four x H :=
  let C := fresh in
  assert (C : x = 1 \/ x = 2 \/ x = 3 \/ x = 4) by lia;
  clear H; destruct C as [-> | [-> | [-> | ->] ] ].

Lemma valid_solved4 : valid_solution solved4 2.
Proof.
  repeat split.
  - intros r Hr v Hv. four r Hr; one_to_four v Hv; reflexivity.
  - intros c Hc v Hv. four c Hc; one_to_four v Hv; reflexivity.
  - intros br bc Hbr Hbc v Hv.
    assert (Cr : br = 0 \/ br = 1) by lia. assert (Cc : bc = 0 \/ bc = 1) by lia.
    destruct Cr as [-> | ->], Cc as [-> | ->]; one_to_four v Hv; reflexivity.
Qed.


Lemma extends_puzzle4 :
  extends (2 * 2) (snapshot (fst (alloc puzzle4)) (snd (alloc puzzle4))) solved4.
Proof.
  intros r c Hr Hc. four r Hr; four c Hc; vm_compute; congruence.
Qed.

Lemma givens_clash4 (r c : Z) :
  0 <= r < 2 * 2 -> 0 <= c < 2 * 2 ->
  0 <= cell_of (snapshot (fst (alloc clash4)) (snd (alloc clash4))) r c <= 2 * 2.
Proof. intros Hr Hc. four r Hr; four c Hc; vm_compute; split; discriminate. Qed.

Lemma no_solution_clash4 :
  ~ (exists sol, valid_solution sol 2 /\
       extends (2 * 2) (snapshot (fst (alloc clash4)) (snd (alloc clash4))) sol).
Proof.
  intros (sol & (Hrows & _ & _) & Hext).
  pose proof (Hext 0 0 ltac:(lia) ltac:(lia)) as E0.
  pose proof (Hext 0 1 ltac:(lia) ltac:(lia)) as E1.
  change (cell_of (snapshot _ _) 0 0) with 1 in E0.
  change (cell_of (snapshot _ _) 0 1) with 1 in E1.
  specialize (E0 ltac:(discriminate)). specialize (E1 ltac:(discriminate)).
  pose proof (Hrows 0 ltac:(lia) 1 ltac:(lia)) as H1.
  change (row_cells sol (2 * 2) 0)
    with [cell_of sol 0 0; cell_of sol 0 1; cell_of sol 0 2; cell_of sol 0 3] in H1.
  rewrite E0, E1 in H1. cbn in H1.
  destruct (Z.eq_dec (cell_of sol 0 2) 1), (Z.eq_dec (cell_of sol 0 3) 1);
    discriminate.
Qed.

Lemma alloc_ragged4 (l : loc) :
  In l (snd (alloc ragged4)) -> exists row, fst (alloc ragged4) !! l = Some row.
Proof.
  intros Hl. cbn in Hl.
  repeat (destruct Hl as [<-|Hl]; [eexists; vm_compute; reflexivity|]).
  contradiction.
Qed.

(** The short-row error on the ragged 4-by-4 grid. *)
Lemma solve_sudoku_short_row_witness :
  solve_sudoku brute_force (snd (alloc ragged4)) (fst (alloc ragged4))
  = (fst (alloc ragged4), Raise IndexError).
Proof.
  apply (solve_sudoku_short_row brute_force (fst (alloc ragged4))
           (snd (alloc ragged4)) 1 [0; 0; 0]).
  - exact alloc_ragged4.
  - vm_compute. split; [discriminate|reflexivity].
  - vm_compute. reflexivity.
  - vm_compute. reflexivity.
Defined.

(** The solved 4-by-4 grid lists a model of the clauses of the puzzle. *)
Lemma solution_is_model_witness :
  is_model (grid_model (2 * 2) solved4) cnf4 = true.
Proof.
  apply (solution_is_model (fst (alloc puzzle4)) (snd (alloc puzzle4)) 2 cnf4 solved4).
  - lia.
  - exact square_puzzle4.
  - vm_compute. reflexivity.
  - exact valid_solved4.
  - exact extends_puzzle4.
Defined.



(** The given of the 4-by-4 puzzle is kept. *)
Lemma solve_sudoku_keeps_givens_witness :
  exists h',
    solve_sudoku (fun _ => Some model4) (snd (alloc puzzle4)) (fst (alloc puzzle4))
    = (h', Ok (snd (alloc puzzle4))) /\
    forall r c, 0 <= r < 2 * 2 -> 0 <= c < 2 * 2 ->
      1 <= cell_of (snapshot (fst (alloc puzzle4)) (snd (alloc puzzle4))) r c <= 2 * 2 ->
      cell_of (snapshot h' (snd (alloc puzzle4))) r c
      = cell_of (snapshot (fst (alloc puzzle4)) (snd (alloc puzzle4))) r c.
Proof.
  apply (solve_sudoku_keeps_givens (fun _ => Some model4)
           (fst (alloc puzzle4)) (snd (alloc puzzle4)) 2 cnf4 model4).
  - lia.
  - exact square_puzzle4.
  - vm_compute. reflexivity.
  - reflexivity.
  - vm_compute. reflexivity.
Defined.


(** The puzzle with two 1s in its first row comes back as it was. *)
Lemma solve_sudoku_unsolvable_unchanged_witness :
  solve_sudoku brute_force (snd (alloc clash4)) (fst (alloc clash4))
  = (fst (alloc clash4), Ok (snd (alloc clash4))).
Proof.
  apply (solve_sudoku_unsolvable_unchanged brute_force
           (fst (alloc clash4)) (snd (alloc clash4)) 2).
  - exact brute_force_sat_oracle.
  - lia.
  - exact square_clash4.
  - exact givens_clash4.
  - exact no_solution_clash4.
Defined.

End SudokuInstances.

(** ** Question2: what [__init__] reads from the grid, and when it raises *)

Section ParseSpec.

Import Sokoban Examples.

Lemma for_S_app {A S} (xs ys : list A) (body : A -> S -> result S) (s : S) :
  for_S (xs ++ ys) body s = let* s1 := for_S xs body s in for_S ys body s1.
Proof.
  revert s. induction xs as [|x xs IH]; intros s; cbn; [reflexivity|].
  destruct (body x s); cbn; [apply IH|reflexivity].
Qed.

Lemma for_S_map {A B S} (g : B -> A) (ys : list B) (body : A -> S -> result S) (s : S) :
  for_S (map g ys) body s = for_S ys (fun y => body (g y)) s.
Proof.
  revert s. induction ys as [|y ys IH]; intros s; cbn; [reflexivity|].
  destruct (body (g y) s); cbn; [apply IH|reflexivity].
Qed.

Lemma for_S_nested {A B S} (xs : list A) (ys : list B) (body : A -> B -> S -> result S)
      (s : S) :
  for_S xs (fun x => for_S ys (body x)) s
  = for_S (flat_map (fun x => map (pair x) ys) xs) (fun p => body (fst p) (snd p)) s.
Proof.
  revert s. induction xs as [|x xs IH]; intros s; cbn; [reflexivity|].
  rewrite for_S_app, for_S_map. cbn [fst snd].
  destruct (for_S ys (body x) s); cbn; [apply IH|reflexivity].
Qed.

Lemma last_cons {A} (a d : A) (l : list A) : last (a :: l) d = last l a.
Proof.
  revert a d. induction l as [|b l IH]; intros a d; [reflexivity|].
  change (last (a :: b :: l) d) with (last (b :: l) d).
  now rewrite !IH.
Qed.

Let has_char (g : list (list string)) (ch : string) (p : Z * Z) : bool :=
  (char_at g p =? ch)%string.

(** The loop body over a list of cells of the grid: each list grows by the
    cells that hold its character, and the player is the last ['P']. *)
Lemma parse_cells_spec (g : list (list string)) (ps : list (Z * Z)) (s : parse_state) :
  (forall p, In p ps ->
     0 <= fst p < len g /\ 0 <= snd p < len (nth (Z.to_nat (fst p)) g [])) ->
  for_S ps (fun p => parse_cell g (fst p) (snd p)) s
  = Ok {| ps_goals := ps_goals s ++ filter (has_char g "G") ps;
          ps_boxes := ps_boxes s ++ filter (has_char g "B") ps;
          ps_walls := ps_walls s ++ filter (has_char g "#") ps;
          ps_player := last (map Some (filter (has_char g "P") ps)) (ps_player s) |}.
Proof.
  revert s. induction ps as [|[x y] ps IH]; intros s Hon.
  - destruct s. cbn. now rewrite !app_nil_r.
  - destruct (Hon (x, y) (or_introl eq_refl)) as [Hx Hy]. cbn [fst snd] in Hx, Hy.
    cbn [for_S fst snd]. unfold parse_cell.
    rewrite (py_get_in g x []) by assumption. cbn [rbind].
    rewrite (py_get_in _ y ""%string) by assumption. cbn [rbind].
    assert (Hrest : forall p, In p ps ->
              0 <= fst p < len g /\ 0 <= snd p < len (nth (Z.to_nat (fst p)) g []))
      by (intros p Hp; apply Hon; now right).
    cbn [filter].
    set (ch := nth (Z.to_nat y) (nth (Z.to_nat x) g []) ""%string).
    assert (Hc : forall c, has_char g c (x, y) = (ch =? c)%string) by reflexivity.
    rewrite !Hc.
    destruct (String.eqb_spec ch "P"), (String.eqb_spec ch "B"),
      (String.eqb_spec ch "G"), (String.eqb_spec ch "#"); try congruence;
      cbn [rbind]; rewrite IH by assumption;
      cbn [ps_goals ps_boxes ps_walls ps_player map];
      rewrite ?last_cons, <- ?app_assoc; reflexivity.
Qed.

Lemma py_get_first {A} (l : list A) (d : A) : l <> [] -> py_get l 0 = Ok (hd d l).
Proof.
  intros Hl. destruct l as [|a l]; [contradiction|].
  rewrite (py_get_in _ 0 d); [reflexivity|]. unfold len. cbn [length]. lia.
Qed.

(** On a non-empty grid none of whose rows is shorter than the first,
    [__init__] raises nothing: [N] and [M] are the number of rows and the
    length of the first row, [T] is the horizon plus one, the boxes, goals
    and walls are the ['B'], ['G'] and ['#'] cells of the first [M] columns
    in row-major order, and [player_start] is the last ['P'] cell in that
    order ([None] when there is none). *)
Theorem init_reads_grid (g : list (list string)) (T0 : Z) :
  g <> [] -> (forall row, In row g -> len (hd [] g) <= len row) ->
  exists e, __init__ g T0 = Ok e /\
    grid e = g /\ T e = T0 + 1 /\ N e = len g /\ M e = len (hd [] g) /\
    boxes e = marked e "B" /\ goals e = marked e "G" /\ walls e = marked e "#" /\
    player_start e = last (map Some (marked e "P")) None /\
    num_boxes e = len (boxes e).
Proof.
  intros Hne Hrows. unfold __init__.
  rewrite (py_get_first g []) by assumption. cbn [rbind].
  unfold _parse_grid. rewrite for_S_nested. rewrite parse_cells_spec.
  - cbn [rbind]. eexists. split; [reflexivity|]. cbn. repeat split.
  - intros p Hp. apply in_flat_map in Hp. destruct Hp as (x & Hx & Hp).
    apply in_map_iff in Hp. destruct Hp as (y & <- & Hy).
    apply in_range in Hx, Hy. cbn [fst snd]. split; [lia|].
    assert (Hin : In (nth (Z.to_nat x) g []) g)
      by (apply nth_In; unfold len in Hx; lia).
    specialize (Hrows _ Hin). lia.
Qed.

Lemma parse_cell_cases (g : list (list string)) (x y : Z) (s : parse_state) :
  parse_cell g x y s = Raise IndexError \/ exists s', parse_cell g x y s = Ok s'.
Proof.
  unfold parse_cell.
  destruct (py_get_cases g x) as [->|(row & ->)]; cbn [rbind]; [now left|].
  destruct (py_get_cases row y) as [->|(ch & ->)]; cbn [rbind]; [now left|].
  right. repeat match goal with
                | |- context [if ?b then _ else _] => destruct b
                end; eauto.
Qed.

Lemma for_S_cases {A S} (xs : list A) (body : A -> S -> result S) (e : exn) :
  (forall x s, In x xs -> body x s = Raise e \/ exists s', body x s = Ok s') ->
  forall s, for_S xs body s = Raise e \/ exists s', for_S xs body s = Ok s'.
Proof.
  induction xs as [|x xs IH]; intros Hall s; cbn; [right; eauto|].
  destruct (Hall x s (or_introl eq_refl)) as [->|(s1 & ->)]; cbn; [now left|].
  apply IH. intros y s2 Hy. apply Hall. now right.
Qed.

Lemma for_S_raise {A S} (xs : list A) (body : A -> S -> result S) (e : exn) :
  (forall x s, In x xs -> body x s = Raise e \/ exists s', body x s = Ok s') ->
  (exists x, In x xs /\ forall s, body x s = Raise e) ->
  forall s, for_S xs body s = Raise e.
Proof.
  induction xs as [|x xs IH]; intros Hall (y & Hy & Ey) s; [contradiction|].
  cbn. destruct (Hall x s (or_introl eq_refl)) as [->|(s1 & E1)]; cbn;
    [reflexivity|].
  rewrite E1. cbn. apply IH.
  - intros z s2 Hz. apply Hall. now right.
  - destruct Hy as [->|Hy]; [rewrite Ey in E1; discriminate|]. now exists y.
Qed.

(** [__init__] raises [IndexError] on the empty grid (at [grid[0]]) and on a
    grid with a row shorter than the first (at [grid[x][y]]), and
    [solve_sokoban] with it, before anything is encoded. *)
Theorem init_index_error
    (oracle : cnf -> option (list Z)) (g : list (list string)) (T0 : Z) :
  g = [] \/ (exists row, In row g /\ len row < len (hd [] g)) ->
  __init__ g T0 = Raise IndexError /\
  solve_sokoban oracle g T0 = Raise IndexError.
Proof.
  intros Hg. enough (E : __init__ g T0 = Raise IndexError).
  { split; [assumption|]. unfold solve_sokoban. now rewrite E. }
  destruct Hg as [->|(row & Hin & Hshort)]; [reflexivity|].
  assert (Hne : g <> []) by (intros ->; contradiction).
  unfold __init__. rewrite (py_get_first g []) by assumption. cbn [rbind].
  destruct (In_nth g row [] Hin) as (i & Hi & Erow).
  unfold _parse_grid. rewrite (for_S_raise _ _ IndexError); [reflexivity| |].
  - intros x s _. apply for_S_cases. intros y s' _. apply parse_cell_cases.
  - exists (Z.of_nat i). split; [apply in_range; unfold len; lia|].
    apply for_S_raise.
    + intros y s' _. apply parse_cell_cases.
    + exists (len row). split; [apply in_range; unfold len in *; lia|].
      intros s. unfold parse_cell.
      rewrite (py_get_in g (Z.of_nat i) []) by (unfold len; lia). cbn [rbind].
      rewrite Nat2Z.id, Erow, py_get_out by lia. reflexivity.
Qed.

Lemma py_get_nth {A} (l : list A) (i : Z) (a d : A) :
  0 <= i -> py_get l i = Ok a -> nth (Z.to_nat i) l d = a.
Proof.
  intros Hi. unfold py_get, py_index.
  destruct (Z.leb_spec 0 i); [|lia].
  destruct (Z.ltb_spec i (Z.of_nat (length l))); cbn.
  - destruct (l !! Z.to_nat i) as [x|] eqn:E; [|discriminate].
    intros [= <-]. now apply nth_lookup_Some with (d := d) in E.
  - destruct (Z.ltb_spec i 0); [lia|]. cbn. discriminate.
Qed.

(** The boxes and goals [_parse_grid] has recorded are cells that hold a
    ['B'] and a ['G']. *)
Let marks_ok (g : list (list string)) (s : parse_state) : Prop :=
  (forall p, In p (ps_boxes s) -> char_at g p = "B"%string) /\
  (forall p, In p (ps_goals s) -> char_at g p = "G"%string).

Lemma parse_marks (g : list (list string)) (n m : Z) (s s' : parse_state) :
  marks_ok g s -> _parse_grid g n m s = Ok s' -> marks_ok g s'.
Proof.
  unfold _parse_grid. apply (for_S_invariant (marks_ok g)). intros x s1 s2 Hx H1.
  apply (for_S_invariant (marks_ok g)); [|assumption].
  intros y s3 s4 Hy (Hb & Hg) E.
  apply in_range in Hx, Hy. unfold parse_cell in E.
  destruct (py_get g x) as [row|] eqn:Erow; [|discriminate]. cbn [rbind] in E.
  destruct (py_get row y) as [ch|] eqn:Ech; [|discriminate]. cbn [rbind] in E.
  apply (py_get_nth _ _ _ []) in Erow; [|lia].
  apply (py_get_nth _ _ _ ""%string) in Ech; [|lia].
  assert (Hch : char_at g (x, y) = ch) by (unfold char_at; cbn [fst snd]; congruence).
  destruct (String.eqb_spec ch "P"); [injection E as <-; now split|].
  destruct (String.eqb_spec ch "B").
  { injection E as <-. split; cbn; [|assumption].
    intros p Hp. apply in_app_iff in Hp. destruct Hp as [Hp|[<-|[]]]; [auto|congruence]. }
  destruct (String.eqb_spec ch "G").
  { injection E as <-. split; cbn; [assumption|].
    intros p Hp. apply in_app_iff in Hp. destruct Hp as [Hp|[<-|[]]]; [auto|congruence]. }
  destruct (String.eqb_spec ch "#"); injection E as <-; now split.
Qed.

Lemma init_marks (g : list (list string)) (T0 : Z) (e : SokobanEncoder) :
  __init__ g T0 = Ok e -> forall p, In p (boxes e) -> ~ In p (goals e).
Proof.
  unfold __init__. intros E.
  destruct (py_get g 0) as [row0|]; [|discriminate]. cbn [rbind] in E.
  destruct (_parse_grid _ _ _ _) as [s|] eqn:Ep; [|discriminate]. cbn [rbind] in E.
  injection E as <-. cbn [boxes goals].
  apply parse_marks in Ep; [|split; intros p []].
  destruct Ep as (Hb & Hg). intros p Hp Hq.
  pose proof (Hb p Hp). pose proof (Hg p Hq). congruence.
Qed.

End ParseSpec.

(** ** Question2: a negative horizon *)

Section NegativeHorizon.

Import Sokoban Examples.

(** With a negative horizon [self.T] is at most zero and the first variable
    [encode] asks for, the player's cell at step 0, fails the assertion
    [t < self.T]: [solve_sokoban] raises [AssertionError] whatever the
    solver. *)
Theorem negative_horizon_fails_assertion
    (oracle : cnf -> option (list Z)) (g : list (list string)) (T0 : Z)
    (e : SokobanEncoder) :
  __init__ g T0 = Ok e -> T0 < 0 -> player_start e <> None ->
  encode e = Raise AssertionError /\
  solve_sokoban oracle g T0 = Raise AssertionError.
Proof.
  intros Hinit HT Hps.
  destruct (init_wf g T0 e Hinit) as ((_ & _ & _ & _ & _ & Hon) & HTe & _).
  assert (Henc : encode e = Raise AssertionError).
  { unfold encode, encode_initial.
    destruct (player_start e) as [ps|]; [|contradiction]. cbn [rbind].
    destruct (Hon ps eq_refl) as [Hx Hy]. unfold var_player.
    replace ((fst ps <? N e) && (snd ps <? M e)) with true
      by (symmetry; apply andb_true_iff; split; apply Z.ltb_lt; lia).
    replace ((0 <=? fst ps) && (0 <=? snd ps)) with true
      by (symmetry; apply andb_true_iff; split; apply Z.leb_le; lia).
    replace (0 <? T e) with false by (symmetry; apply Z.ltb_ge; lia).
    reflexivity. }
  split; [assumption|]. unfold solve_sokoban. rewrite Hinit. cbn [rbind].
  now rewrite Henc.
Qed.

End NegativeHorizon.

(** ** Question2: what a model of the clause list says about the play *)

Lemma unit_true (v : Z -> bool) (a : Z) : 0 < a -> clause_sat v [a] -> v a = true.
Proof. intros Ha (l & [<-|[]] & Hl). now rewrite lit_true_pos in Hl. Qed.

Lemma unit_false (v : Z -> bool) (a : Z) :
  0 < a -> clause_sat v [- a] -> v a = false.
Proof.
  intros Ha (l & [<-|[]] & Hl). rewrite lit_true_neg in Hl by assumption.
  now apply negb_true_iff.
Qed.

Lemma clause_excl (v : Z -> bool) (a b : Z) :
  0 < a -> 0 < b -> clause_sat v [- a; - b] -> v a = true -> v b = true -> False.
Proof.
  intros Ha Hb (l & [<-|[<-|[]]] & Hl) Va Vb;
    rewrite lit_true_neg in Hl by assumption;
    [rewrite Va in Hl|rewrite Vb in Hl]; discriminate.
Qed.

Lemma clause_imp (v : Z -> bool) (a b : Z) :
  0 < a -> 0 < b -> clause_sat v [- a; b] -> v a = true -> v b = true.
Proof.
  intros Ha Hb (l & [<-|[<-|[]]] & Hl) Va.
  - rewrite lit_true_neg, Va in Hl by assumption. discriminate.
  - now rewrite lit_true_pos in Hl.
Qed.

Lemma clause_step (v : Z -> bool) (a b c : Z) :
  0 < a -> 0 < b -> 0 < c -> clause_sat v [- a; - b; c] ->
  v a = true -> v b = true -> v c = true.
Proof.
  intros Ha Hb Hc (l & [<-|[<-|[<-|[]]]] & Hl) Va Vb.
  - rewrite lit_true_neg, Va in Hl by assumption. discriminate.
  - rewrite lit_true_neg, Vb in Hl by assumption. discriminate.
  - now rewrite lit_true_pos in Hl.
Qed.

Lemma clause_step3 (v : Z -> bool) (a b c d : Z) :
  0 < a -> 0 < b -> 0 < c -> 0 < d -> clause_sat v [- a; - b; - c; d] ->
  v a = true -> v b = true -> v c = true -> v d = true.
Proof.
  intros Ha Hb Hc Hd (l & [<-|[<-|[<-|[<-|[]]]]] & Hl) Va Vb Vc.
  - rewrite lit_true_neg, Va in Hl by assumption. discriminate.
  - rewrite lit_true_neg, Vb in Hl by assumption. discriminate.
  - rewrite lit_true_neg, Vc in Hl by assumption. discriminate.
  - now rewrite lit_true_pos in Hl.
Qed.

Lemma clause_guarded (v : Z -> bool) (a b : Z) (cl : clause) :
  0 < a -> 0 < b -> (forall l, In l cl -> 0 < l) ->
  clause_sat v ([- a; - b] ++ cl) -> v a = true -> v b = true ->
  exists l, In l cl /\ v l = true.
Proof.
  intros Ha Hb Hcl (l & [<-|[<-|Hin]] & Hl) Va Vb.
  - rewrite lit_true_neg, Va in Hl by assumption. discriminate.
  - rewrite lit_true_neg, Vb in Hl by assumption. discriminate.
  - exists l. split; [assumption|]. now rewrite lit_true_pos in Hl by now apply Hcl.
Qed.

Section Play.

Import Sokoban.

Variable g : list (list string).
Variable T0 : Z.
Variable e : SokobanEncoder.
Variable f : cnf.
Variable v : Z -> bool.
Hypothesis init : __init__ g T0 = Ok e.
Hypothesis horizon : 0 <= T0.
Hypothesis enc : encode e = Ok f.
Hypothesis sat : cnf_sat v f.

Lemma play_T : T e = T0 + 1.
Proof. now destruct (init_wf g T0 e init) as (_ & H & _). Qed.

Lemma play_wf : wf_encoder e.
Proof. now destruct (init_wf g T0 e init) as (H & _ & _). Qed.

Lemma play_dims : dims_ok e.
Proof. apply wf_dims; [exact play_wf|]. rewrite play_T. lia. Qed.

Lemma play_clauses :
  exists ps, player_start e = Some ps /\ on_grid e (fst ps) (snd ps) /\
             cnf_sat v (encode_clauses e ps).
Proof.
  destruct (encode_inv g T0 e f init horizon enc) as (ps & Hps & Ef).
  exists ps. split; [assumption|]. split; [|now rewrite <- Ef].
  destruct play_wf as (_ & _ & _ & _ & _ & Hon). now apply Hon.
Qed.

Lemma player_pos (x y t : Z) :
  on_grid e x y -> 0 <= t <= T0 -> 0 < id_player e x y t.
Proof.
  intros Hxy Ht. pose proof play_T.
  pose proof (id_pos e play_dims (Player x y t)) as H1. cbn in H1.
  enough (1 <= id_player e x y t) by lia. apply H1. split; [assumption|lia].
Qed.

Lemma box_pos (b x y t : Z) :
  1 <= b <= num_boxes e -> on_grid e x y -> 0 <= t <= T0 -> 0 < id_box e b x y t.
Proof.
  intros Hb Hxy Ht. pose proof play_T.
  pose proof (id_pos e play_dims (Box b x y t)) as H1. cbn in H1.
  enough (1 <= id_box e b x y t) by lia. apply H1.
  split; [assumption|split; [assumption|lia]].
Qed.

Lemma move_pos (num t : Z) : 1 <= num -> 0 <= t -> 0 < id_move e num t.
Proof. apply id_move_pos, play_dims. Qed.

Lemma goal_pos (x y : Z) : on_grid e x y -> 0 < id_goal e x y.
Proof.
  intros Hxy. pose proof (id_pos e play_dims (Goal x y) Hxy) as H1. cbn in H1. lia.
Qed.

Lemma player_somewhere (t : Z) :
  0 <= t <= T0 -> exists x y, on_grid e x y /\ v (id_player e x y t) = true.
Proof.
  intros Ht. destruct play_clauses as (ps & _ & _ & Hcl). pose proof play_T.
  destruct (Hcl (player_cells e t)) as (l & Hl & Hv).
  { apply emit_unique_player with (t := t); [lia|now left]. }
  rewrite player_cells_map in Hl. apply in_map_iff in Hl.
  destruct Hl as ([x y] & <- & Hp). apply in_cells in Hp. cbn [fst snd] in *.
  exists x, y. split; [assumption|].
  now rewrite lit_true_pos in Hv by now apply player_pos.
Qed.

Lemma player_apart (t x y x' y' : Z) :
  0 <= t <= T0 -> on_grid e x y -> on_grid e x' y' -> (x, y) <> (x', y') ->
  v (id_player e x y t) = true -> v (id_player e x' y' t) = true -> False.
Proof.
  intros Ht Hxy Hxy' Hne Va Vb.
  destruct play_clauses as (ps & _ & _ & Hcl). pose proof play_T.
  apply (pairwise_neg_excl v (player_cells e t)
           (id_player e x y t) (id_player e x' y' t)); try assumption.
  - intros c Hc. apply Hcl, emit_unique_player with (t := t); [lia|now right].
  - intros l Hl. rewrite player_cells_map in Hl. apply in_map_iff in Hl.
    destruct Hl as ([a b] & <- & Hp). apply in_cells in Hp. now apply player_pos.
  - rewrite player_cells_map. apply in_map_iff. exists (x, y).
    split; [reflexivity|now apply in_cells].
  - rewrite player_cells_map. apply in_map_iff. exists (x', y').
    split; [reflexivity|now apply in_cells].
  - intros E.
    apply (id_of_inj e play_dims (Player x y t) (Player x' y' t)) in E;
      try (split; [assumption|lia]).
    apply Hne. now injection E as -> ->.
Qed.

Lemma player_at_most_one (t x y x' y' : Z) :
  0 <= t <= T0 -> on_grid e x y -> on_grid e x' y' ->
  v (id_player e x y t) = true -> v (id_player e x' y' t) = true ->
  x = x' /\ y = y'.
Proof.
  intros Ht Hxy Hxy' Va Vb.
  destruct (Z.eq_dec x x') as [Ex|Ex], (Z.eq_dec y y') as [Ey|Ey]; [tauto|exfalso..];
    apply (player_apart t x y x' y'); try assumption; congruence.
Qed.

Lemma box_somewhere (b t : Z) :
  1 <= b <= num_boxes e -> 0 <= t <= T0 ->
  exists x y, on_grid e x y /\ v (id_box e b x y t) = true.
Proof.
  intros Hb Ht. destruct play_clauses as (ps & _ & _ & Hcl). pose proof play_T.
  destruct (Hcl (box_cells e (b - 1) t)) as (l & Hl & Hv).
  { apply emit_unique_box with (box := b - 1) (t := t); [lia|lia|now left]. }
  apply box_cells_inv in Hl. destruct Hl as (x & y & Hxy & ->).
  replace (b - 1 + 1) with b in Hv by lia.
  exists x, y. split; [assumption|].
  now rewrite lit_true_pos in Hv by now apply box_pos.
Qed.

Lemma box_unique (b t x y x' y' : Z) :
  1 <= b <= num_boxes e -> 0 <= t <= T0 ->
  on_grid e x y -> on_grid e x' y' ->
  v (id_box e b x y t) = true -> v (id_box e b x' y' t) = true ->
  x = x' /\ y = y'.
Proof.
  intros Hb Ht Hxy Hxy' Va Vb.
  destruct play_clauses as (ps & _ & _ & Hcl). pose proof play_T.
  apply (box_at_most_one e v play_dims) with (box := b - 1) (t := t);
    try assumption; try lia.
  - intros c Hc. now apply Hcl, in_unique.
  - now replace (b - 1 + 1) with b by lia.
  - now replace (b - 1 + 1) with b by lia.
Qed.

(** In a model of the clause list the state of every step is well defined:
    the player is on exactly one cell of the grid, and so is every box. *)
Theorem play_state_unique (t : Z) :
  0 <= t <= T0 ->
  (exists x y, on_grid e x y /\
     forall x' y', on_grid e x' y' ->
       (v (id_player e x' y' t) = true <-> x' = x /\ y' = y)) /\
  (forall b, 1 <= b <= num_boxes e ->
     exists x y, on_grid e x y /\
       forall x' y', on_grid e x' y' ->
         (v (id_box e b x' y' t) = true <-> x' = x /\ y' = y)).
Proof.
  intros Ht. split.
  - destruct (player_somewhere t Ht) as (x & y & Hxy & Hv).
    exists x, y. split; [assumption|]. intros x' y' Hxy'. split.
    + intros Hv'. now apply (player_at_most_one t x' y' x y).
    + now intros [-> ->].
  - intros b Hb. destruct (box_somewhere b t Hb Ht) as (x & y & Hxy & Hv).
    exists x, y. split; [assumption|]. intros x' y' Hxy'. split.
    + intros Hv'. now apply (box_unique b t x' y' x y).
    + now intros [-> ->].
Qed.

(** Step 0 of a model is the level as [__init__] read it: the player is on
    [player_start] and box [box + 1] is on [boxes[box]], and nowhere else. *)
Theorem play_starts_at_level (x y : Z) :
  on_grid e x y ->
  (v (id_player e x y 0) = true <-> player_start e = Some (x, y)) /\
  (forall box, 0 <= box < num_boxes e ->
     (v (id_box e (box + 1) x y 0) = true <->
      nth (Z.to_nat box) (boxes e) (0, 0) = (x, y))).
Proof.
  intros Hxy. destruct play_clauses as (ps & Hps & Hon & Hcl). pose proof play_T.
  assert (Hp0 : v (id_player e (fst ps) (snd ps) 0) = true).
  { apply unit_true; [apply player_pos; (assumption || lia)|].
    apply Hcl, emit_player_start. }
  split.
  - split.
    + intros Hv.
      destruct (player_at_most_one 0 x y (fst ps) (snd ps)) as [-> ->];
        try assumption; try lia.
      rewrite Hps. f_equal. apply surjective_pairing.
    + rewrite Hps. intros [= ->]. exact Hp0.
  - intros box Hbox.
    pose proof (box_on_grid e play_wf box Hbox) as Hb.
    set (p := nth (Z.to_nat box) (boxes e) (0, 0)) in *.
    assert (Hb0 : v (id_box e (box + 1) (fst p) (snd p) 0) = true).
    { apply unit_true; [apply box_pos; (assumption || lia)|].
      apply Hcl, emit_box_start. assumption. }
    split.
    + intros Hv.
      destruct (box_unique (box + 1) 0 x y (fst p) (snd p)) as [-> ->];
        try assumption; try lia.
      apply surjective_pairing.
    + intros E. rewrite E in Hb0. exact Hb0.
Qed.

(** No wall cell is ever occupied: at no step of a model is the player or a
    box on a ['#'] cell. *)
Theorem play_avoids_walls (w : Z * Z) (t : Z) :
  In w (walls e) -> 0 <= t <= T0 ->
  v (id_player e (fst w) (snd w) t) = false /\
  forall b, 1 <= b <= num_boxes e -> v (id_box e b (fst w) (snd w) t) = false.
Proof.
  intros Hw Ht. destruct play_clauses as (ps & _ & _ & Hcl). pose proof play_T.
  pose proof play_wf as (_ & _ & _ & _ & Hwalls & _).
  pose proof (Hwalls w Hw) as Hon.
  destruct (In_nth _ _ (0, 0) Hw) as (i & Hi & Ei).
  assert (Hwall : 0 <= Z.of_nat i < len (walls e)) by (unfold len; lia).
  split.
  - apply unit_false; [now apply player_pos|].
    pose proof (emit_wall_player e ps (Z.of_nat i) t Hwall ltac:(lia)) as Hc.
    rewrite Nat2Z.id, Ei in Hc. now apply Hcl.
  - intros b Hb. apply unit_false; [now apply box_pos|].
    pose proof (emit_wall_box e ps (Z.of_nat i) t (b - 1) Hwall ltac:(lia) ltac:(lia))
      as Hc.
    rewrite Nat2Z.id, Ei in Hc. replace (b - 1 + 1) with b in Hc by lia.
    now apply Hcl.
Qed.

Lemma player_not_on_box (t x y b : Z) :
  0 <= t <= T0 -> on_grid e x y -> 1 <= b <= num_boxes e ->
  v (id_player e x y t) = true -> v (id_box e b x y t) = true -> False.
Proof.
  intros Ht Hxy Hb. destruct play_clauses as (ps & _ & _ & Hcl). pose proof play_T.
  apply clause_excl; [now apply player_pos|now apply box_pos|].
  pose proof (emit_overlap_player e ps x y (b - 1) t Hxy ltac:(lia) ltac:(lia)) as Hc.
  replace (b - 1 + 1) with b in Hc by lia. now apply Hcl.
Qed.

Lemma boxes_apart (t x y b b' : Z) :
  0 <= t <= T0 -> on_grid e x y -> 1 <= b <= num_boxes e -> 1 <= b' <= num_boxes e ->
  b <> b' -> v (id_box e b x y t) = true -> v (id_box e b' x y t) = true -> False.
Proof.
  intros Ht Hxy Hb Hb' Hne Va Vb.
  destruct play_clauses as (ps & _ & _ & Hcl). pose proof play_T.
  assert (Hlt : forall c d, 1 <= c -> c < d -> d <= num_boxes e ->
            v (id_box e c x y t) = true -> v (id_box e d x y t) = true -> False).
  { intros c d Hc Hcd Hd.
    apply clause_excl; [apply box_pos; (assumption || lia)..|].
    pose proof (emit_overlap_boxes e ps x y (c - 1) (d - 1) t Hxy
                  ltac:(lia) ltac:(lia) ltac:(lia)) as Hcl'.
    replace (c - 1 + 1) with c in Hcl' by lia.
    replace (d - 1 + 1) with d in Hcl' by lia. now apply Hcl. }
  destruct (Z.lt_ge_cases b b').
  - apply (Hlt b b'); (assumption || lia).
  - apply (Hlt b' b); (assumption || lia).
Qed.

(** No two things share a cell: at no step of a model is a box on the
    player's cell, or are two boxes on one cell. *)
Theorem play_no_overlap (t x y b b' : Z) :
  0 <= t <= T0 -> on_grid e x y ->
  1 <= b <= num_boxes e -> 1 <= b' <= num_boxes e ->
  (v (id_player e x y t) = true -> v (id_box e b x y t) = false) /\
  (b <> b' -> v (id_box e b x y t) = true -> v (id_box e b' x y t) = false).
Proof.
  intros Ht Hxy Hb Hb'. split.
  - intros Hp. destruct (v (id_box e b x y t)) eqn:E; [exfalso|reflexivity].
    now apply (player_not_on_box t x y b).
  - intros Hne Hv. destruct (v (id_box e b' x y t)) eqn:E; [exfalso|reflexivity].
    now apply (boxes_apart t x y b b').
Qed.

(** At the last step of a model every box is on a goal cell. *)
Theorem play_ends_on_goals (b x y : Z) :
  1 <= b <= num_boxes e -> on_grid e x y ->
  v (id_box e b x y T0) = true -> In (x, y) (goals e).
Proof.
  intros Hb Hxy Hv. destruct play_clauses as (ps & _ & _ & Hcl). pose proof play_T.
  assert (Hg : v (id_goal e x y) = true).
  { apply (clause_imp v (id_box e b x y T0));
      [apply box_pos; (assumption || lia)|now apply goal_pos| |assumption].
    pose proof (emit_goal e ps x y (b - 1) Hxy ltac:(lia)) as Hc.
    replace (b - 1 + 1) with b in Hc by lia.
    replace (T e - 1) with T0 in Hc by lia. now apply Hcl. }
  pose proof (emit_goal_fact e ps x y Hxy) as Hc.
  destruct (existsb (pair_eqb (x, y)) (goals e)) eqn:Ex.
  - apply existsb_exists in Ex. destruct Ex as (q & Hq & Eq).
    apply pair_eqb_eq in Eq. now rewrite Eq.
  - apply Hcl, unit_false in Hc; [congruence|now apply goal_pos].
Qed.

Lemma boxes_follow_frame (b t : Z) :
  1 <= t <= T0 -> 1 <= b <= num_boxes e ->
  (forall x y, on_grid e x y ->
     v (id_box e b x y (t - 1)) = true -> v (id_box e b x y t) = true) ->
  forall x y, on_grid e x y -> v (id_box e b x y t) = v (id_box e b x y (t - 1)).
Proof.
  intros Ht Hb Hframe x y Hxy.
  destruct (v (id_box e b x y (t - 1))) eqn:E; [now apply Hframe|].
  destruct (v (id_box e b x y t)) eqn:E'; [exfalso|reflexivity].
  destruct (box_somewhere b (t - 1) Hb ltac:(lia)) as (x0 & y0 & H0 & V0).
  pose proof (Hframe x0 y0 H0 V0) as V1.
  destruct (box_unique b t x y x0 y0) as [-> ->]; try assumption; try lia.
  congruence.
Qed.

Lemma player_follows_frame (t : Z) :
  1 <= t <= T0 ->
  (forall x y, on_grid e x y ->
     v (id_player e x y (t - 1)) = true -> v (id_player e x y t) = true) ->
  forall x y, on_grid e x y -> v (id_player e x y t) = v (id_player e x y (t - 1)).
Proof.
  intros Ht Hframe x y Hxy.
  destruct (v (id_player e x y (t - 1))) eqn:E; [now apply Hframe|].
  destruct (v (id_player e x y t)) eqn:E'; [exfalso|reflexivity].
  destruct (player_somewhere (t - 1) ltac:(lia)) as (x0 & y0 & H0 & V0).
  pose proof (Hframe x0 y0 H0 V0) as V1.
  destruct (player_at_most_one t x y x0 y0) as [-> ->]; try assumption; try lia.
  congruence.
Qed.

(** A plain move: when the action of step [t] is the move in direction
    [move] and the player was on [(x, y)], the cell ahead is on the grid and
    held no box, the player is on it at step [t], and no box has moved. *)
Theorem play_plain_move (t x y move : Z) :
  1 <= t <= T0 -> on_grid e x y -> 0 <= move < 4 ->
  v (id_move e (move + 1) t) = true -> v (id_player e x y (t - 1)) = true ->
  on_grid e (fst (step move x y)) (snd (step move x y)) /\
  v (id_player e (fst (step move x y)) (snd (step move x y)) t) = true /\
  (forall b x' y', 1 <= b <= num_boxes e -> on_grid e x' y' ->
     v (id_box e b x' y' t) = v (id_box e b x' y' (t - 1))) /\
  (forall b, 1 <= b <= num_boxes e ->
     v (id_box e b (fst (step move x y)) (snd (step move x y)) (t - 1)) = false).
Proof.
  intros Ht Hxy Hmove Va Vp.
  destruct play_clauses as (ps & _ & _ & Hcl). pose proof play_T.
  assert (Hm : 0 < id_move e (move + 1) t) by (apply move_pos; lia).
  assert (Hp : 0 < id_player e x y (t - 1)) by (apply player_pos; (assumption || lia)).
  pose proof (emit_move_player e ps x y move t Hxy Hmove ltac:(lia)) as Hc.
  apply Hcl in Hc.
  destruct (off_grid e (fst (step move x y)) (snd (step move x y))) eqn:Eoff.
  { exfalso. now apply (clause_excl v _ _ Hm Hp Hc). }
  apply off_grid_false in Eoff.
  assert (Vq : v (id_player e (fst (step move x y)) (snd (step move x y)) t) = true).
  { apply (clause_step v _ _ _ Hm Hp); try assumption.
    apply player_pos; (assumption || lia). }
  assert (Hkeep : forall b x' y', 1 <= b <= num_boxes e -> on_grid e x' y' ->
            v (id_box e b x' y' t) = v (id_box e b x' y' (t - 1))).
  { intros b x' y' Hb Hxy'. apply boxes_follow_frame; try assumption.
    intros x1 y1 H1 V1.
    apply (clause_step v (id_move e (move + 1) t) (id_box e b x1 y1 (t - 1)));
      try assumption; try (apply box_pos; (assumption || lia)).
    pose proof (emit_move_frame e ps x1 y1 move t (b - 1) H1 Hmove
                  ltac:(lia) ltac:(lia)) as Hf.
    replace (b - 1 + 1) with b in Hf by lia. now apply Hcl. }
  repeat split; try assumption; try apply Eoff.
  intros b Hb.
  destruct (v (id_box e b _ _ (t - 1))) eqn:E; [exfalso|reflexivity].
  rewrite <- Hkeep in E by assumption.
  apply (player_not_on_box t (fst (step move x y)) (snd (step move x y)) b);
    try assumption; lia.
Qed.

Lemma in_push_frame (x y t move box px py : Z) :
  on_grid e px py -> (px, py) <> step move x y ->
  In [- id_move e (move + 5) t; - id_player e x y (t - 1);
      - id_box e (box + 1) px py (t - 1); id_box e (box + 1) px py t]
     (push_frame e x y t move box).
Proof.
  intros [Hx Hy] Hne. unfold push_frame.
  apply in_flat_map. exists px. split; [now apply in_range|].
  apply in_flat_map. exists py. split; [now apply in_range|].
  destruct (pair_eqb (px, py) (step move x y)) eqn:E.
  - apply pair_eqb_eq in E. contradiction.
  - now left.
Qed.

(** A push: when the action of step [t] is the push in direction [move] and
    the player was on [(x, y)], the cell ahead and the cell beyond it are on
    the grid, some box was on the cell ahead, the player is on the cell ahead
    at step [t], that box is on the cell beyond, and no other box has
    moved. *)
Theorem play_push (t x y move : Z) :
  1 <= t <= T0 -> on_grid e x y -> 0 <= move < 4 ->
  v (id_move e (move + 5) t) = true -> v (id_player e x y (t - 1)) = true ->
  let new := step move x y in
  let beyond := step move (fst new) (snd new) in
  on_grid e (fst new) (snd new) /\ on_grid e (fst beyond) (snd beyond) /\
  v (id_player e (fst new) (snd new) t) = true /\
  exists b, 1 <= b <= num_boxes e /\
    v (id_box e b (fst new) (snd new) (t - 1)) = true /\
    v (id_box e b (fst beyond) (snd beyond) t) = true /\
    forall b' x' y', 1 <= b' <= num_boxes e -> b' <> b -> on_grid e x' y' ->
      v (id_box e b' x' y' t) = v (id_box e b' x' y' (t - 1)).
Proof.
  intros Ht Hxy Hmove Va Vp new beyond.
  destruct play_clauses as (ps & _ & _ & Hcl). pose proof play_T.
  assert (Hm : 0 < id_move e (move + 5) t) by (apply move_pos; lia).
  assert (Hp : 0 < id_player e x y (t - 1)) by (apply player_pos; (assumption || lia)).
  pose proof (emit_push e ps x y t move Hxy ltac:(lia) Hmove) as Hincl.
  fold new in Hincl. fold beyond in Hincl.
  destruct (off_grid e (fst new) (snd new) || off_grid e (fst beyond) (snd beyond))
    eqn:Eoff.
  { exfalso. apply (clause_excl v _ _ Hm Hp); try assumption.
    apply Hcl, Hincl. now left. }
  apply orb_false_iff in Eoff. destruct Eoff as [Enew Ebey].
  apply off_grid_false in Enew, Ebey.
  assert (Hin : forall box c, 0 <= box < num_boxes e ->
            In c ([push_follow e x y t move box; push_moved e x y t move box]
                  ++ push_frame e x y t move box) -> clause_sat v c).
  { intros box c Hbox Hc. apply Hcl, Hincl, in_or_app. left.
    apply in_flat_map. exists box. split; [now apply in_range|assumption]. }
  destruct (clause_guarded v (id_move e (move + 5) t) (id_player e x y (t - 1))
              (map (fun box => id_box e (box + 1) (fst new) (snd new) (t - 1))
                   (range 0 (num_boxes e))) Hm Hp)
    as (l & Hl & Vl); try assumption.
  { intros l Hl. apply in_map_iff in Hl. destruct Hl as (box & <- & Hbox).
    apply in_range in Hbox. apply box_pos; (assumption || lia). }
  { apply Hcl, Hincl, in_or_app. right. now left. }
  apply in_map_iff in Hl. destruct Hl as (box & <- & Hbox). apply in_range in Hbox.
  assert (Hb : 0 < id_box e (box + 1) (fst new) (snd new) (t - 1))
    by (apply box_pos; (assumption || lia)).
  split; [assumption|]. split; [assumption|]. split.
  { apply (clause_step3 v _ _ _ _ Hm Hp Hb); try assumption.
    - apply player_pos; (assumption || lia).
    - apply (Hin box); [assumption|]. now left. }
  exists (box + 1). split; [lia|]. split; [assumption|]. split.
  { apply (clause_step3 v _ _ _ _ Hm Hp Hb); try assumption.
    - apply box_pos; (assumption || lia).
    - apply (Hin box); [assumption|]. right. now left. }
  intros b' x' y' Hb' Hne Hxy'. apply boxes_follow_frame; try assumption.
  intros x1 y1 H1 V1.
  assert (Hcell : (x1, y1) <> new).
  { intros E. apply (boxes_apart (t - 1) (fst new) (snd new) b' (box + 1));
      try assumption; try lia.
    now rewrite <- E. }
  apply (clause_step3 v (id_move e (move + 5) t) (id_player e x y (t - 1))
           (id_box e b' x1 y1 (t - 1))); try assumption;
    try (apply box_pos; (assumption || lia)).
  apply (Hin (b' - 1)); [lia|]. right. right.
  pose proof (in_push_frame x y t move (b' - 1) x1 y1 H1 Hcell) as Hf.
  now replace (b' - 1 + 1) with b' in Hf by lia.
Qed.

(** A stay: when the action of step [t] is the stay, the player and every
    box are where they were. *)
Theorem play_stay (t x y : Z) :
  1 <= t <= T0 -> on_grid e x y -> v (id_move e 9 t) = true ->
  v (id_player e x y t) = v (id_player e x y (t - 1)) /\
  forall b, 1 <= b <= num_boxes e ->
    v (id_box e b x y t) = v (id_box e b x y (t - 1)).
Proof.
  intros Ht Hxy Va. destruct play_clauses as (ps & _ & _ & Hcl). pose proof play_T.
  assert (Hm : 0 < id_move e 9 t) by (apply move_pos; lia).
  split.
  - apply player_follows_frame; try assumption. intros x1 y1 H1 V1.
    apply (clause_step v (id_move e 9 t) (id_player e x1 y1 (t - 1)));
      try assumption; try (apply player_pos; (assumption || lia)).
    apply Hcl, emit_stay_player; (assumption || lia).
  - intros b Hb. apply boxes_follow_frame; try assumption. intros x1 y1 H1 V1.
    apply (clause_step v (id_move e 9 t) (id_box e b x1 y1 (t - 1)));
      try assumption; try (apply box_pos; (assumption || lia)).
    pose proof (emit_stay_box e ps t x1 y1 (b - 1) ltac:(lia) H1 ltac:(lia)) as Hf.
    replace (b - 1 + 1) with b in Hf by lia. now apply Hcl.
Qed.

Lemma player_walks (t x y move : Z) :
  1 <= t <= T0 -> on_grid e x y -> 0 <= move < 4 ->
  v (id_move e (move + 1) t) = true -> v (id_player e x y (t - 1)) = true ->
  on_grid e (fst (step move x y)) (snd (step move x y)) /\
  v (id_player e (fst (step move x y)) (snd (step move x y)) t) = true.
Proof.
  intros Ht Hxy Hmove Va Vp.
  destruct play_clauses as (ps & _ & _ & Hcl). pose proof play_T.
  assert (Hm : 0 < id_move e (move + 1) t) by (apply move_pos; lia).
  assert (Hp : 0 < id_player e x y (t - 1)) by (apply player_pos; (assumption || lia)).
  pose proof (emit_move_player e ps x y move t Hxy Hmove ltac:(lia)) as Hc.
  apply Hcl in Hc.
  destruct (off_grid e (fst (step move x y)) (snd (step move x y))) eqn:Eoff.
  { exfalso. now apply (clause_excl v _ _ Hm Hp Hc). }
  apply off_grid_false in Eoff. split; [assumption|].
  apply (clause_step v _ _ _ Hm Hp); try assumption.
  apply player_pos; (assumption || lia).
Qed.

Lemma player_pushes (t x y move : Z) :
  1 <= t <= T0 -> on_grid e x y -> 0 <= move < 4 ->
  v (id_move e (move + 5) t) = true -> v (id_player e x y (t - 1)) = true ->
  on_grid e (fst (step move x y)) (snd (step move x y)) /\
  v (id_player e (fst (step move x y)) (snd (step move x y)) t) = true.
Proof.
  intros Ht Hxy Hmove Va Vp.
  destruct play_clauses as (ps & _ & _ & Hcl). pose proof play_T.
  assert (Hm : 0 < id_move e (move + 5) t) by (apply move_pos; lia).
  assert (Hp : 0 < id_player e x y (t - 1)) by (apply player_pos; (assumption || lia)).
  pose proof (emit_push e ps x y t move Hxy ltac:(lia) Hmove) as Hincl.
  set (new := step move x y) in *.
  set (beyond := step move (fst new) (snd new)) in *.
  destruct (off_grid e (fst new) (snd new) || off_grid e (fst beyond) (snd beyond))
    eqn:Eoff.
  { exfalso. apply (clause_excl v _ _ Hm Hp); try assumption.
    apply Hcl, Hincl. now left. }
  apply orb_false_iff in Eoff. destruct Eoff as [Enew _].
  apply off_grid_false in Enew. split; [assumption|].
  destruct (clause_guarded v (id_move e (move + 5) t) (id_player e x y (t - 1))
              (map (fun box => id_box e (box + 1) (fst new) (snd new) (t - 1))
                   (range 0 (num_boxes e))) Hm Hp)
    as (l & Hl & Vl); try assumption.
  { intros l Hl. apply in_map_iff in Hl. destruct Hl as (box & <- & Hbox).
    apply in_range in Hbox. apply box_pos; (assumption || lia). }
  { apply Hcl, Hincl, in_or_app. right. now left. }
  apply in_map_iff in Hl. destruct Hl as (box & <- & Hbox). apply in_range in Hbox.
  assert (Hb : 0 < id_box e (box + 1) (fst new) (snd new) (t - 1))
    by (apply box_pos; (assumption || lia)).
  apply (clause_step3 v _ _ _ _ Hm Hp Hb); try assumption.
  - apply player_pos; (assumption || lia).
  - apply Hcl, Hincl, in_or_app. left. apply in_flat_map. exists box.
    split; [now apply in_range|]. now left.
Qed.

(** The decoder's table agrees with the encoder's and with [DIRS]: when the
    action of step [t] is a move or a push, [decode] emits one symbol for
    it, and in the model the player goes from its cell to the cell [DIRS]
    gives for that symbol. *)
Theorem play_follows_symbol (t x y a : Z) :
  1 <= t <= T0 -> on_grid e x y -> 1 <= a <= 8 ->
  v (id_move e a t) = true -> v (id_player e x y (t - 1)) = true ->
  exists s d, symbol a = [s] /\ dict_get DIRS s = Some d /\
    on_grid e (x + fst d) (y + snd d) /\
    v (id_player e (x + fst d) (y + snd d) t) = true.
Proof.
  intros Ht Hxy Ha Va Vp.
  assert (Hgo : forall move, 0 <= move < 4 -> (a = move + 1 \/ a = move + 5) ->
            on_grid e (fst (step move x y)) (snd (step move x y)) /\
            v (id_player e (fst (step move x y)) (snd (step move x y)) t) = true).
  { intros move Hmove [E|E]; subst a;
      [now apply player_walks|now apply player_pushes]. }
  assert (C : a = 1 \/ a = 5 \/ a = 2 \/ a = 6 \/ a = 3 \/ a = 7 \/ a = 4 \/ a = 8)
    by lia.
  destruct C as [E|[E|[E|[E|[E|[E|[E|E]]]]]]].
  1,2: exists "U"%string, (-1, 0); destruct (Hgo 0) as [H1 H2]; [lia|lia|].
  3,4: exists "R"%string, (0, 1); destruct (Hgo 1) as [H1 H2]; [lia|lia|].
  5,6: exists "D"%string, (1, 0); destruct (Hgo 2) as [H1 H2]; [lia|lia|].
  7,8: exists "L"%string, (0, -1); destruct (Hgo 3) as [H1 H2]; [lia|lia|].
  all: subst a; unfold step in H1, H2; cbn in H1, H2; cbn [fst snd];
    try replace (x + -1) with (x - 1) by lia;
    try replace (y + -1) with (y - 1) by lia;
    rewrite ?Z.add_0_r; split; [reflexivity|split; [reflexivity|split; assumption]].
Qed.

End Play.

(** ** Question2: the variables of the clause list *)

Section LiteralRange.

Import Sokoban.

Variable e : SokobanEncoder.
Variable ps : Z * Z.
Hypothesis wf : wf_encoder e.
Hypothesis horizon : 1 <= T e.
Hypothesis start : on_grid e (fst ps) (snd ps).

Let ok (l : Z) : Prop := 1 <= Z.abs l <= total_var_count e.

Let all_ok (c : clause) : Prop := forall l, In l c -> ok l.

Lemma ok_fact (f0 : fact) : in_bounds e f0 -> ok (id_of e f0) /\ ok (- id_of e f0).
Proof.
  intros H. pose proof (id_pos e (wf_dims e wf ltac:(lia)) f0 H). unfold ok. lia.
Qed.

Ltac as_facts :=
  repeat match goal with
         | |- context [id_player e ?x ?y ?t] =>
             change (id_player e x y t) with (id_of e (Player x y t))
         | |- context [id_box e ?b ?x ?y ?t] =>
             change (id_box e b x y t) with (id_of e (Box b x y t))
         | |- context [id_move e ?n ?t] =>
             change (id_move e n t) with (id_of e (Move n t))
         | |- context [id_goal e ?x ?y] =>
             change (id_goal e x y) with (id_of e (Goal x y))
         end.

Ltac in_b :=
  cbn [in_bounds]; unfold on_grid in *; cbn [fst snd] in *; repeat split; lia.

Ltac lit_ok := as_facts; apply ok_fact; in_b.

Ltac clause_ok :=
  let l := fresh "l" in
  let Hl := fresh "Hl" in
  intros l Hl; cbn [In app] in Hl;
  repeat (destruct Hl as [<-|Hl]; [lit_ok|]); contradiction.

Lemma ok_pairwise (cl c : clause) :
  (forall l, In l cl -> ok (- l)) -> In c (pairwise_neg (len cl) cl) -> all_ok c.
Proof.
  intros Hcl Hc. apply pairwise_neg_inv in Hc. destruct Hc as (i & j & Hi & Hj & ->).
  intros l [<-|[<-|[]]]; apply Hcl, nth_In; unfold len in *; lia.
Qed.

Lemma ok_player_cells (t l : Z) :
  0 <= t < T e -> In l (player_cells e t) -> ok l /\ ok (- l).
Proof.
  intros Ht Hl. rewrite player_cells_map in Hl. apply in_map_iff in Hl.
  destruct Hl as ([x y] & <- & Hp). apply in_cells in Hp.
  as_facts. apply ok_fact. in_b.
Qed.

Lemma ok_box_cells (box t l : Z) :
  0 <= box < num_boxes e -> 0 <= t < T e -> In l (box_cells e box t) ->
  ok l /\ ok (- l).
Proof.
  intros Hb Ht Hl. apply box_cells_inv in Hl. destruct Hl as (x & y & Hxy & ->).
  as_facts. apply ok_fact. in_b.
Qed.

Lemma ok_initial (c : clause) : In c (initial_clauses e ps) -> all_ok c.
Proof.
  unfold initial_clauses. intros [<-|H]; [clause_ok|].
  apply in_app_iff in H. destruct H as [H|H].
  { apply in_flat_map in H. destruct H as (box & Hb & H). apply in_range in Hb.
    cbv zeta in H. destruct H as [<-|[]].
    pose proof (box_on_grid e wf box Hb). clause_ok. }
  apply in_app_iff in H. destruct H as [H|H].
  { apply in_flat_map in H. destruct H as (x & Hx & H).
    apply in_flat_map in H. destruct H as (y & Hy & H). apply in_range in Hx, Hy.
    destruct (existsb _ _); destruct H as [<-|[]]; clause_ok. }
  apply in_app_iff in H. destruct H as [H|H].
  { apply in_flat_map in H. destruct H as (wall & Hw & H).
    apply in_flat_map in H. destruct H as (t & Ht & H). apply in_range in Hw, Ht.
    pose proof (wall_on_grid e wf wall Hw). cbv zeta in H.
    destruct H as [<-|H]; [clause_ok|].
    apply in_flat_map in H. destruct H as (box & Hb & [<-|[]]).
    apply in_range in Hb. clause_ok. }
  destruct H as [<-|[]]. clause_ok.
Qed.

Lemma ok_moves (c : clause) : In c (move_clauses e) -> all_ok c.
Proof.
  unfold move_clauses. intros H.
  apply in_flat_map in H. destruct H as (x & Hx & H).
  apply in_flat_map in H. destruct H as (y & Hy & H).
  apply in_flat_map in H. destruct H as (move & Hm & H).
  apply in_flat_map in H. destruct H as (t & Ht & H).
  apply in_range in Ht, Hx, Hy, Hm.
  apply in_app_iff in H. destruct H as [H|H].
  - apply in_flat_map in H. destruct H as (box & Hb & [<-|[]]).
    apply in_range in Hb. clause_ok.
  - cbv zeta in H.
    destruct (off_grid e (fst (step move x y)) (snd (step move x y))) eqn:Eoff;
      destruct H as [<-|[]]; [clause_ok|].
    apply off_grid_false in Eoff. clause_ok.
Qed.

Lemma ok_pushes (c : clause) : In c (push_clauses e) -> all_ok c.
Proof.
  unfold push_clauses. intros H.
  apply in_flat_map in H. destruct H as (x & Hx & H).
  apply in_flat_map in H. destruct H as (y & Hy & H).
  apply in_flat_map in H. destruct H as (t & Ht & H).
  apply in_flat_map in H. destruct H as (move & Hm & H).
  apply in_range in Ht, Hx, Hy, Hm. cbv zeta in H.
  destruct (off_grid e _ _ || off_grid e _ _) eqn:Eoff.
  { destruct H as [<-|[]]. clause_ok. }
  apply orb_false_iff in Eoff. destruct Eoff as [Enew Ebey].
  apply off_grid_false in Enew, Ebey.
  apply in_app_iff in H. destruct H as [H|[<-|[]]].
  - apply in_flat_map in H. destruct H as (box & Hb & H). apply in_range in Hb.
    cbn [app] in H. destruct H as [<-|[<-|H]].
    + unfold push_follow. cbv zeta. clause_ok.
    + unfold push_moved. cbv zeta. clause_ok.
    + unfold push_frame in H. cbv zeta in H.
      apply in_flat_map in H. destruct H as (px & Hpx & H).
      apply in_flat_map in H. destruct H as (py & Hpy & H).
      apply in_range in Hpx, Hpy.
      destruct (negb _); [|contradiction]. destruct H as [<-|[]]. clause_ok.
  - unfold push_ahead. cbv zeta. intros l Hl. cbn [app In] in Hl.
    destruct Hl as [<-|[<-|Hl]]; [lit_ok|lit_ok|].
    apply in_map_iff in Hl. destruct Hl as (box & <- & Hb). apply in_range in Hb.
    lit_ok.
Qed.

Lemma ok_overlap (c : clause) : In c (overlap_clauses e) -> all_ok c.
Proof.
  unfold overlap_clauses. intros H.
  apply in_flat_map in H. destruct H as (x & Hx & H).
  apply in_flat_map in H. destruct H as (y & Hy & H).
  apply in_flat_map in H. destruct H as (box & Hb & H).
  apply in_flat_map in H. destruct H as (t & Ht & H).
  apply in_range in Ht, Hx, Hy, Hb.
  destruct H as [<-|H]; [clause_ok|].
  apply in_flat_map in H. destruct H as (boxd & Hd & [<-|[]]).
  apply in_range in Hd. clause_ok.
Qed.

Lemma ok_goal (c : clause) : In c (goal_clauses e) -> all_ok c.
Proof.
  unfold goal_clauses. intros H.
  apply in_flat_map in H. destruct H as (x & Hx & H).
  apply in_flat_map in H. destruct H as (y & Hy & H).
  apply in_flat_map in H. destruct H as (box & Hb & [<-|[]]).
  apply in_range in Hx, Hy, Hb. clause_ok.
Qed.

Lemma ok_actions (c : clause) : In c (action_clauses e) -> all_ok c.
Proof.
  unfold action_clauses. intros H.
  apply in_flat_map in H. destruct H as (t & Ht & H). apply in_range in Ht.
  apply in_app_iff in H. destruct H as [H|[<-|[]]].
  - apply in_flat_map in H. destruct H as (i & Hi & H).
    apply in_flat_map in H. destruct H as (j & Hj & [<-|[]]).
    apply in_range in Hi, Hj. clause_ok.
  - intros l Hl. apply in_map_iff in Hl. destruct Hl as (i & <- & Hi).
    apply in_range in Hi. lit_ok.
Qed.

Lemma ok_unique (c : clause) : In c (unique_clauses e) -> all_ok c.
Proof.
  unfold unique_clauses. intros H.
  apply in_flat_map in H. destruct H as (t & Ht & H). apply in_range in Ht.
  destruct H as [<-|H].
  { intros l Hl. now apply (ok_player_cells t). }
  apply in_app_iff in H. destruct H as [H|H].
  { apply ok_pairwise in H; [assumption|].
    intros l Hl. now apply (ok_player_cells t). }
  apply in_flat_map in H. destruct H as (box & Hb & H). apply in_range in Hb.
  destruct H as [<-|H].
  { intros l Hl. now apply (ok_box_cells box t). }
  apply ok_pairwise in H; [assumption|].
  intros l Hl. now apply (ok_box_cells box t).
Qed.

Lemma ok_stay (c : clause) : In c (stay_clauses e) -> all_ok c.
Proof.
  unfold stay_clauses. intros H.
  apply in_flat_map in H. destruct H as (t & Ht & H).
  apply in_flat_map in H. destruct H as (x & Hx & H).
  apply in_flat_map in H. destruct H as (y & Hy & H).
  apply in_range in Ht, Hx, Hy.
  apply in_app_iff in H. destruct H as [H|[<-|[]]].
  - apply in_flat_map in H. destruct H as (box & Hb & [<-|[]]).
    apply in_range in Hb. clause_ok.
  - clause_ok.
Qed.

Lemma ok_encode (c : clause) (l : Z) :
  In c (encode_clauses e ps) -> In l c -> 1 <= Z.abs l <= total_var_count e.
Proof.
  unfold encode_clauses. intros H.
  repeat (apply in_app_iff in H; destruct H as [H|H];
          [first [now apply ok_initial | now apply ok_moves | now apply ok_pushes
                 | now apply ok_overlap | now apply ok_goal | now apply ok_actions
                 | now apply ok_unique]|]).
  now apply ok_stay.
Qed.

End LiteralRange.

Section LiteralRangeOfEncode.

Import Sokoban.

(** [encode] emits no literal outside the numbering: every literal of the
    clause list is a variable of [1..total_var_count], the count of the
    comment that closes q2.py, or its negation, and none is zero. *)
Theorem encode_literals_in_range (g : list (list string)) (T0 : Z)
    (e : SokobanEncoder) (f : cnf) (c : clause) (l : Z) :
  __init__ g T0 = Ok e -> 0 <= T0 -> encode e = Ok f ->
  In c f -> In l c -> 1 <= Z.abs l <= total_var_count e.
Proof.
  intros Hinit HT0 Henc.
  destruct (init_wf g T0 e Hinit) as (Hwf & HT & _).
  destruct (encode_inv g T0 e f Hinit HT0 Henc) as (ps & Hps & ->).
  apply ok_encode; [assumption|lia|].
  destruct Hwf as (_ & _ & _ & _ & _ & Hon). now apply Hon.
Qed.

Lemma encode_no_zero (g : list (list string)) (T0 : Z) (e : SokobanEncoder) (f : cnf) :
  __init__ g T0 = Ok e -> 0 <= T0 -> encode e = Ok f -> has_zero f = false.
Proof.
  intros Hinit HT0 Henc.
  destruct (init_wf g T0 e Hinit) as (Hwf & HT & _).
  destruct (encode_inv g T0 e f Hinit HT0 Henc) as (ps & Hps & ->).
  apply has_zero_false. intros c l Hc Hl ->.
  enough (1 <= Z.abs 0 <= total_var_count e) by lia.
  apply (ok_encode e ps Hwf ltac:(lia)) with (c := c); try assumption.
  destruct Hwf as (_ & _ & _ & _ & _ & Hon). now apply Hon.
Qed.

End LiteralRangeOfEncode.

(** ** Question2: the plan [decode] and [solve_sokoban] return *)

Lemma length_flat_map_le {A B} (f : A -> list B) (l : list A) :
  (forall x, In x l -> (length (f x) <= 1)%nat) ->
  (length (flat_map f l) <= length l)%nat.
Proof.
  induction l as [|a l IH]; intros H; cbn; [lia|].
  rewrite length_app. pose proof (H a (or_introl eq_refl)).
  pose proof (IH (fun x Hx => H x (or_intror Hx))). lia.
Qed.

Section Plans.

Import Sokoban Examples.

(** The four direction symbols. *)
Let directions : list string := ["U"; "R"; "D"; "L"]%string.

Lemma symbol_direction (a : Z) (s : string) :
  1 <= a <= 9 -> In s (symbol a) -> In s directions.
Proof.
  intros Ha Hin.
  assert (C : a = 1 \/ a = 2 \/ a = 3 \/ a = 4 \/ a = 5 \/ a = 6 \/ a = 7 \/ a = 8
              \/ a = 9) by lia.
  repeat (destruct C as [->|C]; [cbn in Hin; destruct Hin as [<-|[]]; cbn; tauto|]).
  subst a. contradiction.
Qed.

(** What [decode] reads on a model of the clause list: the model is not
    empty, no index is out of range, step 0 is the stay and every step has
    one action. *)
Lemma model_actions (g : list (list string)) (T0 : Z) (e : SokobanEncoder)
      (f : cnf) (m : list Z) :
  __init__ g T0 = Ok e -> 0 <= T0 -> encode e = Ok f -> is_model m f = true ->
  m <> [] /\
  decode e m
  = Ok (flat_map (fun t => flat_map symbol (actions_at e m t)) (range 0 (T e))) /\
  actions_at e m 0 = [9] /\
  forall t, 0 <= t <= T0 -> exists a, 1 <= a <= 9 /\ actions_at e m t = [a].
Proof.
  intros Hinit HT0 Henc Hm.
  destruct (init_wf g T0 e Hinit) as (Hwf & HT & _).
  assert (dims : dims_ok e) by (apply wf_dims; [assumption|lia]).
  destruct (encode_inv g T0 e f Hinit HT0 Henc) as (ps & Hps & ->).
  pose proof (model_covers_actions e ps m dims ltac:(lia) Hm) as Hlen.
  pose proof (is_model_sat _ _ Hm) as Hsat.
  assert (Hact : cnf_sat (var_true m) (action_clauses e))
    by (intros c Hc; now apply Hsat, in_actions).
  assert (Hone : forall t, 0 <= t <= T0 ->
            exists a, 1 <= a <= 9 /\ var_true m (id_move e a t) = true /\
                      actions_at e m t = [a]).
  { intros t Ht.
    destruct (action_some e (var_true m) dims Hact t ltac:(lia)) as (a & Ha & Va).
    exists a. split; [assumption|]. split; [assumption|].
    apply filter_unique; [apply NoDup_range|apply in_range; lia|assumption|].
    intros b Hb Vb. apply in_range in Hb.
    apply (action_unique e (var_true m) dims Hact t b a); auto; lia. }
  split; [|split; [|split]].
  - intros ->. unfold len in Hlen. cbn in Hlen.
    destruct dims as (HN & HM & _ & _). nia.
  - now rewrite decode_actions by (assumption || (intros _; assumption)).
  - destruct (Hone 0 ltac:(lia)) as (a & Ha & Va & Ea).
    enough (a = 9) by now subst a.
    apply (action_unique e (var_true m) dims Hact 0); auto; try lia.
    apply unit_true; [apply id_move_pos; (assumption || lia)|].
    apply Hsat, emit_stay_first.
  - intros t Ht. destruct (Hone t Ht) as (a & Ha & _ & Ea). now exists a.
Qed.

(** On a model of the clause list [decode] raises nothing and returns a plan
    of at most [T] moves, each of them one of U, R, D, L: the stay of a step
    leaves no symbol, and step 0 is a stay. *)
Theorem decode_plan_bounded (g : list (list string)) (T0 : Z) (e : SokobanEncoder)
    (f : cnf) (m : list Z) :
  __init__ g T0 = Ok e -> 0 <= T0 -> encode e = Ok f -> is_model m f = true ->
  exists plan, decode e m = Ok plan /\ len plan <= T0 /\
               forall s, In s plan -> In s ["U"; "R"; "D"; "L"]%string.
Proof.
  intros Hinit HT0 Henc Hm.
  destruct (init_wf g T0 e Hinit) as (_ & HT & _).
  destruct (model_actions g T0 e f m Hinit HT0 Henc Hm) as (_ & Ed & E0 & Hone).
  eexists. split; [exact Ed|]. split.
  - rewrite HT, (range_cons 0) by lia. cbn [flat_map].
    rewrite E0. cbn [flat_map symbol app].
    unfold len. pose proof (length_flat_map_le
      (fun t => flat_map symbol (actions_at e m t)) (range 1 (T0 + 1))) as Hle.
    rewrite length_range in Hle.
    enough (length (flat_map (fun t => flat_map symbol (actions_at e m t))
                      (range (0 + 1) (T0 + 1))) <= Z.to_nat (T0 + 1 - 1))%nat by lia.
    apply Hle. intros t Ht. apply in_range in Ht.
    destruct (Hone t ltac:(lia)) as (b & Hb & ->). cbn [flat_map].
    rewrite app_nil_r.
    assert (C : b = 1 \/ b = 2 \/ b = 3 \/ b = 4 \/ b = 5 \/ b = 6 \/ b = 7 \/ b = 8
                \/ b = 9) by lia.
    repeat (destruct C as [->|C]; [cbn; lia|]). subst b. cbn. lia.
  - intros s Hs. apply in_flat_map in Hs. destruct Hs as (t & Ht & Hs).
    apply in_range in Ht. rewrite HT in Ht.
    destruct (Hone t ltac:(lia)) as (b & Hb & Eb). rewrite Eb in Hs.
    cbn [flat_map] in Hs. rewrite app_nil_r in Hs.
    now apply (symbol_direction b).
Qed.

(** A list shorter than the action variables is not decoded: [decode] raises
    [IndexError] at the first index the list does not have. *)
Theorem decode_short_model (g : list (list string)) (T0 : Z) (e : SokobanEncoder)
    (m : list Z) :
  __init__ g T0 = Ok e -> 0 <= T0 ->
  len m < (T e + 1) * N e * M e + 9 * T e ->
  decode e m = Raise IndexError.
Proof.
  intros Hinit HT0 Hlen.
  destruct (init_wf g T0 e Hinit) as (Hwf & HT & _).
  assert (dims : dims_ok e) by (apply wf_dims; [assumption|lia]).
  assert (Hbase : 0 <= (T e + 1) * N e * M e).
  { destruct dims as (HN & HM & HTe & _). nia. }
  unfold decode. apply for_raise.
  - intros index _. destruct (py_get_cases m index) as [->|(x & ->)]; cbn;
      [now left|right]. destruct (0 <? x); eauto.
  - exists (Z.max ((T e + 1) * N e * M e) (len m)). split.
    + apply in_range. unfold len in *. lia.
    + rewrite py_get_out by lia. reflexivity.
Qed.

(** With a solver that answers SAT only with a model and UNSAT only when
    there is none, [solve_sokoban] on a level with a player and a horizon
    [T >= 0] raises nothing: it returns [-1] exactly when the clause list is
    unsatisfiable, and otherwise what [decode] reads from a model of the
    clause list (a model is never the empty list, so the test on the model
    never gives [-1]). *)
Theorem solve_sokoban_answer
    (oracle : cnf -> option (list Z)) (g : list (list string)) (T0 : Z)
    (e : SokobanEncoder) (f : cnf) :
  sat_oracle oracle -> __init__ g T0 = Ok e -> 0 <= T0 -> encode e = Ok f ->
  (satisfiable f ->
     exists m plan, is_model m f = true /\ decode e m = Ok plan /\
                    solve_sokoban oracle g T0 = Ok (Moves plan)) /\
  (~ satisfiable f -> solve_sokoban oracle g T0 = Ok Unsat).
Proof.
  intros Hor Hinit HT0 Henc. unfold solve_sokoban.
  rewrite Hinit. cbn [rbind]. rewrite Henc. cbn [rbind].
  rewrite (solver_answer_ok oracle f (encode_no_zero g T0 e f Hinit HT0 Henc)).
  cbn [rbind].
  specialize (Hor f). destruct (oracle f) as [m|].
  - destruct (model_actions g T0 e f m Hinit HT0 Henc Hor) as (Hne & Ed & _).
    split.
    + intros _. eexists m, _. split; [assumption|]. split; [exact Ed|].
      destruct m as [|x m]; [contradiction|]. now rewrite Ed.
    + intros Hno. exfalso. apply Hno. now exists m.
  - split; [intros Hs; contradiction|reflexivity].
Qed.

(** A cell holds one character, so no box starts on a goal; with horizon 0
    the boxes must be on goals where they start: for a level with a box the
    clause list of horizon 0 has no model and [solve_sokoban] returns [-1]. *)
Theorem horizon_zero_with_box_unsat
    (oracle : cnf -> option (list Z)) (g : list (list string))
    (e : SokobanEncoder) (f : cnf) :
  sat_oracle oracle -> __init__ g 0 = Ok e -> encode e = Ok f ->
  0 < num_boxes e ->
  ~ satisfiable f /\ solve_sokoban oracle g 0 = Ok Unsat.
Proof.
  intros Hor Hinit Henc Hbox.
  assert (Hno : ~ satisfiable f).
  { intros (m & Hm). pose proof (is_model_sat _ _ Hm) as Hsat.
    destruct (init_wf g 0 e Hinit) as (Hwf & HT & _).
    destruct (encode_inv g 0 e f Hinit ltac:(lia) Henc) as (ps & Hps & ->).
    pose proof (box_on_grid e Hwf 0 ltac:(lia)) as Hon.
    pose proof (emit_box_start e ps 0 ltac:(lia)) as Hstart.
    pose proof Hwf as (_ & _ & Hnb & _).
    assert (Hin : In (nth (Z.to_nat 0) (boxes e) (0, 0)) (boxes e))
      by (apply nth_In; unfold len in Hnb; lia).
    set (p := nth (Z.to_nat 0) (boxes e) (0, 0)) in *.
    assert (Hb : 0 < id_box e (0 + 1) (fst p) (snd p) 0)
      by (apply (box_pos g 0 e Hinit); (assumption || lia)).
    assert (Hg : 0 < id_goal e (fst p) (snd p))
      by now apply (goal_pos g 0 e Hinit).
    assert (Vb : var_true m (id_box e (0 + 1) (fst p) (snd p) 0) = true)
      by now apply unit_true, Hsat.
    assert (Vg : var_true m (id_goal e (fst p) (snd p)) = true).
    { apply (clause_imp _ (id_box e (0 + 1) (fst p) (snd p) 0)); try assumption.
      pose proof (emit_goal e ps (fst p) (snd p) 0 Hon ltac:(lia)) as Hc.
      replace (T e - 1) with 0 in Hc by lia. now apply Hsat. }
    pose proof (emit_goal_fact e ps (fst p) (snd p) Hon) as Hc.
    destruct (existsb (pair_eqb (fst p, snd p)) (goals e)) eqn:Ex.
    - apply existsb_exists in Ex. destruct Ex as (q & Hq & Eq).
      apply pair_eqb_eq in Eq. rewrite <- Eq, <- surjective_pairing in Hq.
      now apply (init_marks g 0 e Hinit p).
    - apply Hsat, unit_false in Hc; [congruence|assumption]. }
  split; [assumption|].
  unfold solve_sokoban. rewrite Hinit. cbn [rbind]. rewrite Henc. cbn [rbind].
  rewrite (solver_answer_ok oracle f
             (encode_no_zero g 0 e f Hinit ltac:(lia) Henc)).
  cbn [rbind].
  specialize (Hor f). destruct (oracle f) as [m|]; [|reflexivity].
  exfalso. apply Hno. now exists m.
Qed.

End Plans.


(** ** Question2: the further properties on example levels *)

Section SokobanInstances.

Import Sokoban Examples.

Lemma init_tour : __init__ level_tour 3 = Ok encoder_tour.
Proof. vm_compute. reflexivity. Qed.

Lemma encode_tour : encode encoder_tour = Ok (encode_clauses encoder_tour (0, 0)).
Proof. vm_compute. reflexivity. Qed.

Lemma model_tour : is_model plan_tour (encode_clauses encoder_tour (0, 0)) = true.
Proof. vm_compute. reflexivity. Qed.

Lemma sat_tour : cnf_sat (var_true plan_tour) (encode_clauses encoder_tour (0, 0)).
Proof. apply is_model_sat, model_tour. Qed.

Lemma on_tour (y : Z) : 0 <= y < 5 -> on_grid encoder_tour 0 y.
Proof. intros Hy. unfold on_grid. cbn. lia. Qed.

(** The constructor on a two-row level with every kind of cell. *)
Lemma init_reads_grid_witness :
  exists e, __init__ level_mixed 3 = Ok e /\
    grid e = level_mixed /\ T e = 3 + 1 /\ N e = len level_mixed /\
    M e = len (hd [] level_mixed) /\
    boxes e = marked e "B" /\ goals e = marked e "G" /\ walls e = marked e "#" /\
    player_start e = last (map Some (marked e "P")) None /\
    num_boxes e = len (boxes e).
Proof.
  apply (init_reads_grid level_mixed 3).
  - discriminate.
  - intros row [<-|[<-|[]]]; vm_compute; discriminate.
Defined.

(** The constructor on a level whose second row is short. *)
Lemma init_index_error_witness :
  __init__ level_ragged 1 = Raise IndexError /\
  solve_sokoban brute_force level_ragged 1 = Raise IndexError.
Proof.
  apply (init_index_error brute_force level_ragged 1).
  right. exists ["."; "."]%string. split; [right; now left|vm_compute; reflexivity].
Defined.

(** The horizon -1 on the tour level. *)
Lemma negative_horizon_fails_assertion_witness :
  encode (with_horizon encoder_tour 0) = Raise AssertionError /\
  solve_sokoban brute_force level_tour (-1) = Raise AssertionError.
Proof.
  apply (negative_horizon_fails_assertion brute_force level_tour (-1)
           (with_horizon encoder_tour 0)).
  - vm_compute. reflexivity.
  - lia.
  - discriminate.
Defined.

(** The first clause of the tour level, the player's start. *)
Lemma encode_literals_in_range_witness :
  1 <= Z.abs 6 <= total_var_count encoder_tour.
Proof.
  apply (encode_literals_in_range level_tour 3 encoder_tour
           (encode_clauses encoder_tour (0, 0)) [6] 6).
  - exact init_tour.
  - lia.
  - exact encode_tour.
  - now left.
  - now left.
Defined.

(** Step 2 of the tour. *)
Lemma play_state_unique_witness :
  (exists x y, on_grid encoder_tour x y /\
     forall x' y', on_grid encoder_tour x' y' ->
       (var_true plan_tour (id_player encoder_tour x' y' 2) = true
        <-> x' = x /\ y' = y)) /\
  (forall b, 1 <= b <= num_boxes encoder_tour ->
     exists x y, on_grid encoder_tour x y /\
       forall x' y', on_grid encoder_tour x' y' ->
         (var_true plan_tour (id_box encoder_tour b x' y' 2) = true
          <-> x' = x /\ y' = y)).
Proof.
  apply (play_state_unique level_tour 3 encoder_tour
           (encode_clauses encoder_tour (0, 0)) (var_true plan_tour)
           init_tour ltac:(lia) encode_tour sat_tour 2).
  lia.
Defined.

(** Step 0 of the tour, at the player's cell. *)
Lemma play_starts_at_level_witness :
  (var_true plan_tour (id_player encoder_tour 0 0 0) = true
   <-> player_start encoder_tour = Some (0, 0)) /\
  (forall box, 0 <= box < num_boxes encoder_tour ->
     (var_true plan_tour (id_box encoder_tour (box + 1) 0 0 0) = true <->
      nth (Z.to_nat box) (boxes encoder_tour) (0, 0) = (0, 0))).
Proof.
  apply (play_starts_at_level level_tour 3 encoder_tour
           (encode_clauses encoder_tour (0, 0)) (var_true plan_tour)
           init_tour ltac:(lia) encode_tour sat_tour 0 0).
  apply on_tour. lia.
Defined.

(** The wall of the tour level at the last step. *)
Lemma play_avoids_walls_witness :
  var_true plan_tour (id_player encoder_tour (fst (0, 4)) (snd (0, 4)) 3) = false /\
  forall b, 1 <= b <= num_boxes encoder_tour ->
    var_true plan_tour (id_box encoder_tour b (fst (0, 4)) (snd (0, 4)) 3) = false.
Proof.
  apply (play_avoids_walls level_tour 3 encoder_tour
           (encode_clauses encoder_tour (0, 0)) (var_true plan_tour)
           init_tour ltac:(lia) encode_tour sat_tour (0, 4) 3).
  - now left.
  - lia.
Defined.

(** The player's cell at step 2 of the tour. *)
Lemma play_no_overlap_witness :
  (var_true plan_tour (id_player encoder_tour 0 2 2) = true ->
   var_true plan_tour (id_box encoder_tour 1 0 2 2) = false) /\
  (1 <> 1 -> var_true plan_tour (id_box encoder_tour 1 0 2 2) = true ->
   var_true plan_tour (id_box encoder_tour 1 0 2 2) = false).
Proof.
  apply (play_no_overlap level_tour 3 encoder_tour
           (encode_clauses encoder_tour (0, 0)) (var_true plan_tour)
           init_tour ltac:(lia) encode_tour sat_tour 2 0 2 1 1).
  - lia.
  - apply on_tour. lia.
  - cbn. lia.
  - cbn. lia.
Defined.

(** The box of the tour ends on the goal. *)
Lemma play_ends_on_goals_witness : In (0, 3) (goals encoder_tour).
Proof.
  apply (play_ends_on_goals level_tour 3 encoder_tour
           (encode_clauses encoder_tour (0, 0)) (var_true plan_tour)
           init_tour ltac:(lia) encode_tour sat_tour 1 0 3).
  - cbn. lia.
  - apply on_tour. lia.
  - vm_compute. reflexivity.
Defined.

(** Step 1 of the tour: the walk to the right. *)
Lemma play_plain_move_witness :
  on_grid encoder_tour (fst (step 1 0 0)) (snd (step 1 0 0)) /\
  var_true plan_tour
    (id_player encoder_tour (fst (step 1 0 0)) (snd (step 1 0 0)) 1) = true /\
  (forall b x' y', 1 <= b <= num_boxes encoder_tour -> on_grid encoder_tour x' y' ->
     var_true plan_tour (id_box encoder_tour b x' y' 1)
     = var_true plan_tour (id_box encoder_tour b x' y' (1 - 1))) /\
  (forall b, 1 <= b <= num_boxes encoder_tour ->
     var_true plan_tour
       (id_box encoder_tour b (fst (step 1 0 0)) (snd (step 1 0 0)) (1 - 1)) = false).
Proof.
  apply (play_plain_move level_tour 3 encoder_tour
           (encode_clauses encoder_tour (0, 0)) (var_true plan_tour)
           init_tour ltac:(lia) encode_tour sat_tour 1 0 0 1).
  - lia.
  - apply on_tour. lia.
  - lia.
  - vm_compute. reflexivity.
  - vm_compute. reflexivity.
Defined.

(** Step 2 of the tour: the push to the right. *)
Lemma play_push_witness :
  let new := step 1 0 1 in
  let beyond := step 1 (fst new) (snd new) in
  on_grid encoder_tour (fst new) (snd new) /\
  on_grid encoder_tour (fst beyond) (snd beyond) /\
  var_true plan_tour (id_player encoder_tour (fst new) (snd new) 2) = true /\
  exists b, 1 <= b <= num_boxes encoder_tour /\
    var_true plan_tour (id_box encoder_tour b (fst new) (snd new) (2 - 1)) = true /\
    var_true plan_tour (id_box encoder_tour b (fst beyond) (snd beyond) 2) = true /\
    forall b' x' y', 1 <= b' <= num_boxes encoder_tour -> b' <> b ->
      on_grid encoder_tour x' y' ->
      var_true plan_tour (id_box encoder_tour b' x' y' 2)
      = var_true plan_tour (id_box encoder_tour b' x' y' (2 - 1)).
Proof.
  apply (play_push level_tour 3 encoder_tour
           (encode_clauses encoder_tour (0, 0)) (var_true plan_tour)
           init_tour ltac:(lia) encode_tour sat_tour 2 0 1 1).
  - lia.
  - apply on_tour. lia.
  - lia.
  - vm_compute. reflexivity.
  - vm_compute. reflexivity.
Defined.

(** Step 3 of the tour: the stay, at the player's cell. *)
Lemma play_stay_witness :
  var_true plan_tour (id_player encoder_tour 0 2 3)
  = var_true plan_tour (id_player encoder_tour 0 2 (3 - 1)) /\
  forall b, 1 <= b <= num_boxes encoder_tour ->
    var_true plan_tour (id_box encoder_tour b 0 2 3)
    = var_true plan_tour (id_box encoder_tour b 0 2 (3 - 1)).
Proof.
  apply (play_stay level_tour 3 encoder_tour
           (encode_clauses encoder_tour (0, 0)) (var_true plan_tour)
           init_tour ltac:(lia) encode_tour sat_tour 3 0 2).
  - lia.
  - apply on_tour. lia.
  - vm_compute. reflexivity.
Defined.

(** The plan of the tour has at most three moves. *)
Lemma decode_plan_bounded_witness :
  exists plan, decode encoder_tour plan_tour = Ok plan /\ len plan <= 3 /\
               forall s, In s plan -> In s ["U"; "R"; "D"; "L"]%string.
Proof.
  apply (decode_plan_bounded level_tour 3 encoder_tour
           (encode_clauses encoder_tour (0, 0)) plan_tour).
  - exact init_tour.
  - lia.
  - exact encode_tour.
  - exact model_tour.
Defined.

(** The empty list is not decoded. *)
Lemma decode_short_model_witness : decode encoder_tour [] = Raise IndexError.
Proof.
  apply (decode_short_model level_tour 3 encoder_tour []).
  - exact init_tour.
  - lia.
  - vm_compute. reflexivity.
Defined.

(** The answer of the reference solver on the tour level. *)
Lemma solve_sokoban_answer_witness :
  (satisfiable (encode_clauses encoder_tour (0, 0)) ->
     exists m plan, is_model m (encode_clauses encoder_tour (0, 0)) = true /\
                    decode encoder_tour m = Ok plan /\
                    solve_sokoban brute_force level_tour 3 = Ok (Moves plan)) /\
  (~ satisfiable (encode_clauses encoder_tour (0, 0)) ->
     solve_sokoban brute_force level_tour 3 = Ok Unsat).
Proof.
  apply (solve_sokoban_answer brute_force level_tour 3 encoder_tour
           (encode_clauses encoder_tour (0, 0))).
  - exact brute_force_sat_oracle.
  - exact init_tour.
  - lia.
  - exact encode_tour.
Defined.

(** The tour level at horizon 0. *)
Lemma horizon_zero_with_box_unsat_witness :
  ~ satisfiable (encode_clauses (with_horizon encoder_tour 1) (0, 0)) /\
  solve_sokoban brute_force level_tour 0 = Ok Unsat.
Proof.
  apply (horizon_zero_with_box_unsat brute_force level_tour
           (with_horizon encoder_tour 1)
           (encode_clauses (with_horizon encoder_tour 1) (0, 0))).
  - exact brute_force_sat_oracle.
  - vm_compute. reflexivity.
  - vm_compute. reflexivity.
  - cbn. lia.
Defined.

(** Step 2 of the tour: the push is decoded as R and the player goes right. *)
Lemma play_follows_symbol_witness :
  exists s d, symbol 6 = [s] /\ dict_get DIRS s = Some d /\
    on_grid encoder_tour (0 + fst d) (1 + snd d) /\
    var_true plan_tour (id_player encoder_tour (0 + fst d) (1 + snd d) 2) = true.
Proof.
  apply (play_follows_symbol level_tour 3 encoder_tour
           (encode_clauses encoder_tour (0, 0)) (var_true plan_tour)
           init_tour ltac:(lia) encode_tour sat_tour 2 0 1 6).
  - lia.
  - apply on_tour. lia.
  - lia.
  - vm_compute. reflexivity.
  - vm_compute. reflexivity.
Defined.

End SokobanInstances.

(** ** Question1: a side that is not a perfect square *)

Section NonSquareSide.

Import Sudoku Examples.

Lemma subgrid_clauses_first (n s : Z) :
  0 < s -> 0 < n ->
  exists subs, subgrid_clauses n s = Ok subs /\
    forall num, 1 <= num <= n -> In (subgrid_clause n s 0 0 num) subs.
Proof.
  intros Hs Hn. unfold subgrid_clauses, range_step.
  destruct (Z.eqb_spec s 0); [lia|]. destruct (Z.ltb_spec 0 s); [|lia].
  cbn [rbind].
  set (brs := map (fun i => 0 + s * Z.of_nat i)
                  (seq 0 (Z.to_nat ((n - 0 + s - 1) / s)))).
  assert (H0 : In 0 brs).
  { unfold brs. apply in_map_iff. exists 0%nat. split; [lia|]. apply in_seq.
    assert (1 <= (n - 0 + s - 1) / s) by (apply Z.div_le_lower_bound; lia). lia. }
  exists (flat_map (fun br => flat_map (fun bc =>
            map (fun num => subgrid_clause n s br bc num) (range 1 (n + 1))) brs) brs).
  split.
  - apply for_ok. intros br _. apply for_ok. intros bc _. reflexivity.
  - intros num Hnum. apply in_flat_map. exists 0. split; [assumption|].
    apply in_flat_map. exists 0. split; [assumption|].
    apply in_map_iff. exists num. split; [reflexivity|apply in_range; lia].
Qed.

Lemma cell_value_some (n : Z) (m : list Z) (r c num : Z) :
  0 <= n -> cnf_sat (var_true m) (cell_clauses n) ->
  0 <= r < n -> 0 <= c < n -> 1 <= num <= n ->
  var_true m (prop n r c num) = true -> cell_value n m r c = Some num.
Proof.
  intros Hn Hcells Hr Hc Hnum Hv. unfold cell_value.
  destruct (find _ _) as [k|] eqn:E.
  - apply find_some in E. destruct E as [Hk Hkv]. apply in_range in Hk.
    f_equal. apply (cell_unique n Hn (var_true m) r c k num); auto; lia.
  - apply find_none with (x := num) in E; [congruence|apply in_range; lia].
Qed.

(** The clause list of a grid whose side is not a perfect square has no
    model: the first block has [sub_n * sub_n < n] cells and must hold every
    value of [1..n]. *)
Lemma non_square_side_unsat (h : heap) (grid : list loc) (n : Z) :
  square_grid h grid n -> 0 < n -> Z.sqrt n * Z.sqrt n < n ->
  exists f, sudoku_cnf h grid = Ok f /\ ~ satisfiable f.
Proof.
  intros Hsq Hn Hns. pose proof Hsq as (Hlen & _ & _).
  set (s := Z.sqrt n) in *.
  assert (Hs : 0 < s) by now apply Z.sqrt_pos.
  destruct (subgrid_clauses_first n s Hs Hn) as (subs & Es & Hsubs).
  eexists. split.
  { unfold sudoku_cnf. rewrite Hlen. unfold int_sqrt. fold s. rewrite Es.
    cbn [rbind]. rewrite (given_clauses_square h grid n Hsq). reflexivity. }
  intros (m & Hm). pose proof (is_model_sat _ _ Hm) as Hsat.
  apply cnf_sat_app in Hsat. destruct Hsat as [Hcells Hsat].
  apply cnf_sat_app in Hsat. destruct Hsat as [_ Hsat].
  apply cnf_sat_app in Hsat. destruct Hsat as [_ Hsat].
  apply cnf_sat_app in Hsat. destruct Hsat as [Hsub _].
  set (block := flat_map (fun r => map (pair r) (range 0 s)) (range 0 s)).
  set (value := fun p : Z * Z => cell_value n m (fst p) (snd p)).
  assert (Hincl : incl (map Some (range 1 (n + 1))) (map value block)).
  { intros o Ho. apply in_map_iff in Ho. destruct Ho as (num & <- & Hnum).
    apply in_range in Hnum.
    destruct (subgrid_some n ltac:(lia) (var_true m) s 0 0 num)
      as (r & c & Hr & Hc & Hv); try lia.
    { apply Hsub, Hsubs. lia. }
    apply in_map_iff. exists (r, c). split.
    - unfold value. cbn [fst snd]. apply cell_value_some; auto; try lia; nia.
    - unfold block. apply in_flat_map. exists r. split; [apply in_range; lia|].
      apply in_map_iff. exists c. split; [reflexivity|apply in_range; lia]. }
  assert (Hnd : NoDup (map Some (range 1 (n + 1)))).
  { apply Finite.Injective_map_NoDup; [|apply NoDup_range]. now intros a b [= ->]. }
  pose proof (NoDup_incl_length Hnd Hincl) as Hle.
  rewrite !length_map, length_range in Hle. unfold block in Hle.
  rewrite (length_flat_map_const _ _ (Z.to_nat s)) in Hle.
  - rewrite length_range in Hle. nia.
  - intros r _. now rewrite length_map, length_range, Z.sub_0_r.
Qed.

(** A grid whose side is not a perfect square is never solved: the clause
    list has no model, and with a solver that answers SAT only with a model
    the heap is left as it was; [solve_sudoku] returns the grid, or raises
    [ValueError] while building the solver when a given makes the
    literal 0. *)
Theorem non_square_side_never_solved
    (oracle : cnf -> option (list Z)) (h : heap) (grid : list loc) (n : Z) :
  sat_oracle oracle -> square_grid h grid n -> 0 < n ->
  Z.sqrt n * Z.sqrt n < n ->
  exists f, sudoku_cnf h grid = Ok f /\ ~ satisfiable f /\
    solve_sudoku oracle grid h
    = (h, if has_zero f then Raise ValueError else Ok grid).
Proof.
  intros Hor Hsq Hn Hns.
  destruct (non_square_side_unsat h grid n Hsq Hn Hns) as (f & Ef & Hno).
  exists f. split; [assumption|]. split; [assumption|].
  destruct (has_zero f) eqn:Ez.
  - unfold solve_sudoku. now rewrite Ef, (solver_answer_zero oracle f Ez).
  - apply (solve_sudoku_unsat oracle h grid f Ef).
    rewrite (solver_answer_ok oracle f Ez).
    specialize (Hor f). destruct (oracle f) as [m|]; [|reflexivity].
    exfalso. apply Hno. now exists m.
Qed.

Lemma square_zero2 : square_grid (fst (alloc zero2)) (snd (alloc zero2)) 2.
Proof.
  split; [reflexivity|]. split.
  - repeat constructor; cbn; intuition discriminate.
  - intros l Hl. cbn in Hl.
    repeat (destruct Hl as [<-|Hl]; [eexists; split; vm_compute; reflexivity|]).
    contradiction.
Qed.

(** The 2-by-2 grid with the given -2 at (0, 1): the literal is 0 and the
    solver is not built. *)
Lemma non_square_side_never_solved_witness :
  exists f, sudoku_cnf (fst (alloc zero2)) (snd (alloc zero2)) = Ok f /\
    ~ satisfiable f /\
    solve_sudoku brute_force (snd (alloc zero2)) (fst (alloc zero2))
    = (fst (alloc zero2),
       if has_zero f then Raise ValueError else Ok (snd (alloc zero2))).
Proof.
  apply (non_square_side_never_solved brute_force
           (fst (alloc zero2)) (snd (alloc zero2)) 2).
  - exact brute_force_sat_oracle.
  - exact square_zero2.
  - lia.
  - vm_compute. reflexivity.
Defined.

(** On that grid, and on the blank one, the two outcomes. *)
Example non_square_side_outcomes (oracle : cnf -> option (list Z)) :
  solve_sudoku oracle (snd (alloc zero2)) (fst (alloc zero2))
  = (fst (alloc zero2), Raise ValueError) /\
  solve_sudoku (fun _ => None) (snd (alloc blank2)) (fst (alloc blank2))
  = (fst (alloc blank2), Ok (snd (alloc blank2))).
Proof. split; vm_compute; reflexivity. Qed.

End NonSquareSide.
